(** * The authorization-policy engine of plumier

    A shallow embedding of [packages/core/src/authorization.ts]: policy
    classes and the policy authorizer, route-level decorator resolution,
    the parameter-write walk and the response-read filter.

    Asynchronous functions are embedded in a state-and-exception monad:
    an [await] on a single promise is a sequencing point, a rejected
    promise is a thrown exception.  The one place where the source runs
    promises side by side, the [Promise.all] of the route check, is
    embedded as a machine of suspended walks, resumed in the order of a
    schedule that the theorems quantify over.  The state carries the one
    object the source shares between calls, the configuration's
    [authPolicies] array, and a log of the policy evaluations performed. *)

From Stdlib Require Import ZArith String Ascii List.
From Stdlib Require Import DecimalString DecimalNat DecimalN DecimalPos DecimalZ Lia.
From stdpp Require Import base list gmap strings.

Set Warnings "-register-all,-clear-no-such-hyp".

Local Open Scope string_scope.
Local Open Scope list_scope.
Local Open Scope stdpp_scope.

(* ===================================================================== *)
(** ** JavaScript values *)
(* ===================================================================== *)

(** Request and response payloads.  Numbers are integers; an object
    carries the name of its constructor and its own properties in
    insertion order. *)
Inductive JsValue :=
| JUndefined
| JNull
| JBool (b : bool)
| JNum (n : Z)
| JStr (s : string)
| JArr (items : list JsValue)
| JObj (ctor : string) (fields : list (string * JsValue)).

(** [value === undefined || value === null] *)
Definition isNullish (v : JsValue) : bool :=
  match v with
  | JUndefined | JNull => true
  | _ => false
  end.

(** [Array.isArray(value)] *)
Definition isArray (v : JsValue) : bool :=
  match v with
  | JArr _ => true
  | _ => false
  end.

(** First own property called [k], or [undefined]. *)
Fixpoint lookupField (fields : list (string * JsValue)) (k : string) : JsValue :=
  match fields with
  | [] => JUndefined
  | (k', v) :: rest => if String.eqb k' k then v else lookupField rest k
  end.

(** [obj[k] = v]: replaces the property in place or appends it. *)
Fixpoint assignField (fields : list (string * JsValue)) (k : string) (v : JsValue)
  : list (string * JsValue) :=
  match fields with
  | [] => [(k, v)]
  | (k', v') :: rest =>
      if String.eqb k' k then (k', v) :: rest else (k', v') :: assignField rest k v
  end.

(** [i.toString()] for an array index. *)
Definition nat_toString (i : nat) : string :=
  NilEmpty.string_of_uint (Nat.to_uint i).

Definition Z_toString (z : Z) : string :=
  NilEmpty.string_of_int (Z.to_int z).

(** [arr.join(sep)] on strings. *)
Definition join (sep : string) (parts : list string) : string :=
  String.concat sep parts.

(** The digits of [d] without its trailing zeros, the first one set off
    by a point, and the decimal exponent: [1e+21], [1.5e+22]. *)
Definition exponentForm (d : Decimal.uint) : string :=
  let digits :=
    NilEmpty.string_of_uint (Decimal.rev (Decimal.nzhead (Decimal.rev d))) in
  let exponent := nat_toString (Decimal.nb_digits d - 1) in
  match digits with
  | EmptyString => EmptyString
  | String c EmptyString => String c ("e+" ++ exponent)
  | String c rest => String c ("." ++ rest ++ "e+" ++ exponent)
  end.

(** [Number::toString] on integers: the decimal digits below [10^21],
    exponent form from there on. *)
Definition Number_toString (n : Z) : string :=
  if (Z.abs n <? 10 ^ 21)%Z then Z_toString n
  else (if (n <? 0)%Z then "-" else "") ++ exponentForm (N.to_uint (Z.abs_N n)).

(** The number of digits of [n] up to its last digit other than zero. *)
Definition significantDigits (n : Z) : nat :=
  Decimal.nb_digits (Decimal.nzhead (Decimal.rev (N.to_uint (Z.abs_N n)))).

(** A number is a double in the source and an integer here.  The two
    agree, string form included, on the safe integers and on the integers
    of at most 15 significant digits below the largest double: these a
    double holds together with its shortest decimal form. *)
Definition printable (n : Z) : bool :=
  (Z.abs n <=? 2 ^ 53 - 1)%Z
  || ((significantDigits n <=? 15)%nat && (Z.abs n <? 10 ^ 308)%Z).

(** String conversion as performed by a template literal; an object is
    taken to have the [toString] of [Object.prototype]. *)
Fixpoint js_toString (v : JsValue) : string :=
  match v with
  | JUndefined => "undefined"
  | JNull => "null"
  | JBool true => "true"
  | JBool false => "false"
  | JNum n => Number_toString n
  | JStr s => s
  | JArr items =>
      join "," (map (fun x => if isNullish x then "" else js_toString x) items)
  | JObj _ _ => "[object Object]"
  end.

(** The digits [d] after [k] zeros. *)
Definition zeros (k : nat) (d : Decimal.uint) : Decimal.uint :=
  Nat.iter k Decimal.D0 d.

(** The values whose numbers are all [printable]. *)
Fixpoint printableValue (v : JsValue) : bool :=
  match v with
  | JNum n => printable n
  | JArr items => forallb printableValue items
  | _ => true
  end.

Definition lowerAscii (c : ascii) : ascii :=
  let n := nat_of_ascii c in
  if (65 <=? n)%nat && (n <=? 90)%nat then ascii_of_nat (n + 32) else c.

(** [s.toLowerCase()] on ASCII text. *)
Fixpoint toLowerCase (s : string) : string :=
  match s with
  | EmptyString => EmptyString
  | String c rest => String (lowerAscii c) (toLowerCase rest)
  end.

(* ===================================================================== *)
(** ** Reflection metadata *)
(* ===================================================================== *)

(** A class object.  [===] on classes is [=] here. *)
Record Class := { class_id : positive; class_name : string }.

#[global] Instance Class_eq_dec : EqDecision Class.
Proof. solve_decision. Defined.

#[global] Instance Class_countable : Countable Class.
Proof.
  refine (inj_countable' (fun c => (class_id c, class_name c))
                         (fun p => Build_Class p.1 p.2) _).
  by intros [].
Defined.

(** The [type] of a parameter or property: an array literal [[T]], a
    class for which [isCustomClass] holds, or anything else (primitives,
    [Date], [Object], [undefined]). *)
Inductive TypeRef :=
| TValue
| TClass (c : Class)
| TArray (elem : TypeRef).

(** Modelled from the spec: [isCustomClass] lives in [./common], which is
    not among the sources; a custom class is a class other than the
    primitive wrappers, [Date], [Object] and [Array], here exactly the
    types built with [TClass]. *)
Definition isCustomClass (t : TypeRef) : bool :=
  match t with
  | TClass _ => true
  | _ => false
  end.

Inductive AccessModifier := AccessRoute | AccessRead | AccessWrite.

#[global] Instance AccessModifier_eq_dec : EqDecision AccessModifier.
Proof. solve_decision. Defined.

Inductive DecoratorLocation := LocClass | LocParameter | LocMethod.

Inductive Evaluation := Static | Dynamic.

(** [interface AuthorizeDecorator]; [appliedClass = None] stands for
    [Object]. *)
Record AuthorizeDecorator := {
  policies : list string;
  access : AccessModifier;
  tag : string;
  location : DecoratorLocation;
  evaluation : Evaluation;
  appliedClass : option Class
}.

(** The decorators the engine inspects, told apart in the source by
    their [type] / [kind] field. *)
Inductive Decorator :=
| DAuthorize (d : AuthorizeDecorator)
| DRelation
| DEntityPolicyProvider (entity : Class) (idParam : string)
| DResponseType (t : TypeRef)
| DEntityId
| DOther (kind : string).

(** [PropertyReflection | ParameterReflection] *)
Record MemberReflection := {
  kind : string;
  name : string;
  type : TypeRef;
  decorators : list Decorator
}.

Record MethodReflection := {
  method_name : string;
  method_decorators : list Decorator;
  parameters : list MemberReflection;
  returnType : option TypeRef
}.

Record ClassReflection := {
  ctl_name : string;
  ctl_decorators : list Decorator;
  ctl_type : Class
}.

Record RouteInfo := {
  controller : ClassReflection;
  action : MethodReflection
}.

(** [metadata.current]: what is being evaluated. *)
Record CurrentMeta := {
  cur_kind : string;
  cur_name : string;
  cur_parent : option Class
}.

(** [Metadata]; [actionParams] pairs each action parameter name with its
    bound value. *)
Record Metadata := {
  current : option CurrentMeta;
  meta_controller : ClassReflection;
  meta_action : MethodReflection;
  actionParams : list (string * JsValue)
}.

(** [AuthorizationContext].  [user] is an object or [undefined]; the
    request's HTTP method and route are read through [ctx.ctx]. *)
Record AuthorizationContext := {
  user : option JsValue;
  ctx_access : AccessModifier;
  value : JsValue;
  parentValue : JsValue;
  metadata : Metadata;
  http_method : string;
  route : RouteInfo
}.

(* ===================================================================== *)
(** ** Exceptions, the shared policy array and the monad *)
(* ===================================================================== *)

Inductive Exn :=
| HttpStatusError (status : Z) (message : string)
| Error (message : string)
| TypeError (message : string).

(** What a user-supplied evaluator may throw: an [Error] (of which the
    wrapper uses the [stack]) or any other value. *)
Inductive Thrown :=
| ThrownError (stack : string)
| ThrownValue (v : JsValue).

(** The outcome of a user-supplied evaluator: the boolean it returns, at
    once or through a promise; what it throws while it is called; what the
    promise it returns is rejected with. *)
Inductive Outcome :=
| Returns (b : bool)
| Throws (e : Thrown)
| Rejects (e : Thrown).

Inductive AuthPolicy :=
| CustomAuthPolicy (name : string) (authorizer : AuthorizationContext -> Outcome)
| PublicAuthPolicy
| AuthenticatedAuthPolicy
| ReadonlyAuthPolicy
| WriteonlyAuthPolicy
| EntityAuthPolicy (name : string) (entity : Class)
                   (authorizer : AuthorizationContext -> JsValue -> Outcome).

(** One call of [authPolicy.authorize(ctx)]. *)
Record Call := {
  call_policy : string;
  call_ctx : AuthorizationContext
}.

(** [authPolicies] is [ctx.config.authPolicies], the array every
    [PolicyAuthorizer] is constructed with. *)
Record World := {
  authPolicies : list AuthPolicy;
  calls : list Call
}.

Inductive Result (A : Type) :=
| Ok (a : A)
| Throw (e : Exn).
Arguments Ok {A} a.
Arguments Throw {A} e.

Definition M (A : Type) : Type := World -> Result A * World.

Definition ret {A} (a : A) : M A := fun w => (Ok a, w).

Definition throw {A} (e : Exn) : M A := fun w => (Throw e, w).

Definition bind {A B} (m : M A) (k : A -> M B) : M B :=
  fun w =>
    match m w with
    | (Ok a, w') => k a w'
    | (Throw e, w') => (Throw e, w')
    end.

Definition lift {A} (r : Result A) : M A := fun w => (r, w).

Notation "'let*' x ':=' m 'in' k" := (bind m (fun x => k))
  (at level 10, x name, m at level 100, k at level 200).

Definition logCall (c : Call) : M unit :=
  fun w => (Ok tt, {| authPolicies := authPolicies w; calls := calls w ++ [c] |}).

(** [this.policies.reverse()]: reverses the shared array in place and
    returns it. *)
Definition reversePolicies : M (list AuthPolicy) :=
  fun w =>
    let ps := rev (authPolicies w) in
    (Ok ps, {| authPolicies := ps; calls := calls w |}).

(** [for (let i = 0; i < value.length; i++) result.push(...await f(value[i], i))],
    from index [i] on. *)
Definition collectIndexed (f : JsValue -> nat -> M (list string))
  : list JsValue -> nat -> M (list string) :=
  fix loop (items : list JsValue) (i : nat) : M (list string) :=
    match items with
    | [] => ret []
    | val :: rest =>
        let* issues := f val i in
        let* others := loop rest (S i) in
        ret (issues ++ others)
    end.

(** [f(obj[k])] for an object with own properties [fields]; [missing]
    is [f(undefined)], for a property the object does not have. *)
Definition onField {A} (f : JsValue -> M A) (missing : M A) (k : string)
  : list (string * JsValue) -> M A :=
  fix get (fields : list (string * JsValue)) : M A :=
    match fields with
    | [] => missing
    | (k', val) :: rest => if String.eqb k' k then f val else get rest
    end.

(** [for (const item of raw) { const val = await f(item); if (val !== undefined) result.push(val) }] *)
Definition filterItems (f : JsValue -> M JsValue) : list JsValue -> M (list JsValue) :=
  fix loop (items : list JsValue) : M (list JsValue) :=
    match items with
    | [] => ret []
    | item :: rest =>
        let* val := f item in
        let* others := loop rest in
        ret (match val with JUndefined => others | _ => val :: others end)
    end.

(* ===================================================================== *)
(** ** Helpers *)
(* ===================================================================== *)

(** Modelled from the spec: [./http-status] is not among the sources;
    section 7 of the specification maps Forbidden to 403 and
    Unauthorized to 401. *)
Module HttpStatus.
Definition Forbidden : Z := 403.
Definition Unauthorized : Z := 401.
End HttpStatus.

Definition quote : string := String "034"%char EmptyString.
Definition newline : string := String "010"%char EmptyString.

(** [createDecoratorFilter]: keeps the [plumier-meta:authorize]
    decorators that satisfy [predicate]. *)
Definition createDecoratorFilter (predicate : AuthorizeDecorator -> bool)
    (x : Decorator) : option AuthorizeDecorator :=
  match x with
  | DAuthorize d => if predicate d then Some d else None
  | _ => None
  end.

Definition hasAccess (a : AccessModifier) (x : AuthorizeDecorator) : bool :=
  bool_decide (access x = a).

(** [globalDecorator?: string | string[]] *)
Inductive GlobalDecorator :=
| GlobalName (policy : string)
| GlobalNames (names : list string).

(** Truthiness of the optional global default: [undefined] and the empty
    string are falsy, every array is truthy. *)
Definition isConfigured (globalDecorator : option GlobalDecorator) : bool :=
  match globalDecorator with
  | None => false
  | Some (GlobalName s) => negb (String.eqb s "")
  | Some (GlobalNames _) => true
  end.

Definition getGlobalDecorators (globalDecorator : GlobalDecorator)
  : list AuthorizeDecorator :=
  let policies :=
    match globalDecorator with
    | GlobalName s => [s]
    | GlobalNames l => l
    end in
  [ {| policies := policies;
       tag := join "|" policies;
       access := AccessRoute;
       evaluation := Dynamic;
       location := LocMethod;
       appliedClass := None |} ].

Definition getRouteAuthorizeDecorators (info : RouteInfo)
    (globalDecorator : option GlobalDecorator) : list AuthorizeDecorator :=
  let actionDecs :=
    omap (createDecoratorFilter (hasAccess AccessRoute))
         (method_decorators (action info)) in
  if (0 <? length actionDecs)%nat then actionDecs
  else
    let controllerDecs :=
      omap (createDecoratorFilter (hasAccess AccessRoute))
           (ctl_decorators (controller info)) in
    if (0 <? length controllerDecs)%nat then controllerDecs
    else
      match globalDecorator with
      | Some g => if isConfigured globalDecorator then getGlobalDecorators g else []
      | None => []
      end.

(** The route-scoped authorize decorators among [decs], in order. *)
Definition routeScoped (decs : list Decorator) : list AuthorizeDecorator :=
  omap (createDecoratorFilter (hasAccess AccessRoute)) decs.

(** The one decorator made from a configured global default. *)
Definition globalDecoratorOf (g : GlobalDecorator) : AuthorizeDecorator :=
  let names :=
    match g with
    | GlobalName s => [s]
    | GlobalNames l => l
    end in
  {| policies := names;
     tag := join "|" names;
     access := AccessRoute;
     evaluation := Dynamic;
     location := LocMethod;
     appliedClass := None |}.

Definition throwAuthError {A} (ctx : AuthorizationContext) (msg : option string)
  : M A :=
  match user ctx with
  | None => throw (HttpStatusError HttpStatus.Forbidden (default "Forbidden" msg))
  | Some _ => throw (HttpStatusError HttpStatus.Unauthorized (default "Unauthorized" msg))
  end.

(** [metadata.current] is dereferenced without a check, and so is
    [current.parent] off the class branch. *)
Definition getErrorLocation (metadata : Metadata) : Result string :=
  match current metadata with
  | None => Throw (TypeError "Cannot read properties of undefined")
  | Some cur =>
      if String.eqb (cur_kind cur) "Class" then Ok ("class " +:+ cur_name cur)
      else
        match cur_parent cur with
        | None => Throw (TypeError "Cannot read properties of undefined")
        | Some parent =>
            Ok (toLowerCase (cur_kind cur) +:+ " " +:+ class_name parent
                  +:+ "." +:+ cur_name cur)
        end
  end.

(* ===================================================================== *)
(** ** Authorization policies *)
(* ===================================================================== *)

Definition Public : string := "Public".
Definition Authenticated : string := "Authenticated".
Definition AuthorizeReadonly : string := "plumier::readonly".
Definition AuthorizeWriteonly : string := "plumier::writeonly".

Definition policyName (p : AuthPolicy) : string :=
  match p with
  | CustomAuthPolicy name _ => name
  | PublicAuthPolicy => Public
  | AuthenticatedAuthPolicy => Authenticated
  | ReadonlyAuthPolicy => AuthorizeReadonly
  | WriteonlyAuthPolicy => AuthorizeWriteonly
  | EntityAuthPolicy name _ _ => name
  end.

Definition friendlyName (p : AuthPolicy) : string :=
  match p with
  | EntityAuthPolicy name entity _ =>
      "EntityPolicy { name: " +:+ quote +:+ name +:+ quote +:+ ", entity: "
        +:+ class_name entity +:+ " }"
  | _ => "AuthPolicy { name: " +:+ quote +:+ policyName p +:+ quote +:+ " }"
  end.

(** [e instanceof Error ? e.stack : e], as spliced into the message. *)
Definition thrownMessage (e : Thrown) : string :=
  match e with
  | ThrownError stack => stack
  | ThrownValue v => js_toString v
  end.

Record EntityProvider := {
  prov_entity : Class;
  prov_id : JsValue
}.

(** [decorators.find(x => x.kind === "plumier-meta:entity-policy-provider")] *)
Fixpoint findEntityPolicyProvider (decs : list Decorator) : option (Class * string) :=
  match decs with
  | [] => None
  | DEntityPolicyProvider entity idParam :: _ => Some (entity, idParam)
  | _ :: rest => findEntityPolicyProvider rest
  end.

Definition isEntityId (d : Decorator) : bool :=
  match d with
  | DEntityId => true
  | _ => false
  end.

Definition isRelationDecorator (d : Decorator) : bool :=
  match d with
  | DRelation => true
  | _ => false
  end.

(** The part of [Configuration] the engine reads, apart from
    [authPolicies], which is the shared array held in [World]. *)
Record Configuration := {
  enableAuthorization : bool;
  globalAuthorizations : option GlobalDecorator;
  responseTransformer : option (MemberReflection -> Class -> JsValue -> JsValue)
}.

(** [ActionContext]: the request as seen by the middleware. *)
Record ActionContext := {
  ac_route : RouteInfo;
  ac_user : option JsValue;
  ac_parameters : list JsValue;
  ac_method : string
}.

(** [ActionResult] *)
Record ActionResult := {
  status : Z;
  body : JsValue
}.

(** The authorizer of a compiled property: [true] or a
    [PolicyAuthorizer] over the shared array with these names. *)
Inductive NodeAuthorizer :=
| AuthorizerBool (b : bool)
| AuthorizerPolicies (keys : list string).

(** [FilterNode]; a property of a class node carries its name, its
    reflection with the owning class as [parent], its authorizer and the
    node of its type. *)
Inductive FilterNode :=
| ValueNode
| ArrayNode (child : FilterNode)
| ClassNode (properties : list PropertyNode)
with PropertyNode :=
| Build_PropertyNode (pn_name : string) (pn_meta : MemberReflection)
                     (pn_parent : Class) (pn_authorizer : NodeAuthorizer)
                     (pn_type : FilterNode).

(** JavaScript truthiness. *)
Definition truthy (v : JsValue) : bool :=
  match v with
  | JUndefined | JNull | JBool false => false
  | JNum n => negb (n =? 0)%Z
  | JStr s => negb (String.eqb s "")
  | _ => true
  end.

(** [raw[k]]: a [TypeError] on [undefined] and [null]; own properties of
    objects; [undefined] otherwise (built-in properties of strings and
    arrays are not represented). *)
Definition getProp (raw : JsValue) (k : string) : Result JsValue :=
  match raw with
  | JUndefined | JNull => Throw (TypeError "Cannot read properties of undefined")
  | JObj _ fields => Ok (lookupField fields k)
  | _ => Ok JUndefined
  end.

(** [raw.constructor.name] *)
Definition constructorName (raw : JsValue) : Result string :=
  match raw with
  | JUndefined | JNull => Throw (TypeError "Cannot read properties of undefined")
  | JBool _ => Ok "Boolean"
  | JNum _ => Ok "Number"
  | JStr _ => Ok "String"
  | JArr _ => Ok "Array"
  | JObj ctor _ => Ok ctor
  end.

(** [find(x => x.kind === "plumier-meta:response-type")], with the type
    it declares. *)
Fixpoint findResponseType (decs : list Decorator) : option TypeRef :=
  match decs with
  | [] => None
  | DResponseType t :: _ => Some t
  | _ :: rest => findResponseType rest
  end.

Section Engine.

(** The reflection layer: [reflect(type).properties] for every class it
    knows; a class without an entry has no properties. *)
Context (reflectTable : gmap Class (list MemberReflection)).

(** [ctx.config] *)
Context (config : Configuration).

Definition reflect (c : Class) : list MemberReflection :=
  default [] (reflectTable !! c).

(** Modelled from the spec: [entityHelper.getIdProp] lives in [./common],
    which is not among the sources; it yields the property flagged as the
    primary identifier of the entity, if any. *)
Definition getIdProp (entity : Class) : option MemberReflection :=
  List.find (fun prop => existsb isEntityId (decorators prop)) (reflect entity).

(** Modelled from the spec: [actionParams.get(name)] belongs to the
    metadata classes of [./types], which are not among the sources.
    Section 4.5: the identifier is read from the bound parameters by the
    name of the parameter; the name is matched without regard to case, and
    a name no parameter bears gives [undefined]. *)
Fixpoint actionParamsGet (params : list (string * JsValue)) (name : string) : JsValue :=
  match params with
  | [] => JUndefined
  | (n, v) :: rest =>
      if String.eqb (toLowerCase n) (toLowerCase name) then v
      else actionParamsGet rest name
  end.

(** [EntityAuthPolicy.getEntity] *)
Definition getEntity (ctx : AuthorizationContext) : Result EntityProvider :=
  match ctx_access ctx with
  | AccessRoute | AccessWrite =>
      match findEntityPolicyProvider (method_decorators (meta_action (metadata ctx))) with
      | None =>
          let meta := metadata ctx in
          Throw (Error ("Action " +:+ ctl_name (meta_controller meta) +:+ "."
                          +:+ method_name (meta_action meta)
                          +:+ " doesn't have Entity Policy Provider information"))
      | Some (entity, idParam) =>
          Ok {| prov_entity := entity;
                prov_id := actionParamsGet (actionParams (metadata ctx)) idParam |}
      end
  | AccessRead =>
      match current (metadata ctx) with
      | None => Throw (TypeError "Cannot read properties of undefined")
      | Some cur =>
          match cur_parent cur with
          | None => Throw (TypeError "Cannot read properties of undefined")
          | Some entity =>
              match getIdProp entity with
              | None =>
                  Throw (Error ("Entity " +:+ class_name entity
                                  +:+ " doesn't have primary ID information required for entity policy"))
              | Some prop =>
                  match parentValue ctx with
                  | JUndefined | JNull =>
                      Throw (TypeError "Cannot read properties of undefined")
                  | JObj _ fields =>
                      Ok {| prov_entity := entity; prov_id := lookupField fields (name prop) |}
                  | _ => Ok {| prov_entity := entity; prov_id := JUndefined |}
                  end
              end
          end
      end
  end.

(** [equals(id, ctx)] of the policy classes. *)
Definition equals (p : AuthPolicy) (id : string) (ctx : AuthorizationContext)
  : Result bool :=
  match p with
  | EntityAuthPolicy name entity _ =>
      if String.eqb id name then
        match getEntity ctx with
        | Ok provider => Ok (bool_decide (entity = prov_entity provider))
        | Throw e => Throw e
        end
      else Ok false
  | _ => Ok (String.eqb id (policyName p))
  end.

(** [authorize(ctx)] of the policy classes: the user-supplied evaluator
    runs inside [try]; what it throws or rejects with is wrapped in a new
    [Error]. *)
Definition policyAuthorize (p : AuthPolicy) (ctx : AuthorizationContext) : M bool :=
  match p with
  | CustomAuthPolicy name authorizer =>
      match authorizer ctx with
      | Returns b => ret b
      | Throws e | Rejects e =>
          let message := thrownMessage e in
          let* location := lift (getErrorLocation (metadata ctx)) in
          throw (Error ("Error occur inside authorization policy " +:+ name
                          +:+ " on " +:+ location +:+ " " +:+ newline +:+ " "
                          +:+ message))
      end
  | PublicAuthPolicy => ret true
  | AuthenticatedAuthPolicy => ret (bool_decide (is_Some (user ctx)))
  | ReadonlyAuthPolicy => ret false
  | WriteonlyAuthPolicy => ret false
  | EntityAuthPolicy name entity authorizer =>
      let* provider := lift (getEntity ctx) in
      match authorizer ctx (prov_id provider) with
      | Returns b => ret b
      | Throws e | Rejects e =>
          let message := thrownMessage e in
          let* location := lift (getErrorLocation (metadata ctx)) in
          throw (Error ("Error occur inside authorization policy " +:+ name
                          +:+ " for entity " +:+ class_name entity
                          +:+ " on " +:+ location +:+ " " +:+ newline +:+ " "
                          +:+ message))
      end
  end.

(** The [catch] block of [authorize]: the error that wraps [e], with the
    location read off [ctx]. *)
Definition wrapped (p : AuthPolicy) (e : Thrown) (ctx : AuthorizationContext)
  : Result bool :=
  match getErrorLocation (metadata ctx) with
  | Throw err => Throw err
  | Ok location =>
      Throw (Error ("Error occur inside authorization policy " +:+ policyName p
                      +:+ match p with
                          | EntityAuthPolicy _ entity _ =>
                              " for entity " +:+ class_name entity
                          | _ => ""
                          end
                      +:+ " on " +:+ location +:+ " " +:+ newline +:+ " "
                      +:+ thrownMessage e))
  end.

(** What the promise of [authPolicy.authorize(ctx)] is settled with when
    the context, an object shared with other calls, reads [called] while
    the evaluator is called and [now] when the caller is resumed.  What
    the evaluator throws is caught while it is called, what it rejects
    with when the rejection arrives. *)
Definition settled (p : AuthPolicy) (called now : AuthorizationContext)
  : Result bool :=
  let outcome :=
    match p with
    | CustomAuthPolicy _ authorizer => Ok (authorizer called)
    | PublicAuthPolicy => Ok (Returns true)
    | AuthenticatedAuthPolicy => Ok (Returns (bool_decide (is_Some (user called))))
    | ReadonlyAuthPolicy | WriteonlyAuthPolicy => Ok (Returns false)
    | EntityAuthPolicy _ _ authorizer =>
        match getEntity called with
        | Ok provider => Ok (authorizer called (prov_id provider))
        | Throw err => Throw err
        end
    end in
  match outcome with
  | Throw err => Throw err
  | Ok (Returns b) => Ok b
  | Ok (Throws e) => wrapped p e called
  | Ok (Rejects e) => wrapped p e now
  end.

(** [conflict(other)] of the policy classes. *)
Definition conflict (p other : AuthPolicy) : bool :=
  match p with
  | EntityAuthPolicy name entity _ =>
      match other with
      | EntityAuthPolicy oname oentity _ =>
          String.eqb name oname && bool_decide (entity = oentity)
      | _ => String.eqb name (policyName other)
      end
  | _ => String.eqb (policyName p) (policyName other)
  end.

(** The inner loop of [PolicyAuthorizer.authorize]: the requested names
    tried against one instantiated policy. *)
Fixpoint authorizeKeys (authPolicy : AuthPolicy) (keys : list string)
    (ctx : AuthorizationContext) : M bool :=
  match keys with
  | [] => ret false
  | policy :: rest =>
      let* matched := lift (equals authPolicy policy ctx) in
      if matched : bool then
        let* _ := logCall {| call_policy := friendlyName authPolicy; call_ctx := ctx |} in
        let* authorize := policyAuthorize authPolicy ctx in
        if authorize : bool then ret true else authorizeKeys authPolicy rest ctx
      else authorizeKeys authPolicy rest ctx
  end.

(** The outer loop, over the policy classes in the order given. *)
Fixpoint authorizeLoop (policies : list AuthPolicy) (keys : list string)
    (ctx : AuthorizationContext) : M bool :=
  match policies with
  | [] => ret false
  | Auth :: rest =>
      let* authorized := authorizeKeys Auth keys ctx in
      if authorized : bool then ret true else authorizeLoop rest keys ctx
  end.

(** [PolicyAuthorizer.authorize], for the authorizer constructed with the
    shared array and [keys]. *)
Definition PolicyAuthorizer_authorize (keys : list string)
    (ctx : AuthorizationContext) : M bool :=
  let* policies := reversePolicies in
  authorizeLoop policies keys ctx.

(** [executeAuthorizer]: one decorator or an array of them. *)
Definition executeAuthorizer
    (decorator : AuthorizeDecorator + list AuthorizeDecorator)
    (info : AuthorizationContext) : M bool :=
  let policies :=
    match decorator with
    | inl d => policies d
    | inr ds => concat (map policies ds)
    end in
  PolicyAuthorizer_authorize policies info.

(* --------------------------------------------------------------------- *)
(** *** Controller or action authorization *)
(* --------------------------------------------------------------------- *)

Definition withCurrent (info : AuthorizationContext) (cur : CurrentMeta)
  : AuthorizationContext :=
  {| user := user info;
     ctx_access := ctx_access info;
     value := value info;
     parentValue := parentValue info;
     metadata :=
       {| current := Some cur;
          meta_controller := meta_controller (metadata info);
          meta_action := meta_action (metadata info);
          actionParams := actionParams (metadata info) |};
     http_method := http_method info;
     route := route info |}.

(** [fixContext]: anchors [metadata.current] at the controller or at the
    action, by the decorator's location. *)
Definition fixContext (decorator : AuthorizeDecorator) (info : AuthorizationContext)
  : AuthorizationContext :=
  match location decorator with
  | LocClass =>
      withCurrent info
        {| cur_kind := "Class";
           cur_name := ctl_name (controller (route info));
           cur_parent := None |}
  | LocMethod =>
      withCurrent info
        {| cur_kind := "Method";
           cur_name := method_name (action (route info));
           cur_parent := Some (ctl_type (controller (route info))) |}
  | LocParameter => info
  end.

(** [PolicyAuthorizer.authorize] as the runtime executes it.  An [async]
    function runs until it reaches an [await], is suspended there, and is
    resumed later, after whatever else ran in between.  The loops of
    [authorize] are suspended at [await authPolicy.authorize(ctx)] and
    nowhere else; a suspended walk holds the position of the iterator over
    the array, the instance made at that position, the names still to try
    on it and the context as it read when the instance was called. *)
Inductive Walk :=
| Settled (r : Result bool)
| Suspended (index : nat) (authPolicy : AuthPolicy) (rest : list string)
            (called : AuthorizationContext).

(** The inner loop from the names [rest] on, up to the next [await];
    [None] when it comes to its end. *)
Fixpoint tryNames (index : nat) (authPolicy : AuthPolicy) (rest : list string)
    (ctx : AuthorizationContext) : M (option Walk) :=
  match rest with
  | [] => ret None
  | policy :: rest' =>
      match equals authPolicy policy ctx with
      | Throw e => ret (Some (Settled (Throw e)))
      | Ok true =>
          let* _ := logCall {| call_policy := friendlyName authPolicy; call_ctx := ctx |} in
          ret (Some (Suspended index authPolicy rest' ctx))
      | Ok false => tryNames index authPolicy rest' ctx
      end
  end.

(** The outer loop from position [index] on, where the array holds
    [policies] from there on, up to the next [await]. *)
Fixpoint tryPolicies (index : nat) (policies : list AuthPolicy) (keys : list string)
    (ctx : AuthorizationContext) : M Walk :=
  match policies with
  | [] => ret (Settled (Ok false))
  | Auth :: rest =>
      let* found := tryNames index Auth keys ctx in
      match found with
      | Some walk => ret walk
      | None => tryPolicies (S index) rest keys ctx
      end
  end.

(** The call of [authorize]: the array is reversed and walked from its
    first position. *)
Definition startWalk (keys : list string) (ctx : AuthorizationContext) : M Walk :=
  let* policies := reversePolicies in
  tryPolicies 0 policies keys ctx.

(** The array from position [index] on, as it is now. *)
Definition policiesFrom (index : nat) : M (list AuthPolicy) :=
  fun w => (Ok (drop index (authPolicies w)), w).

(** A suspended walk is resumed: the awaited verdict decides, and the
    loops go on over the array and with the context as they are by now. *)
Definition resumeWalk (keys : list string) (ctx : AuthorizationContext) (walk : Walk)
  : M Walk :=
  match walk with
  | Settled r => ret walk
  | Suspended index authPolicy rest called =>
      match settled authPolicy called ctx with
      | Throw e => ret (Settled (Throw e))
      | Ok true => ret (Settled (Ok true))
      | Ok false =>
          let* found := tryNames index authPolicy rest ctx in
          match found with
          | Some walk' => ret walk'
          | None =>
              let* policies := policiesFrom (S index) in
              tryPolicies (S index) policies keys ctx
          end
      end
  end.

(** [m] run for its result, returned or thrown. *)
Definition attempt {A} (m : M A) : M (Result A) :=
  fun w => let '(r, w') := m w in (Ok r, w').

(** A walk run to its end with nothing in between: the loops of
    [authorize] from where the walk stands. *)
Definition completeWalk (keys : list string) (ctx : AuthorizationContext) (walk : Walk)
  : M (Result bool) :=
  match walk with
  | Settled r => ret r
  | Suspended index authPolicy rest called =>
      match settled authPolicy called ctx with
      | Throw e => ret (Throw e)
      | Ok true => ret (Ok true)
      | Ok false =>
          attempt
            (let* authorized := authorizeKeys authPolicy rest ctx in
             if authorized : bool then ret true
             else
               let* policies := policiesFrom (S index) in
               authorizeLoop policies keys ctx)
      end
  end.

(** [decorators.map(x => executeAuthorizer(x, fixContext(x, info)))]:
    the calls are made one after the other, each running up to its first
    [await].  [fixContext] writes to the one [info] all calls share, so
    the result carries [info] as the last call leaves it. *)
Fixpoint startWalks (decorators : list AuthorizeDecorator) (info : AuthorizationContext)
  : M (list (list string * Walk) * AuthorizationContext) :=
  match decorators with
  | [] => ret ([], info)
  | x :: rest =>
      let fixed := fixContext x info in
      let* walk := startWalk (policies x) fixed in
      let* started := startWalks rest fixed in
      ret ((policies x, walk) :: started.1, started.2)
  end.

(** One turn of the runtime: the walk at position [turn], if there is one
    and it is suspended, runs up to its next [await]. *)
Fixpoint resumeAt (turn : nat) (walks : list (list string * Walk))
    (ctx : AuthorizationContext) {struct walks} : M (list (list string * Walk)) :=
  match walks with
  | [] => ret []
  | (keys, walk) :: rest =>
      match turn with
      | O =>
          let* walk' := resumeWalk keys ctx walk in
          ret ((keys, walk') :: rest)
      | S turn' =>
          let* rest' := resumeAt turn' rest ctx in
          ret ((keys, walk) :: rest')
      end
  end.

(** The walks still suspended run to their end, one after the other. *)
Fixpoint completeWalks (walks : list (list string * Walk)) (ctx : AuthorizationContext)
  : M (list (Result bool)) :=
  match walks with
  | [] => ret []
  | (keys, walk) :: rest =>
      let* r := completeWalk keys ctx walk in
      let* others := completeWalks rest ctx in
      ret (r :: others)
  end.

(** The reason of the first promise found rejected, in the order of the
    list. *)
Fixpoint firstRejection (results : list (Result bool)) : option Exn :=
  match results with
  | [] => None
  | Throw e :: _ => Some e
  | Ok _ :: rest => firstRejection rest
  end.

Definition settledResult (walk : list string * Walk) : Result bool :=
  match walk.2 with
  | Settled r => r
  | Suspended _ _ _ _ => Ok false
  end.

(** The rejection [Promise.all] is rejected with is the first one in
    time: the one already seen, or else the one among [walks]. *)
Definition earliest (rejected : option Exn) (walks : list (list string * Walk))
  : option Exn :=
  match rejected with
  | Some e => Some e
  | None => firstRejection (map settledResult walks)
  end.

(** The order in which the runtime resumes the suspended walks depends on
    when the promises they await are settled, which is up to the
    evaluators.  [schedule] lists the turns taken, by position of the
    walk; the walks still suspended after the last turn run to their end
    one after the other. *)
Context (schedule : list nat).

(** [Promise.all] over the walks started: the verdicts in the order of
    the decorators, or the first rejection in time.  The walks that are
    still suspended when a rejection arrives go on all the same. *)
Fixpoint awaitAll (turns : list nat) (rejected : option Exn)
    (walks : list (list string * Walk)) (ctx : AuthorizationContext)
  : M (list bool) :=
  match turns with
  | turn :: turns' =>
      let* walks' := resumeAt turn walks ctx in
      awaitAll turns' (earliest rejected walks') walks' ctx
  | [] =>
      let* results := completeWalks walks ctx in
      match rejected, firstRejection results with
      | Some e, _ | None, Some e => throw e
      | None, None =>
          ret (map (fun r => match r with Ok b => b | Throw _ => false end) results)
      end
  end.

(** [await Promise.all(decorators.map(x => executeAuthorizer(x, fixContext(x, info))))] *)
Definition routeConditions (decorators : list AuthorizeDecorator)
    (info : AuthorizationContext) : M (list bool) :=
  let* started := startWalks decorators info in
  awaitAll schedule (earliest None started.1) started.1 started.2.

Definition checkUserAccessToRoute (decorators : list AuthorizeDecorator)
    (info : AuthorizationContext) : M unit :=
  let* conditions := routeConditions decorators info in
  if existsb (fun x => x) conditions then ret tt
  else throwAuthError info None.

(* --------------------------------------------------------------------- *)
(** *** Parameter authorization *)
(* --------------------------------------------------------------------- *)

Record ParamCheckContext := {
  path : list string;
  info : AuthorizationContext;
  parent : Class;
  pc_parentValue : JsValue
}.

Definition createContext (ctx : ParamCheckContext) (v : JsValue)
    (meta : MemberReflection) : AuthorizationContext :=
  {| user := user (info ctx);
     ctx_access := ctx_access (info ctx);
     value := v;
     parentValue := pc_parentValue ctx;
     metadata :=
       {| current := Some {| cur_kind := kind meta;
                             cur_name := name meta;
                             cur_parent := Some (parent ctx) |};
          meta_controller := meta_controller (metadata (info ctx));
          meta_action := meta_action (metadata (info ctx));
          actionParams := actionParams (metadata (info ctx)) |};
     http_method := http_method (info ctx);
     route := route (info ctx) |}.

Definition withPath (ctx : ParamCheckContext) (p : list string) : ParamCheckContext :=
  {| path := p; info := info ctx; parent := parent ctx;
     pc_parentValue := pc_parentValue ctx |}.

Definition withParent (ctx : ParamCheckContext) (c : Class) (v : JsValue)
  : ParamCheckContext :=
  {| path := path ctx; info := info ctx; parent := c; pc_parentValue := v |}.

Definition withType (meta : MemberReflection) (t : TypeRef) : MemberReflection :=
  {| kind := kind meta; name := name meta; type := t; decorators := decorators meta |}.

(** The write-scoped authorizers of [meta], run against [v]:
    [true] when the value is denied. *)
Definition writeDenied (meta : MemberReflection) (v : JsValue)
    (ctx : ParamCheckContext) : M bool :=
  let decs := omap (createDecoratorFilter (hasAccess AccessWrite)) (decorators meta) in
  if (0 <? length decs)%nat then
    let info := createContext ctx v meta in
    let* allowed := executeAuthorizer (inr decs) info in
    ret (negb allowed)
  else ret false.

(** [checkParameter].  The recursion follows the value: into the items of
    an array under an array type, into the properties of an object under
    a class type.  Under an array type only an array has items to walk
    (the characters of a string are not walked).  Reading a property off
    a value that is not an object gives [undefined], for which the
    recursive call returns at once. *)
Fixpoint checkParameter (v : JsValue) (meta : MemberReflection)
    (ctx : ParamCheckContext) {struct v} : M (list string) :=
  if isNullish v then ret []
  else if String.eqb (http_method (info ctx)) "GET" then ret []
  else
    let* denied := writeDenied meta v ctx in
    if denied : bool then ret [join "." (path ctx)]
    else if existsb isRelationDecorator (decorators meta) then ret []
    else
      match type meta with
      | TArray elem =>
          let newMeta := withType meta elem in
          match v with
          | JArr items =>
              collectIndexed
                (fun val i =>
                   checkParameter val newMeta
                     (withPath ctx (path ctx ++ [nat_toString i])))
                items 0%nat
          | _ => ret []
          end
      | TClass c =>
          let inner := withParent ctx c v in
          match v with
          | JObj _ fields =>
              (fix each (props : list MemberReflection) : M (list string) :=
                 match props with
                 | [] => ret []
                 | prop :: rest =>
                     let* issues :=
                       onField
                         (fun val =>
                            checkParameter val prop
                              (withPath inner (path inner ++ [name prop])))
                         (ret []) (name prop) fields in
                     let* others := each rest in
                     ret (issues ++ others)
                 end) (reflect c)
          | _ => ret []
          end
      | TValue => ret []
      end.

(** [checkParameters]: [value[i]] past the end of [value] is [undefined]. *)
Fixpoint checkParameters (meta : list MemberReflection) (values : list JsValue)
    (ctx : ParamCheckContext) : M (list string) :=
  match meta with
  | [] => ret []
  | prop :: rest =>
      let* issues :=
        checkParameter (hd JUndefined values) prop
          (withPath ctx (path ctx ++ [name prop])) in
      let* others := checkParameters rest (tl values) ctx in
      ret (issues ++ others)
  end.

Definition checkUserAccessToParameters (meta : list MemberReflection)
    (values : list JsValue) (info : AuthorizationContext) : M unit :=
  let* unauthorizedPaths :=
    checkParameters meta values
      {| info := info; path := [];
         parent := ctl_type (controller (route info));
         pc_parentValue := JUndefined |} in
  if (0 <? length unauthorizedPaths)%nat then
    throwAuthError info
      (Some ("Unauthorized to populate parameter paths ("
               +:+ join ", " unauthorizedPaths +:+ ")"))
  else ret tt.

(* --------------------------------------------------------------------- *)
(** *** Response authorization *)
(* --------------------------------------------------------------------- *)

(** [createPropertyNode]: the names of all read-scoped decorators of the
    property, in order. *)
Definition createPropertyNode (prop : MemberReflection) : string * NodeAuthorizer :=
  let decs := omap (createDecoratorFilter (hasAccess AccessRead)) (decorators prop) in
  let names := concat (map policies decs) in
  (name prop,
   if (length names =? 0)%nat then AuthorizerBool true else AuthorizerPolicies names).

(** [compileType].  The context argument of the source only serves to
    reach the shared policy array and is left out.  [fuel] bounds the
    number of nested class expansions; one unit is spent per class
    entered, none on the way through array types. *)
Fixpoint compileType (fuel : nat) (parentTypes : list Class) (t : TypeRef)
  : option FilterNode :=
  match fuel with
  | O => None
  | S fuel' =>
      (fix go (t : TypeRef) : option FilterNode :=
         match t with
         | TArray elem =>
             match go elem with
             | Some child => Some (ArrayNode child)
             | None => None
             end
         | TClass c =>
             if existsb (fun x => bool_decide (x = c)) parentTypes
             then Some (ClassNode [])
             else
               match
                 mapM (fun prop =>
                         let '(pname, authorizer) := createPropertyNode prop in
                         match compileType fuel' (parentTypes ++ [c]) (type prop) with
                         | Some node =>
                             Some (Build_PropertyNode pname prop c authorizer node)
                         | None => None
                         end) (reflect c)
               with
               | Some properties => Some (ClassNode properties)
               | None => None
               end
         | TValue => Some ValueNode
         end) t
  end.

(** Fuel that always suffices: one unit per class known to the
    reflection layer, and one more. *)
Definition compileFuel : nat := S (size (dom reflectTable)).

Definition getAuthorize (authorizers : NodeAuthorizer) (ctx : AuthorizationContext)
  : M bool :=
  match authorizers with
  | AuthorizerBool b => ret b
  | AuthorizerPolicies keys => PolicyAuthorizer_authorize keys ctx
  end.

(** The context handed to a property's authorizer:
    [{ ...ctx, value, parentValue: raw, metadata: { ...ctx.metadata, current: prop.meta } }] *)
Definition propertyContext (ctx : AuthorizationContext) (v raw : JsValue)
    (meta : MemberReflection) (owner : Class) : AuthorizationContext :=
  {| user := user ctx;
     ctx_access := ctx_access ctx;
     value := v;
     parentValue := raw;
     metadata :=
       {| current := Some {| cur_kind := kind meta;
                             cur_name := name meta;
                             cur_parent := Some owner |};
          meta_controller := meta_controller (metadata ctx);
          meta_action := meta_action (metadata ctx);
          actionParams := actionParams (metadata ctx) |};
     http_method := http_method ctx;
     route := route ctx |}.

(** [config.responseTransformer ?? ((a, b) => b)] *)
Definition transform (meta : MemberReflection) (owner : Class) (candidate : JsValue)
  : JsValue :=
  match responseTransformer config with
  | Some f => f meta owner candidate
  | None => candidate
  end.

Definition isUndefined (v : JsValue) : bool :=
  match v with
  | JUndefined => true
  | _ => false
  end.

(** [filterType] *)
Fixpoint filterType (raw : JsValue) (node : FilterNode) (ctx : AuthorizationContext)
    {struct node} : M JsValue :=
  match node with
  | ArrayNode child =>
      match raw with
      | JArr items =>
          let* result := filterItems (fun item => filterType item child ctx) items in
          ret (if (length result =? 0)%nat then JUndefined else JArr result)
      | _ =>
          let* actual := lift (constructorName raw) in
          throw (Error ("Action " +:+ ctl_name (controller (route ctx)) +:+ "."
                          +:+ method_name (action (route ctx))
                          +:+ " expecting return value of type Array but got "
                          +:+ actual))
      end
  | ClassNode properties =>
      let* result :=
        (fix each (props : list PropertyNode) (result : list (string * JsValue))
           : M (list (string * JsValue)) :=
           match props with
           | [] => ret result
           | Build_PropertyNode pname meta owner authorizer ptype :: rest =>
               let* v := lift (getProp raw pname) in
               if isNullish v then each rest result
               else
                 let* authorized :=
                   getAuthorize authorizer (propertyContext ctx v raw meta owner) in
                 if authorized : bool then
                   let* candidate := filterType v ptype ctx in
                   let val := transform meta owner candidate in
                   each rest
                     (if isUndefined val then result else assignField result pname val)
                 else each rest result
           end) properties [] in
      ret (if (length result =? 0)%nat then JUndefined else JObj "Object" result)
  | ValueNode => ret raw
  end.

(** [createAuthContext]: [metadata.current] starts out as an empty
    object, here [None]. *)
Definition createAuthContext (ctx : ActionContext) (acc : AccessModifier)
  : AuthorizationContext :=
  {| user := ac_user ctx;
     ctx_access := acc;
     value := JUndefined;
     parentValue := JUndefined;
     metadata :=
       {| current := None;
          meta_controller := controller (ac_route ctx);
          meta_action := action (ac_route ctx);
          actionParams :=
            zip (map name (parameters (action (ac_route ctx)))) (ac_parameters ctx) |};
     http_method := ac_method ctx;
     route := ac_route ctx |}.

(** [responseAuthorize].  [returnType = None] stands for a missing return
    type and for [Promise]. *)
Definition responseAuthorize (raw : ActionResult) (ctx : ActionContext)
  : M ActionResult :=
  let responseType := findResponseType (method_decorators (action (ac_route ctx))) in
  let type :=
    match responseType with
    | Some t => Some t
    | None => returnType (action (ac_route ctx))
    end in
  match type with
  | Some t =>
      if (status raw =? 200)%Z && truthy (body raw) then
        let info := createAuthContext ctx AccessRead in
        match compileType compileFuel [] t with
        | Some node =>
            let* filtered :=
              match body raw with
              | JArr [] => ret (JArr [])
              | _ => filterType (body raw) node info
              end in
            ret {| status := status raw; body := filtered |}
        | None => ret raw
        end
      else ret raw
  | None => ret raw
  end.

(* --------------------------------------------------------------------- *)
(** *** Middleware *)
(* --------------------------------------------------------------------- *)

Definition withAccess (info : AuthorizationContext) (acc : AccessModifier)
  : AuthorizationContext :=
  {| user := user info;
     ctx_access := acc;
     value := value info;
     parentValue := parentValue info;
     metadata := metadata info;
     http_method := http_method info;
     route := route info |}.

Definition checkAuthorize (ctx : ActionContext) : M unit :=
  if enableAuthorization config then
    let info := createAuthContext ctx AccessRoute in
    let decorator := getRouteAuthorizeDecorators (ac_route ctx) (globalAuthorizations config) in
    let* _ := checkUserAccessToRoute decorator info in
    checkUserAccessToParameters (parameters (action (ac_route ctx)))
      (ac_parameters ctx) (withAccess info AccessWrite)
  else ret tt.

(* --------------------------------------------------------------------- *)
(** *** Auxiliary definitions *)
(* --------------------------------------------------------------------- *)

(** The location text of the specification: [class <ClassName>] at a
    class, [<kind> <ParentName>.<memberName>] elsewhere. *)
Definition locationText (cur : CurrentMeta) : string :=
  if String.eqb (cur_kind cur) "Class" then "class " +:+ cur_name cur
  else toLowerCase (cur_kind cur) +:+ " "
         +:+ match cur_parent cur with
             | Some owner => class_name owner
             | None => ""
             end
         +:+ "." +:+ cur_name cur.

(** [w'] extends the log of [w] by calls that all satisfy [P]. *)
Definition appendsCalls (P : Call -> Prop) (w w' : World) : Prop :=
  exists new, calls w' = calls w ++ new /\ Forall P new.

Definition isStatusError (e : Exn) : bool :=
  match e with
  | HttpStatusError _ _ => true
  | _ => false
  end.

(** [m] only appends calls satisfying [P], and whatever it throws is not
    an [HttpStatusError]. *)
Definition plain {A} (P : Call -> Prop) (m : M A) : Prop :=
  forall w, appendsCalls P w (m w).2
            /\ (forall e, (m w).1 = Throw e -> isStatusError e = false).

(** [r] is not a rejection with an [HttpStatusError]. *)
Definition plainResult {A} (r : Result A) : Prop :=
  forall e, r = Throw e -> isStatusError e = false.

Definition plainWalk (walk : Walk) : Prop :=
  match walk with
  | Settled r => plainResult r
  | Suspended _ _ _ _ => True
  end.

(** [m] only appends to the log, throws no [HttpStatusError], and what it
    returns satisfies [Q]. *)
Definition safe {A} (Q : A -> Prop) (m : M A) : Prop :=
  forall w, appendsCalls (fun _ => True) w (m w).2
            /\ match (m w).1 with
               | Ok a => Q a
               | Throw e => isStatusError e = false
               end.

(** [m] leaves the shared array as it found it. *)
Definition keepsArray {A} (m : M A) : Prop :=
  forall w, authPolicies (m w).2 = authPolicies w.

(** The array as [reverse()] leaves it. *)
Definition reversed (w : World) : World :=
  {| authPolicies := rev (authPolicies w); calls := calls w |}.

(** Whether [authPolicy.equals(policy, ctx)] returns [true]. *)
Definition answersTo (p : AuthPolicy) (ctx : AuthorizationContext) (k : string) : bool :=
  match equals p k ctx with
  | Ok true => true
  | _ => false
  end.

(** The evaluations a walk over [policies] makes as long as none grants
    and nothing is thrown: policy after policy in the order of the list,
    and for each policy one evaluation for every requested name it
    answers to. *)
Definition evaluations (policies : list AuthPolicy) (keys : list string)
    (ctx : AuthorizationContext) : list Call :=
  concat
    (map (fun p =>
            map (fun _ => {| call_policy := friendlyName p; call_ctx := ctx |})
              (List.filter (answersTo p ctx) keys))
       policies).

(** The names [executeAuthorizer] hands to the authorizer. *)
Definition requestedNames (decorator : AuthorizeDecorator + list AuthorizeDecorator)
  : list string :=
  match decorator with
  | inl d => policies d
  | inr ds => concat (map policies ds)
  end.

(** [value[k]] for a value that is neither [undefined] nor [null]. *)
Definition propertyOf (v : JsValue) (k : string) : JsValue :=
  match v with
  | JObj _ fields => lookupField fields k
  | _ => JUndefined
  end.

(** What [checkParameter] does once the value passed its own check. *)
Definition checkChildren (v : JsValue) (meta : MemberReflection)
    (ctx : ParamCheckContext) : M (list string) :=
  match type meta with
  | TArray elem =>
      match v with
      | JArr items =>
          collectIndexed
            (fun val i =>
               checkParameter val (withType meta elem)
                 (withPath ctx (path ctx ++ [nat_toString i])))
            items 0%nat
      | _ => ret []
      end
  | TClass c =>
      checkParameters (reflect c) (map (fun x => propertyOf v (name x)) (reflect c))
        (withParent ctx c v)
  | TValue => ret []
  end.

(** A call as the two walks make them: on a value that is neither
    [undefined] nor [null], with [metadata.current] set to a member that
    has a parent. *)
Definition walkCall (c : Call) : Prop :=
  isNullish (value (call_ctx c)) = false
  /\ exists cur, current (metadata (call_ctx c)) = Some cur
                 /\ is_Some (cur_parent cur).

Definition nodeType (p : PropertyNode) : FilterNode :=
  match p with
  | Build_PropertyNode _ _ _ _ t => t
  end.

Definition nodeName (p : PropertyNode) : string :=
  match p with
  | Build_PropertyNode n _ _ _ _ => n
  end.

(** The loop of [filterType] over the properties of a class node, from
    the object built so far. *)
Definition filterProperties (raw : JsValue) (ctx : AuthorizationContext)
  : list PropertyNode -> list (string * JsValue) -> M (list (string * JsValue)) :=
  fix each (props : list PropertyNode) (result : list (string * JsValue))
    : M (list (string * JsValue)) :=
    match props with
    | [] => ret result
    | Build_PropertyNode pname meta owner authorizer ptype :: rest =>
        let* v := lift (getProp raw pname) in
        if isNullish v then each rest result
        else
          let* authorized :=
            getAuthorize authorizer (propertyContext ctx v raw meta owner) in
          if authorized : bool then
            let* candidate := filterType v ptype ctx in
            let val := transform meta owner candidate in
            each rest
              (if isUndefined val then result else assignField result pname val)
          else each rest result
    end.

(** The context the parameter walk starts from. *)
Definition rootContext (info : AuthorizationContext) : ParamCheckContext :=
  {| info := info; path := [];
     parent := ctl_type (controller (route info));
     pc_parentValue := JUndefined |}.

(** The classes the reflection layer knows that are not on the chain. *)
Definition offChain (parentTypes : list Class) : gset Class :=
  dom reflectTable ∖ list_to_set parentTypes.

(** The body of [compileType] for a class that is not on the chain. *)
Definition compileProperty (fuel : nat) (chain : list Class) (c : Class)
    (prop : MemberReflection) : option PropertyNode :=
  let '(pname, authorizer) := createPropertyNode prop in
  match compileType fuel chain (type prop) with
  | Some node => Some (Build_PropertyNode pname prop c authorizer node)
  | None => None
  end.

(** The type [responseAuthorize] walks by: the declared response type if
    there is one, the return type of the action otherwise. *)
Definition resolvedType (ctx : ActionContext) : option TypeRef :=
  match findResponseType (method_decorators (action (ac_route ctx))) with
  | Some t => Some t
  | None => returnType (action (ac_route ctx))
  end.

(* --------------------------------------------------------------------- *)
(** *** The authorize decorators, the middleware and the route summary *)
(* --------------------------------------------------------------------- *)

(** An argument of [authorize.route(...)]: a policy name or, in last
    position, the selector option. *)
Inductive PolicyArgument :=
| ArgName (policy : string)
| ArgOption (applyTo : list string).

Definition isArgName (a : PolicyArgument) : bool :=
  match a with
  | ArgName _ => true
  | ArgOption _ => false
  end.

Definition argName (a : PolicyArgument) : option string :=
  match a with
  | ArgName s => Some s
  | ArgOption _ => None
  end.

(** [args.length === 1 ? "Class" : args.length === 2 ? "Method" : "Parameter"] *)
Definition locationOf (nargs : nat) : DecoratorLocation :=
  match nargs with
  | 1 => LocClass
  | 2 => LocMethod
  | _ => LocParameter
  end.

(** [AuthDecoratorImpl.custom]: the decorator attached to a target the
    decorator function is called on with [nargs] arguments.  An omitted
    [tag] is ["Custom"], an omitted [evaluation] is ["Dynamic"]. *)
Definition custom (names : list string) (acc : AccessModifier)
    (optTag : option string) (optEvaluation : option Evaluation)
    (nargs : nat) (target : Class) : AuthorizeDecorator :=
  {| policies := names;
     tag := default "Custom" optTag;
     location := locationOf nargs;
     access := acc;
     evaluation := default Dynamic optEvaluation;
     appliedClass := Some target |}.

(** [AuthDecoratorImpl.byPolicies]: when the last argument is not a
    string it is the option and is sliced off.  The overloads admit an
    option in last position only. *)
Definition byPolicies (args : list PolicyArgument) (acc : AccessModifier)
    (nargs : nat) (target : Class) : AuthorizeDecorator :=
  let allPolicies :=
    match last args with
    | Some (ArgName _) => args
    | _ => take (length args - 1) args
    end in
  let names := omap argName allPolicies in
  custom names acc (Some (join "|" names)) (Some Dynamic) nargs target.

(** [authorize.read(...policies)] and [authorize.write(...policies)] *)
Definition authorizeRead (names : list string) (nargs : nat) (target : Class)
  : AuthorizeDecorator :=
  byPolicies (map ArgName names) AccessRead nargs target.

Definition authorizeWrite (names : list string) (nargs : nat) (target : Class)
  : AuthorizeDecorator :=
  byPolicies (map ArgName names) AccessWrite nargs target.

(** [authorize.readWrite(...policies)]: the two decorators merged. *)
Definition authorizeReadWrite (names : list string) (nargs : nat) (target : Class)
  : list Decorator :=
  [DAuthorize (authorizeRead names nargs target);
   DAuthorize (authorizeWrite names nargs target)].

(** The authorize decorators of [authorize.readonly()] and
    [authorize.writeonly()]; the [api] decorators merged with them belong
    to the OpenAPI layer. *)
Definition authorizeReadonly (nargs : nat) (target : Class) : AuthorizeDecorator :=
  authorizeWrite [AuthorizeReadonly] nargs target.

Definition authorizeWriteonly (nargs : nat) (target : Class) : AuthorizeDecorator :=
  authorizeRead [AuthorizeWriteonly] nargs target.


(** [AuthPolicyBuilder.define] and [EntityPolicyBuilder.define] *)
Definition definePolicy (id : string) (authorizer : AuthorizationContext -> Outcome)
  : AuthPolicy :=
  CustomAuthPolicy id authorizer.

Definition defineEntityPolicy (entity : Class) (id : string)
    (authorizer : AuthorizationContext -> JsValue -> Outcome) : AuthPolicy :=
  EntityAuthPolicy id entity authorizer.

(** [AuthorizerMiddleware.execute]; [proceed] is [invocation.proceed()],
    the rest of the pipeline down to the action. *)
Definition execute (proceed : M ActionResult) (ctx : ActionContext) : M ActionResult :=
  let* _ := checkAuthorize ctx in
  let* result := proceed in
  responseAuthorize result ctx.

(** [getSummary] of the OpenAPI path transformation: [None] stands for
    the object without a [summary]. *)
Definition getSummary (rt : RouteInfo) (globalDecorator : option GlobalDecorator)
  : option string :=
  let names := concat (map policies (getRouteAuthorizeDecorators rt globalDecorator)) in
  if (length names =? 0)%nat then None else Some (join ", " names).

(** The array is as it was or reversed. *)
Definition sameOrReversed (w w' : World) : Prop :=
  authPolicies w' = authPolicies w \/ authPolicies w' = rev (authPolicies w).

(** [m] takes every state to one related to it by [R]. *)
Definition framed {A} (R : World -> World -> Prop) (m : M A) : Prop :=
  forall w, R w (m w).2.

(** Whatever [m] returns satisfies [Q]. *)
Definition yields {A} (Q : A -> Prop) (m : M A) : Prop :=
  forall w a w', m w = (Ok a, w') -> Q a.

(** [s] is a path below [prefix]: the segments of [prefix], then further
    segments, joined by dots. *)
Definition extendsPath (prefix : list string) (s : string) : Prop :=
  exists suffix, s = join "." (prefix ++ suffix).

Definition nodeAuthorizer (p : PropertyNode) : NodeAuthorizer :=
  match p with
  | Build_PropertyNode _ _ _ a _ => a
  end.

(** Whether a policy goes by the name [k]. *)
Definition named (k : string) (p : AuthPolicy) : bool :=
  String.eqb (policyName p) k.

(* ===================================================================== *)
(** ** A sample application *)
(* ===================================================================== *)

(** The fixtures of the JWT authorization tests: three role policies
    registered after the built-in ones, a controller and two domain
    classes. *)

Definition roleOf (ctx : AuthorizationContext) : JsValue :=
  match user ctx with
  | Some (JObj _ fields) => lookupField fields "role"
  | _ => JUndefined
  end.

(** [authPolicy().define(name, x => x.user?.role === name)] *)
Definition createPolicy (role : string) : AuthPolicy :=
  CustomAuthPolicy role
    (fun ctx =>
       Returns match roleOf ctx with
               | JStr r => String.eqb r role
               | _ => false
               end).

Definition registeredPolicies : list AuthPolicy :=
  [PublicAuthPolicy; AuthenticatedAuthPolicy; ReadonlyAuthPolicy; WriteonlyAuthPolicy;
   createPolicy "user"; createPolicy "admin"; createPolicy "superadmin"].

Definition startWorld : World :=
  {| authPolicies := registeredPolicies; calls := [] |}.

Definition userToken : JsValue :=
  JObj "Object" [("email", JStr "ketut@gmail.com"); ("role", JStr "user")].

Definition adminToken : JsValue :=
  JObj "Object" [("email", JStr "ketut@gmail.com"); ("role", JStr "admin")].

Definition AnimalController : Class := {| class_id := 1; class_name := "AnimalController" |}.
Definition Animal : Class := {| class_id := 2; class_name := "Animal" |}.
Definition Owner : Class := {| class_id := 3; class_name := "Owner" |}.

Definition authorizeWith (acc : AccessModifier) (loc : DecoratorLocation)
    (names : list string) : Decorator :=
  DAuthorize {| policies := names; access := acc; tag := join "|" names;
                location := loc; evaluation := Dynamic; appliedClass := None |}.

Definition property (n : string) (t : TypeRef) (decs : list Decorator)
  : MemberReflection :=
  {| kind := "Property"; name := n; type := t; decorators := decs |}.

(** [Animal] has a write-guarded [id] and [deceased], a read-guarded
    [secret], and refers to its [Owner], who refers back to the animals. *)
Definition sampleTable : gmap Class (list MemberReflection) :=
  {[ Animal :=
       [ property "id" TValue [authorizeWith AccessWrite LocParameter ["admin"]];
         property "name" TValue [];
         property "deceased" TValue [authorizeWith AccessWrite LocParameter ["admin"]];
         property "secret" TValue [authorizeWith AccessRead LocParameter ["admin"]];
         property "owner" (TClass Owner) [];
         property "tags" (TArray TValue) [] ];
     Owner :=
       [ property "name" TValue [];
         property "animals" (TArray (TClass Animal)) [] ] ]}.

Definition sampleConfig : Configuration :=
  {| enableAuthorization := true;
     globalAuthorizations := None;
     responseTransformer := None |}.

Definition saveAction (decs : list Decorator) : MethodReflection :=
  {| method_name := "save";
     method_decorators := decs;
     parameters :=
       [ {| kind := "Parameter"; name := "data"; type := TArray (TClass Animal);
            decorators := [] |} ];
     returnType := Some (TClass Animal) |}.

Definition sampleRoute (decs : list Decorator) : RouteInfo :=
  {| controller := {| ctl_name := "AnimalController"; ctl_decorators := [];
                      ctl_type := AnimalController |};
     action := saveAction decs |}.

Definition mimi : JsValue :=
  JObj "Animal" [("id", JNum 20); ("name", JStr "Mimi"); ("deceased", JBool true)].

Definition saveRequest (decs : list Decorator) (who : option JsValue) : ActionContext :=
  {| ac_route := sampleRoute decs;
     ac_user := who;
     ac_parameters := [JArr [mimi]];
     ac_method := "POST" |}.

Definition publicRoute : list Decorator :=
  [authorizeWith AccessRoute LocMethod ["Public"]].

Definition adminRoute : list Decorator :=
  [authorizeWith AccessRoute LocMethod ["admin"]].

(** Two stacked route decorators, and a registry of the role policies
    alone. *)
Definition stackedRoute : list Decorator :=
  [authorizeWith AccessRoute LocMethod ["admin"; "user"];
   authorizeWith AccessRoute LocMethod ["admin"; "user"]].

Definition stackedAdmin : list Decorator :=
  [authorizeWith AccessRoute LocMethod ["admin"; "user"];
   authorizeWith AccessRoute LocMethod ["admin"]].

Definition roleWorld : World :=
  {| authPolicies := [createPolicy "user"; createPolicy "admin"; createPolicy "superadmin"];
     calls := [] |}.

(** The context of the route check of a request. *)
Definition routeContext (decs : list Decorator) (who : option JsValue)
  : AuthorizationContext :=
  createAuthContext (saveRequest decs who) AccessRoute.

(** A primary identifier nobody may write, a relation, and a property
    nobody may read. *)
Definition readonlyId : MemberReflection :=
  property "id" TValue [DEntityId; DAuthorize (authorizeReadonly 2 Animal)].

Definition ownerRelation : MemberReflection :=
  property "owner" (TClass Owner)
    [DRelation; authorizeWith AccessWrite LocMethod ["admin"]].

Definition secretNode : PropertyNode :=
  Build_PropertyNode "secret"
    (property "secret" TValue [DAuthorize (authorizeWriteonly 2 Animal)])
    Animal (AuthorizerPolicies [AuthorizeWriteonly]) ValueNode.

Definition nameNode : PropertyNode :=
  Build_PropertyNode "name" (property "name" TValue []) Animal
    (AuthorizerBool true) ValueNode.

(** The context of the parameter check of a request. *)
Definition writeInfo (who : option JsValue) : AuthorizationContext :=
  withAccess (routeContext publicRoute who) AccessWrite.

(** The parameter check standing at the parameter [data]. *)
Definition writeContext (who : option JsValue) : ParamCheckContext :=
  {| path := ["data"]; info := writeInfo who;
     parent := AnimalController; pc_parentValue := JUndefined |}.

(** The same request sent as a GET. *)
Definition getContext : AuthorizationContext :=
  createAuthContext
    {| ac_route := sampleRoute publicRoute; ac_user := None;
       ac_parameters := [JArr [mimi]]; ac_method := "GET" |}
    AccessWrite.

(** [entityPolicy(entity).define("ShopAdmin", (ctx, id) => id === 1)] *)
Definition shopAdmin (entity : Class) : AuthPolicy :=
  defineEntityPolicy entity "ShopAdmin"
    (fun _ id => Returns match id with JNum 1 => true | _ => false end).

(** An action [get(id)] guarded by [ShopAdmin], with and without the
    entity provider [(Animal, "id")]. *)
Definition entityAction (decs : list Decorator) : ActionContext :=
  {| ac_route :=
       {| controller := {| ctl_name := "AnimalController"; ctl_decorators := [];
                           ctl_type := AnimalController |};
          action :=
            {| method_name := "get";
               method_decorators := decs ++ [authorizeWith AccessRoute LocMethod ["ShopAdmin"]];
               parameters := [ {| kind := "Parameter"; name := "id"; type := TValue;
                                  decorators := [] |} ];
               returnType := Some (TClass Animal) |} |};
     ac_user := Some userToken;
     ac_parameters := [JNum 1];
     ac_method := "GET" |}.

(** The provider spells the parameter [id] of the action in capitals. *)
Definition providerContext : AuthorizationContext :=
  createAuthContext (entityAction [DEntityPolicyProvider Animal "ID"]) AccessRoute.

(** The read check of the property [name] of an [Owner], a class without
    primary identifier. *)
Definition ownerReadContext : AuthorizationContext :=
  propertyContext (withAccess (routeContext publicRoute (Some userToken)) AccessRead)
    (JStr "Ketut") (JObj "Owner" [("name", JStr "Ketut")])
    (property "name" TValue []) Owner.

Definition disabledConfig : Configuration :=
  {| enableAuthorization := false;
     globalAuthorizations := None;
     responseTransformer := None |}.

(** An action that answers 200 with the saved animal, one that answers
    201, and one that fails. *)
Definition savedResponse : ActionResult := {| status := 200; body := mimi |}.

Definition createdResponse : ActionResult := {| status := 201; body := mimi |}.

Definition failingAction : M ActionResult := throw (Error "Error: no connection").

(** [@authorize.route("user", "admin")] *)
Definition userOrAdmin : AuthorizeDecorator :=
  {| policies := ["user"; "admin"]; access := AccessRoute; tag := "user|admin";
     location := LocMethod; evaluation := Dynamic; appliedClass := None |}.

(** A policy whose evaluator throws. *)
Definition brokenPolicy : AuthPolicy :=
  CustomAuthPolicy "admin" (fun _ => Throws (ThrownError "Error: broken")).

(* ===================================================================== *)
(** ** Properties *)
(* ===================================================================== *)

(** *** The monad *)

Lemma bind_ok {A B} (m : M A) (k : A -> M B) w a w' :
  m w = (Ok a, w') -> bind m k w = k a w'.
Proof. intros H. unfold bind. by rewrite H. Qed.

Lemma bind_throw {A B} (m : M A) (k : A -> M B) w e w' :
  m w = (Throw e, w') -> bind m k w = (Throw e, w').
Proof. intros H. unfold bind. by rewrite H. Qed.

Lemma bind_ext {A B} (m : M A) (k k' : A -> M B) w :
  (forall a w', k a w' = k' a w') -> bind m k w = bind m k' w.
Proof. intros H. unfold bind. destruct (m w) as [[a | e] w']; [apply H | done]. Qed.

Lemma bind_ret {A B} (a : A) (k : A -> M B) w : bind (ret a) k w = k a w.
Proof. done. Qed.

Lemma bind_lift_ok {A B} (a : A) (k : A -> M B) w : bind (lift (Ok a)) k w = k a w.
Proof. done. Qed.

Lemma bind_lift_throw {A B} e (k : A -> M B) w :
  bind (lift (Throw e)) k w = (Throw e, w).
Proof. done. Qed.

Lemma bind_logCall {A} c (k : unit -> M A) w :
  bind (logCall c) k w
  = k tt {| authPolicies := authPolicies w; calls := calls w ++ [c] |}.
Proof. done. Qed.

(** The sequential [authorize] of a policy is the settlement with one and
    the same context. *)
Lemma policyAuthorize_settled p ctx w :
  policyAuthorize p ctx w = (settled p ctx ctx, w).
Proof.
  unfold settled, wrapped. destruct p; simpl; try done.
  - destruct (authorizer ctx); [done | ..]; unfold bind, lift, throw;
      by destruct (getErrorLocation (metadata ctx)).
  - unfold bind, lift, throw. destruct (getEntity ctx) as [provider |]; [|done].
    destruct (authorizer ctx (prov_id provider)); [done | ..];
      by destruct (getErrorLocation (metadata ctx)).
Qed.

Lemma bind_policyAuthorize {A} p ctx (k : bool -> M A) w :
  bind (policyAuthorize p ctx) k w
  = match settled p ctx ctx with
    | Ok b => k b w
    | Throw e => (Throw e, w)
    end.
Proof. unfold bind. rewrite policyAuthorize_settled. by destruct (settled p ctx ctx). Qed.


(** *** Conflicts between policies *)

Lemma conflict_entity_entity n1 e1 f1 n2 e2 f2 :
  conflict (EntityAuthPolicy n1 e1 f1) (EntityAuthPolicy n2 e2 f2) = true
  <-> n1 = n2 /\ e1 = e2.
Proof.
  simpl. rewrite andb_true_iff, String.eqb_eq, bool_decide_eq_true. tauto.
Qed.

(** C8. Two entity policies conflict exactly when they have the same name
    and the same entity, so the same name on different entities is no
    conflict; an entity policy and a plain custom policy of the same name
    conflict, whichever of the two is asked; two custom policies of the
    same name conflict. *)
Theorem C8_conflict_relation :
  (forall n1 e1 f1 n2 e2 f2,
      conflict (EntityAuthPolicy n1 e1 f1) (EntityAuthPolicy n2 e2 f2) = true
      <-> n1 = n2 /\ e1 = e2)
  /\ (forall n e1 f1 e2 f2,
        e1 <> e2 ->
        conflict (EntityAuthPolicy n e1 f1) (EntityAuthPolicy n e2 f2) = false)
  /\ (forall n e f g,
        conflict (EntityAuthPolicy n e f) (CustomAuthPolicy n g) = true
        /\ conflict (CustomAuthPolicy n g) (EntityAuthPolicy n e f) = true)
  /\ (forall n f g,
        conflict (CustomAuthPolicy n f) (CustomAuthPolicy n g) = true).
Proof.
  split; [apply conflict_entity_entity|].
  split.
  { intros n e1 f1 e2 f2 Hne. apply not_true_is_false.
    rewrite conflict_entity_entity. tauto. }
  split.
  { intros n e f g. simpl. by rewrite String.eqb_refl. }
  intros n f g. simpl. by rewrite String.eqb_refl.
Qed.

(** *** Wrapping of evaluator failures *)

Lemma getErrorLocation_class md cur :
  current md = Some cur -> cur_kind cur = "Class" ->
  getErrorLocation md = Ok ("class " +:+ cur_name cur).
Proof.
  intros Hc Hk. unfold getErrorLocation. rewrite Hc, Hk. done.
Qed.

Lemma getErrorLocation_member md cur owner :
  current md = Some cur -> cur_kind cur <> "Class" -> cur_parent cur = Some owner ->
  getErrorLocation md
  = Ok (toLowerCase (cur_kind cur) +:+ " " +:+ class_name owner +:+ "."
          +:+ cur_name cur).
Proof.
  intros Hc Hk Hp. unfold getErrorLocation. rewrite Hc, Hp.
  destruct (String.eqb_spec (cur_kind cur) "Class"); [contradiction | done].
Qed.

Lemma getErrorLocation_anchored md cur :
  current md = Some cur ->
  (cur_kind cur = "Class" \/ is_Some (cur_parent cur)) ->
  getErrorLocation md = Ok (locationText cur).
Proof.
  intros Hc Hanch. unfold getErrorLocation, locationText. rewrite Hc.
  destruct (String.eqb_spec (cur_kind cur) "Class") as [Hk | Hk]; [done |].
  destruct Hanch as [? | [owner Ho]]; [contradiction |]. by rewrite Ho.
Qed.

Lemma Number_toString_decimal n :
  (Z.abs n < 10 ^ 21)%Z ->
  option_map Z.of_int (NilEmpty.int_of_string (Number_toString n)) = Some n.
Proof.
  intros Hn. unfold Number_toString, Z_toString.
  apply Z.ltb_lt in Hn. rewrite Hn.
  rewrite NilEmpty.isi. simpl. by rewrite DecimalZ.of_to.
Qed.

(** The string form of an array index is the decimal numeral of the
    index. *)
Lemma nat_toString_decimal i :
  option_map Nat.of_uint (NilEmpty.uint_of_string (nat_toString i)) = Some i.
Proof.
  unfold nat_toString. rewrite NilEmpty.usu. simpl.
  by rewrite DecimalNat.Unsigned.of_to.
Qed.

Lemma zeros_shift k d : zeros k (Decimal.D0 d) = Decimal.D0 (zeros k d).
Proof. induction k; simpl; [reflexivity | by rewrite IHk]. Qed.

Lemma of_uint_acc_zeros k acc :
  N.pos (Pos.of_uint_acc (zeros k Decimal.Nil) acc) = (N.pos acc * 10 ^ N.of_nat k)%N.
Proof.
  revert acc. induction k as [| k IH]; intros acc.
  - simpl. lia.
  - change (zeros (S k) Decimal.Nil) with (Decimal.D0 (zeros k Decimal.Nil)).
    simpl Pos.of_uint_acc. rewrite IH.
    rewrite Nat2N.inj_succ, N.pow_succ_r'. lia.
Qed.

(** The numeral of a power of ten is a one and its zeros. *)
Lemma to_uint_pow10 k :
  N.to_uint (10 ^ N.of_nat k) = Decimal.D1 (zeros k Decimal.Nil).
Proof.
  pose proof (DecimalN.Unsigned.to_of (Decimal.D1 (zeros k Decimal.Nil))) as H.
  change (N.of_uint (Decimal.D1 (zeros k Decimal.Nil)))
    with (N.pos (Pos.of_uint_acc (zeros k Decimal.Nil) 1)) in H.
  rewrite of_uint_acc_zeros, N.mul_1_l in H. exact H.
Qed.

Lemma revapp_zeros k d : Decimal.revapp (zeros k Decimal.Nil) d = zeros k d.
Proof.
  revert d. induction k as [| k IH]; intros d; [reflexivity |].
  change (zeros (S k) Decimal.Nil) with (Decimal.D0 (zeros k Decimal.Nil)).
  simpl. rewrite IH. by rewrite zeros_shift.
Qed.

Lemma nzhead_zeros k d : Decimal.nzhead (zeros k d) = Decimal.nzhead d.
Proof. induction k; simpl; [reflexivity | exact IHk]. Qed.

Lemma nb_digits_zeros k d :
  Decimal.nb_digits (zeros k d) = (k + Decimal.nb_digits d)%nat.
Proof. induction k; simpl; [reflexivity | by rewrite IHk]. Qed.

Lemma exponentForm_pow10 k :
  exponentForm (N.to_uint (10 ^ N.of_nat k)) = "1e+" +:+ nat_toString k.
Proof.
  rewrite to_uint_pow10. unfold exponentForm.
  unfold Decimal.rev at 2. simpl Decimal.revapp. rewrite revapp_zeros, nzhead_zeros.
  simpl. rewrite nb_digits_zeros. simpl. by rewrite Nat.add_0_r, Nat.sub_0_r.
Qed.

Lemma Number_toString_pow10 k :
  (21 <= k)%nat ->
  Number_toString (10 ^ Z.of_nat k) = "1e+" +:+ nat_toString k
  /\ Number_toString (- 10 ^ Z.of_nat k) = "-1e+" +:+ nat_toString k.
Proof.
  intros Hk.
  assert (Hle : (10 ^ 21 <= 10 ^ Z.of_nat k)%Z) by (apply Z.pow_le_mono_r; lia).
  assert (Habs : Z.abs_N (10 ^ Z.of_nat k) = (10 ^ N.of_nat k)%N).
  { apply N2Z.inj. rewrite N2Z.inj_abs_N, N2Z.inj_pow, nat_N_Z. simpl. lia. }
  unfold Number_toString. split.
  - replace (Z.abs (10 ^ Z.of_nat k) <? 10 ^ 21)%Z with false
      by (symmetry; apply Z.ltb_ge; lia).
    replace (10 ^ Z.of_nat k <? 0)%Z with false by (symmetry; apply Z.ltb_ge; lia).
    rewrite Habs. apply exponentForm_pow10.
  - replace (Z.abs (- 10 ^ Z.of_nat k) <? 10 ^ 21)%Z with false
      by (symmetry; apply Z.ltb_ge; lia).
    replace (- 10 ^ Z.of_nat k <? 0)%Z with true by (symmetry; apply Z.ltb_lt; lia).
    rewrite Zabs2N.inj_opp, Habs, exponentForm_pow10. reflexivity.
Qed.

(** C9. When the evaluator of a custom policy throws [e], or rejects with
    it, while [metadata.current] is anchored at a class or at a member
    with a parent, [authorize] throws an [Error] whose message reads
    [Error occur inside authorization policy <name> on <location>],
    then a newline between two blanks, then the stack of [e] if it is an
    [Error] and the string form of [e] otherwise; for an entity policy
    whose entity resolves, the same with [for entity <entityName>] after
    the policy name.  The location is [class <ClassName>] at a class and
    the lower-cased kind, the parent's name, a dot and the member's name
    elsewhere.  The string form of a string is the string itself; of
    [undefined], [null] and the booleans their names; of a number below
    [10^21] its decimal numeral, with a minus sign if it is negative; of
    a power of ten from [10^21] on [1e+] and the decimal numeral of the
    exponent, with a minus sign before it for the negative of one; of an
    object [[object Object]]; of an array the string forms of its items
    joined by commas, [undefined] and [null] counting as empty. *)
Theorem C9_policy_error_wrapping
    (ctx : AuthorizationContext) (cur : CurrentMeta) (e : Thrown) (w : World) :
  current (metadata ctx) = Some cur ->
  (cur_kind cur = "Class" \/ is_Some (cur_parent cur)) ->
  match e with
  | ThrownError _ => True
  | ThrownValue v => printableValue v = true
  end ->
  let location :=
    if String.eqb (cur_kind cur) "Class" then "class " +:+ cur_name cur
    else toLowerCase (cur_kind cur) +:+ " "
           +:+ match cur_parent cur with
               | Some owner => class_name owner
               | None => ""
               end
           +:+ "." +:+ cur_name cur in
  let original :=
    match e with
    | ThrownError stack => stack
    | ThrownValue v => js_toString v
    end in
  (forall name authorizer,
      authorizer ctx = Throws e \/ authorizer ctx = Rejects e ->
      policyAuthorize (CustomAuthPolicy name authorizer) ctx w
      = (Throw (Error ("Error occur inside authorization policy " +:+ name
                         +:+ " on " +:+ location
                         +:+ " " +:+ newline +:+ " " +:+ original)), w))
  /\ (forall name entity authorizer provider,
        getEntity ctx = Ok provider ->
        authorizer ctx (prov_id provider) = Throws e
        \/ authorizer ctx (prov_id provider) = Rejects e ->
        policyAuthorize (EntityAuthPolicy name entity authorizer) ctx w
        = (Throw (Error ("Error occur inside authorization policy " +:+ name
                           +:+ " for entity " +:+ class_name entity
                           +:+ " on " +:+ location
                           +:+ " " +:+ newline +:+ " " +:+ original)), w))
  /\ (forall s, js_toString (JStr s) = s)
  /\ js_toString JUndefined = "undefined"
  /\ js_toString JNull = "null"
  /\ js_toString (JBool true) = "true"
  /\ js_toString (JBool false) = "false"
  /\ (forall n,
        (Z.abs n < 10 ^ 21)%Z ->
        option_map Z.of_int (NilEmpty.int_of_string (js_toString (JNum n))) = Some n)
  /\ (forall k,
        (21 <= k < 308)%nat ->
        exists exponent,
          option_map Nat.of_uint (NilEmpty.uint_of_string exponent) = Some k
          /\ js_toString (JNum (10 ^ Z.of_nat k)) = "1e+" +:+ exponent
          /\ js_toString (JNum (- 10 ^ Z.of_nat k)) = "-1e+" +:+ exponent)
  /\ (forall ctor fields, js_toString (JObj ctor fields) = "[object Object]")
  /\ (forall items,
        js_toString (JArr items)
        = join "," (map (fun x => if isNullish x then "" else js_toString x) items)).
Proof.
  intros Hc Hanch _ location original.
  pose proof (getErrorLocation_anchored _ _ Hc Hanch) as Hloc.
  change (locationText cur) with location in Hloc.
  split.
  { intros name authorizer [Hthrow | Hthrow]; unfold policyAuthorize;
      rewrite Hthrow, Hloc, bind_lift_ok; by destruct e. }
  split.
  { intros name entity authorizer provider Hent [Hthrow | Hthrow];
      unfold policyAuthorize;
      rewrite Hent, bind_lift_ok, Hthrow, Hloc, bind_lift_ok; by destruct e. }
  repeat split; try done.
  - intros n Hn. by apply Number_toString_decimal.
  - intros k [Hk _]. exists (nat_toString k).
    split; [apply nat_toString_decimal |]. by apply Number_toString_pow10.
Qed.

(** *** What a computation may do to the log and which errors it raises *)

Lemma appendsCalls_refl P w : appendsCalls P w w.
Proof. exists []. by rewrite app_nil_r. Qed.

Lemma appendsCalls_trans P w1 w2 w3 :
  appendsCalls P w1 w2 -> appendsCalls P w2 w3 -> appendsCalls P w1 w3.
Proof.
  intros [n1 [E1 F1]] [n2 [E2 F2]]. exists (n1 ++ n2). split.
  - by rewrite E2, E1, app_assoc.
  - by apply Forall_app.
Qed.

Lemma appendsCalls_weaken (P Q : Call -> Prop) w w' :
  (forall c, P c -> Q c) -> appendsCalls P w w' -> appendsCalls Q w w'.
Proof.
  intros HPQ [n [E F]]. exists n. split; [done |].
  eapply Forall_impl; eauto.
Qed.

Lemma plain_weaken {A} (P Q : Call -> Prop) (m : M A) :
  (forall c, P c -> Q c) -> plain P m -> plain Q m.
Proof.
  intros HPQ Hm w. destruct (Hm w) as [Ha He]. split; [|done].
  by eapply appendsCalls_weaken.
Qed.

Lemma plain_ret {A} P (a : A) : plain P (ret a).
Proof. intros w. split; [apply appendsCalls_refl | done]. Qed.

Lemma plain_lift {A} P (r : Result A) :
  (forall e, r = Throw e -> isStatusError e = false) -> plain P (lift r).
Proof. intros Hr w. split; [apply appendsCalls_refl | apply Hr]. Qed.

Lemma plain_throw {A} P e : isStatusError e = false -> plain P (@throw A e).
Proof.
  intros He w. split; [apply appendsCalls_refl |].
  simpl. intros e' [= <-]. done.
Qed.

Lemma plain_bind {A B} P (m : M A) (k : A -> M B) :
  plain P m -> (forall a, plain P (k a)) -> plain P (bind m k).
Proof.
  intros Hm Hk w. unfold bind.
  destruct (Hm w) as [Ha He]. destruct (m w) as [[a | e] w'] eqn:Emw; simpl in *.
  - destruct (Hk a w') as [Ha' He']. split; [|done].
    by eapply appendsCalls_trans.
  - split; [done |]. intros e' [= <-]. by apply He.
Qed.

Lemma plain_logCall (P : Call -> Prop) c : P c -> plain P (logCall c).
Proof.
  intros Hc w. split; [|done]. exists [c]. split; [done |]. by apply Forall_singleton.
Qed.

Lemma plain_reversePolicies P : plain P reversePolicies.
Proof.
  intros w. split; [|done]. exists []. simpl. by rewrite app_nil_r.
Qed.

Lemma getErrorLocation_plain md e :
  getErrorLocation md = Throw e -> isStatusError e = false.
Proof.
  unfold getErrorLocation. repeat case_match; by intros [= <-].
Qed.

Lemma getEntity_plain ctx e : getEntity ctx = Throw e -> isStatusError e = false.
Proof.
  unfold getEntity. repeat case_match; by intros [= <-].
Qed.

Lemma equals_plain p id ctx e : equals p id ctx = Throw e -> isStatusError e = false.
Proof.
  unfold equals. destruct p; try done.
  case_match; [|done]. destruct (getEntity ctx) eqn:E; [done |].
  intros [= <-]. by eapply getEntity_plain.
Qed.

Lemma plain_policyAuthorize P p ctx : plain P (policyAuthorize p ctx).
Proof.
  destruct p; simpl; try apply plain_ret.
  - destruct (authorizer ctx); [apply plain_ret | ..];
      (apply plain_bind; [apply plain_lift, getErrorLocation_plain |]);
      intros loc; by apply plain_throw.
  - apply plain_bind; [apply plain_lift, getEntity_plain |].
    intros provider.
    destruct (authorizer ctx (prov_id provider)); [apply plain_ret | ..];
      (apply plain_bind; [apply plain_lift, getErrorLocation_plain |]);
      intros loc; by apply plain_throw.
Qed.

(** Every policy evaluation of one authorizer run is made with the
    context the run was started with. *)
Lemma plain_authorizeKeys p keys ctx :
  plain (fun c => call_ctx c = ctx) (authorizeKeys p keys ctx).
Proof.
  induction keys as [| k keys IH]; simpl; [apply plain_ret |].
  apply plain_bind; [apply plain_lift, equals_plain |].
  intros [|]; [|done].
  apply plain_bind; [by apply plain_logCall |]. intros _.
  apply plain_bind; [apply plain_policyAuthorize |].
  intros [|]; [apply plain_ret | done].
Qed.

Lemma plain_authorizeLoop ps keys ctx :
  plain (fun c => call_ctx c = ctx) (authorizeLoop ps keys ctx).
Proof.
  induction ps as [| p ps IH]; simpl; [apply plain_ret |].
  apply plain_bind; [apply plain_authorizeKeys |].
  intros [|]; [apply plain_ret | done].
Qed.

Lemma plain_PolicyAuthorizer_authorize keys ctx :
  plain (fun c => call_ctx c = ctx) (PolicyAuthorizer_authorize keys ctx).
Proof.
  unfold PolicyAuthorizer_authorize.
  apply plain_bind; [apply plain_reversePolicies |].
  intros ps. apply plain_authorizeLoop.
Qed.

Lemma plain_executeAuthorizer decorator ctx :
  plain (fun c => call_ctx c = ctx) (executeAuthorizer decorator ctx).
Proof. apply plain_PolicyAuthorizer_authorize. Qed.

(** *** The shared policy array *)

Lemma keepsArray_ret {A} (a : A) : keepsArray (ret a).
Proof. done. Qed.

Lemma keepsArray_lift {A} (r : Result A) : keepsArray (lift r).
Proof. done. Qed.

Lemma keepsArray_throw {A} e : keepsArray (@throw A e).
Proof. done. Qed.

Lemma keepsArray_bind {A B} (m : M A) (k : A -> M B) :
  keepsArray m -> (forall a, keepsArray (k a)) -> keepsArray (bind m k).
Proof.
  intros Hm Hk w. unfold bind. specialize (Hm w).
  destruct (m w) as [[a | e] w']; simpl in *; [|done].
  by rewrite Hk.
Qed.

Lemma keepsArray_policyAuthorize p ctx : keepsArray (policyAuthorize p ctx).
Proof.
  destruct p; simpl; try apply keepsArray_ret.
  - destruct (authorizer ctx); [apply keepsArray_ret | ..];
      (apply keepsArray_bind; [apply keepsArray_lift |]); intros;
      apply keepsArray_throw.
  - apply keepsArray_bind; [apply keepsArray_lift |]. intros provider.
    destruct (authorizer ctx (prov_id provider)); [apply keepsArray_ret | ..];
      (apply keepsArray_bind; [apply keepsArray_lift |]); intros;
      apply keepsArray_throw.
Qed.

Lemma keepsArray_authorizeKeys p keys ctx : keepsArray (authorizeKeys p keys ctx).
Proof.
  induction keys as [| k keys IH]; simpl; [apply keepsArray_ret |].
  apply keepsArray_bind; [apply keepsArray_lift |].
  intros [|]; [|done].
  apply keepsArray_bind; [done |]. intros _.
  apply keepsArray_bind; [apply keepsArray_policyAuthorize |].
  intros [|]; [apply keepsArray_ret | done].
Qed.

Lemma keepsArray_authorizeLoop ps keys ctx : keepsArray (authorizeLoop ps keys ctx).
Proof.
  induction ps as [| p ps IH]; simpl; [apply keepsArray_ret |].
  apply keepsArray_bind; [apply keepsArray_authorizeKeys |].
  intros [|]; [apply keepsArray_ret | done].
Qed.

Lemma PolicyAuthorizer_authorize_unfold keys ctx w :
  PolicyAuthorizer_authorize keys ctx w
  = authorizeLoop (rev (authPolicies w)) keys ctx (reversed w).
Proof. done. Qed.

Lemma PolicyAuthorizer_authorize_flips keys ctx w :
  authPolicies (PolicyAuthorizer_authorize keys ctx w).2 = rev (authPolicies w).
Proof.
  rewrite PolicyAuthorizer_authorize_unfold.
  by rewrite keepsArray_authorizeLoop.
Qed.

(** The log of a walk: the evaluations are made in the order of the
    array walked; a walk that grants or throws stops among them, a walk
    that denies has made them all. *)
Lemma authorizeKeys_log p ctx keys :
  forall w,
    exists made,
      calls (authorizeKeys p keys ctx w).2 = calls w ++ made
      /\ made `prefix_of` evaluations [p] keys ctx
      /\ ((authorizeKeys p keys ctx w).1 = Ok false ->
          made = evaluations [p] keys ctx).
Proof.
  unfold evaluations. cbn [map concat]. rewrite app_nil_r.
  induction keys as [| k keys IH]; intros w.
  { exists []. simpl. rewrite app_nil_r. done. }
  assert (Hk : answersTo p ctx k
               = match equals p k ctx with Ok true => true | _ => false end) by done.
  cbn [authorizeKeys List.filter]. rewrite Hk. clear Hk.
  destruct (equals p k ctx) as [[|] | e] eqn:E.
  - rewrite bind_lift_ok, bind_logCall, bind_policyAuthorize. cbn [map].
    set (c := {| call_policy := friendlyName p; call_ctx := ctx |}).
    destruct (settled p ctx ctx) as [[|] | e].
    + exists [c]. simpl. split; [done |]. split; [|done].
      by apply prefix_cons, prefix_nil.
    + destruct (IH {| authPolicies := authPolicies w; calls := calls w ++ [c] |})
        as [made [Hcalls [Hpre Hall]]].
      exists (c :: made). simpl in Hcalls.
      split; [by rewrite Hcalls, <- app_assoc |].
      split; [by apply prefix_cons |]. intros H. by rewrite (Hall H).
    + exists [c]. simpl. split; [done |]. split; [|done].
      by apply prefix_cons, prefix_nil.
  - rewrite bind_lift_ok. apply IH.
  - rewrite bind_lift_throw. exists []. simpl. rewrite app_nil_r.
    split; [done |]. split; [apply prefix_nil | done].
Qed.

Lemma evaluations_cons p ps keys ctx :
  evaluations (p :: ps) keys ctx = evaluations [p] keys ctx ++ evaluations ps keys ctx.
Proof. unfold evaluations. cbn [map concat]. by rewrite app_nil_r. Qed.

Lemma authorizeLoop_log ctx keys ps :
  forall w,
    exists made,
      calls (authorizeLoop ps keys ctx w).2 = calls w ++ made
      /\ made `prefix_of` evaluations ps keys ctx
      /\ ((authorizeLoop ps keys ctx w).1 = Ok false ->
          made = evaluations ps keys ctx).
Proof.
  induction ps as [| p ps IH]; intros w.
  { exists []. simpl. rewrite app_nil_r. done. }
  rewrite evaluations_cons. cbn [authorizeLoop]. unfold bind.
  destruct (authorizeKeys_log p ctx keys w) as [made [Hcalls [Hpre Hall]]].
  destruct (authorizeKeys p keys ctx w) as [[[|] | e] w1]; simpl in *.
  - exists made. split; [done |]. split; [by apply prefix_app_r | done].
  - destruct (IH w1) as [made' [Hcalls' [Hpre' Hall']]].
    exists (made ++ made'). split; [by rewrite Hcalls', Hcalls, app_assoc |].
    rewrite (Hall eq_refl). split; [by apply prefix_app |].
    intros H. by rewrite (Hall' H).
  - exists made. split; [done |]. split; [by apply prefix_app_r | done].
Qed.

(** C10. Every call of [PolicyAuthorizer.authorize] leaves the array it
    was constructed with reversed, whether it returns or throws, and
    [executeAuthorizer] runs it on the configuration's own array.  A check
    therefore walks the array in the reverse of the order it finds, and
    the check after it walks the array in the order the first one found:
    two successive checks evaluate the policies in opposite orders, and
    after two checks the array is back in its first order.  The log shows
    it: the evaluations of the first check are made in the order of the
    reversed array and those of the second in the order of the array as
    it was, a check that grants or throws stopping on the way and a check
    that denies going through all of them. *)
Theorem C10_authorize_reverses_shared_array
    (decorator decorator' : AuthorizeDecorator + list AuthorizeDecorator)
    (info info' : AuthorizationContext) (w : World) :
  let w1 := (executeAuthorizer decorator info w).2 in
  let w2 := (executeAuthorizer decorator' info' w1).2 in
  executeAuthorizer decorator info w
  = PolicyAuthorizer_authorize (requestedNames decorator) info w
  /\ authPolicies w1 = rev (authPolicies w)
  /\ executeAuthorizer decorator info w
     = authorizeLoop (rev (authPolicies w)) (requestedNames decorator) info
         {| authPolicies := rev (authPolicies w); calls := calls w |}
  /\ executeAuthorizer decorator' info' w1
     = authorizeLoop (authPolicies w) (requestedNames decorator') info'
         {| authPolicies := authPolicies w; calls := calls w1 |}
  /\ authPolicies w2 = authPolicies w
  /\ (exists made,
        calls w1 = calls w ++ made
        /\ made `prefix_of`
             evaluations (rev (authPolicies w)) (requestedNames decorator) info
        /\ ((executeAuthorizer decorator info w).1 = Ok false ->
            made = evaluations (rev (authPolicies w)) (requestedNames decorator) info))
  /\ (exists made,
        calls w2 = calls w1 ++ made
        /\ made `prefix_of`
             evaluations (authPolicies w) (requestedNames decorator') info'
        /\ ((executeAuthorizer decorator' info' w1).1 = Ok false ->
            made = evaluations (authPolicies w) (requestedNames decorator') info')).
Proof.
  intros w1 w2.
  assert (H1 : authPolicies w1 = rev (authPolicies w))
    by apply PolicyAuthorizer_authorize_flips.
  assert (H4 : executeAuthorizer decorator' info' w1
               = authorizeLoop (authPolicies w) (requestedNames decorator') info'
                   {| authPolicies := authPolicies w; calls := calls w1 |}).
  { unfold executeAuthorizer. rewrite PolicyAuthorizer_authorize_unfold.
    unfold reversed. by rewrite H1, rev_involutive. }
  split; [done |]. split; [done |]. split; [done |]. split; [exact H4 |].
  split.
  { unfold w2, executeAuthorizer. rewrite PolicyAuthorizer_authorize_flips.
    by rewrite H1, rev_involutive. }
  split.
  - unfold w1. change (executeAuthorizer decorator info w)
      with (authorizeLoop (rev (authPolicies w)) (requestedNames decorator) info
              (reversed w)).
    apply (authorizeLoop_log info (requestedNames decorator) (rev (authPolicies w))
             (reversed w)).
  - unfold w2. rewrite H4.
    apply (authorizeLoop_log info' (requestedNames decorator') (authPolicies w)
             {| authPolicies := authPolicies w; calls := calls w1 |}).
Qed.

(** *** The parameter walk, unfolded *)

Lemma JsValue_nested_ind (P : JsValue -> Prop) :
  P JUndefined -> P JNull -> (forall b, P (JBool b)) -> (forall n, P (JNum n)) ->
  (forall s, P (JStr s)) ->
  (forall items, Forall P items -> P (JArr items)) ->
  (forall ctor fields, Forall (fun kv => P kv.2) fields -> P (JObj ctor fields)) ->
  forall v, P v.
Proof.
  intros HU HN HB HZ HS HA HO. fix IH 1.
  intros [ | | b | n | s | items | ctor fields];
    [done | done | apply HB | apply HZ | apply HS | |].
  - apply HA. induction items as [| x items IHitems]; constructor; [apply IH | done].
  - apply HO. induction fields as [| [k x] fields IHfields]; constructor;
      [apply IH | done].
Qed.

Lemma checkParameter_nullish v meta ctx w :
  isNullish v = true -> checkParameter v meta ctx w = (Ok [], w).
Proof. by destruct v. Qed.

Lemma onField_lookup {A} (f : JsValue -> M A) k fields :
  onField f (f JUndefined) k fields = f (lookupField fields k).
Proof.
  induction fields as [| [k' x] fields IH]; simpl; [done |].
  by destruct (String.eqb k' k).
Qed.

Lemma checkParameters_undefined props ctx w :
  checkParameters props (map (fun _ => JUndefined) props) ctx w = (Ok [], w).
Proof.
  induction props as [| prop props IH]; simpl; [done |].
  unfold bind at 1. simpl. unfold bind. by rewrite IH.
Qed.

Lemma checkParameter_unfold v meta ctx w :
  checkParameter v meta ctx w
  = (if isNullish v then ret []
     else if String.eqb (http_method (info ctx)) "GET" then ret []
     else
       let* denied := writeDenied meta v ctx in
       if denied : bool then ret [join "." (path ctx)]
       else if existsb isRelationDecorator (decorators meta) then ret []
       else checkChildren v meta ctx) w.
Proof.
  destruct v; try reflexivity; simpl.
  - (* booleans *)
    destruct (String.eqb _ _); [done |]. unfold bind.
    destruct (writeDenied _ _ _ w) as [[[|] | e] w']; try done.
    destruct (existsb _ _); [done |]. unfold checkChildren.
    destruct (type meta); try done. simpl. by rewrite checkParameters_undefined.
  - destruct (String.eqb _ _); [done |]. unfold bind.
    destruct (writeDenied _ _ _ w) as [[[|] | e] w']; try done.
    destruct (existsb _ _); [done |]. unfold checkChildren.
    destruct (type meta); try done. simpl. by rewrite checkParameters_undefined.
  - destruct (String.eqb _ _); [done |]. unfold bind.
    destruct (writeDenied _ _ _ w) as [[[|] | e] w']; try done.
    destruct (existsb _ _); [done |]. unfold checkChildren.
    destruct (type meta); try done. simpl. by rewrite checkParameters_undefined.
  - (* arrays *)
    destruct (String.eqb _ _); [done |]. unfold bind.
    destruct (writeDenied _ _ _ w) as [[[|] | e] w']; try done.
    destruct (existsb _ _); [done |]. unfold checkChildren.
    destruct (type meta); try done. simpl. by rewrite checkParameters_undefined.
  - (* objects *)
    destruct (String.eqb _ _); [done |]. unfold bind.
    destruct (writeDenied _ _ _ w) as [[[|] | e] w']; try done.
    destruct (existsb _ _); [done |]. unfold checkChildren.
    destruct (type meta) as [| c | elem]; try done. simpl.
    clear w. revert w'. generalize (reflect c) as props.
    induction props as [| prop props IH]; intros w; simpl; [done |].
    unfold bind.
    rewrite (onField_lookup
               (fun val => checkParameter val prop
                             (withPath (withParent ctx c (JObj ctor fields))
                                (path ctx ++ [name prop])))).
    destruct (checkParameter _ _ _ w) as [[issues | e] w1]; [|done].
    rewrite IH. done.
Qed.

Lemma plain_ext {A} P (m m' : M A) :
  (forall w, m w = m' w) -> plain P m' -> plain P m.
Proof. intros E H w. rewrite E. apply H. Qed.

Lemma plain_writeDenied meta v ctx :
  isNullish v = false -> plain walkCall (writeDenied meta v ctx).
Proof.
  intros Hv. unfold writeDenied. case_match; [|apply plain_ret].
  apply plain_bind; [|intros; apply plain_ret].
  eapply plain_weaken; [|apply plain_executeAuthorizer].
  intros c Hc. unfold walkCall. rewrite Hc. split; [done |].
  simpl. eauto.
Qed.

Lemma plain_collectIndexed P f items i :
  Forall (fun val => forall j, plain P (f val j)) items ->
  plain P (collectIndexed f items i).
Proof.
  intros H. revert i. induction H as [| val items Hval _ IH]; intros i; simpl;
    [apply plain_ret |].
  apply plain_bind; [apply Hval |]. intros issues.
  apply plain_bind; [apply IH |]. intros; apply plain_ret.
Qed.

Lemma plain_checkParameters_from P meta values ctx :
  (forall m c, plain P (checkParameter JUndefined m c)) ->
  Forall (fun v => forall m c, plain P (checkParameter v m c)) values ->
  plain P (checkParameters meta values ctx).
Proof.
  intros HU. revert values. induction meta as [| prop rest IH]; intros values H; simpl;
    [apply plain_ret |].
  assert (Hhd : forall m c, plain P (checkParameter (hd JUndefined values) m c))
    by (destruct H; [exact HU | done]).
  assert (Htl : Forall (fun v => forall m c, plain P (checkParameter v m c)) (tl values))
    by (destruct H; [constructor | done]).
  apply plain_bind; [apply Hhd |].
  intros issues. apply plain_bind; [|intros; apply plain_ret].
  by apply IH.
Qed.

Lemma plain_checkParameter v :
  forall meta ctx, plain walkCall (checkParameter v meta ctx).
Proof.
  induction v as [ | | b | n | s | items IH | ctor fields IH] using JsValue_nested_ind;
    intros meta ctx;
    try (apply plain_ret);
    (eapply plain_ext; [intros w; apply checkParameter_unfold |]); simpl;
    (case_match; [apply plain_ret |]);
    (apply plain_bind; [by apply plain_writeDenied |]);
    (intros [|]; [apply plain_ret |]);
    (case_match; [apply plain_ret |]);
    unfold checkChildren;
    (destruct (type meta) as [| c | elem]; [apply plain_ret | |]);
    try apply plain_ret;
    try (apply plain_checkParameters_from; [intros; apply plain_ret |];
         apply Forall_map, Forall_forall; intros; apply plain_ret).
  - (* the items of an array *)
    apply plain_collectIndexed. eapply Forall_impl; [exact IH |].
    intros val Hval j. apply Hval.
  - (* the properties of an object *)
    apply plain_checkParameters_from; [intros; apply plain_ret |].
    apply Forall_map, Forall_forall. intros prop _ m c0. simpl.
    induction IH as [| [k x] fields Hx _ IHfields]; simpl; [apply plain_ret |].
    destruct (String.eqb k (name prop)); [apply Hx | apply IHfields].
Qed.

Lemma plain_checkParameters meta values ctx :
  plain walkCall (checkParameters meta values ctx).
Proof.
  apply plain_checkParameters_from; [intros; apply plain_ret |].
  apply Forall_forall. intros v _. apply plain_checkParameter.
Qed.

(** *** The response walk, unfolded *)

Lemma FilterNode_nested_ind (P : FilterNode -> Prop) :
  P ValueNode ->
  (forall child, P child -> P (ArrayNode child)) ->
  (forall props, Forall (fun p => P (nodeType p)) props -> P (ClassNode props)) ->
  forall node, P node.
Proof.
  intros HV HA HC. fix IH 1. intros [| child | props].
  - exact HV.
  - apply HA, IH.
  - apply HC. induction props as [| [n m o a t] props IHprops]; constructor;
      [apply IH | done].
Qed.

Lemma filterType_class raw props ctx :
  filterType raw (ClassNode props) ctx
  = let* result := filterProperties raw ctx props [] in
    ret (if (length result =? 0)%nat then JUndefined else JObj "Object" result).
Proof. reflexivity. Qed.

Lemma plain_getAuthorize authorizer ctx :
  plain (fun c => call_ctx c = ctx) (getAuthorize authorizer ctx).
Proof.
  destruct authorizer; simpl; [apply plain_ret | apply plain_PolicyAuthorizer_authorize].
Qed.

Lemma getProp_plain raw k e : getProp raw k = Throw e -> isStatusError e = false.
Proof. destruct raw; simpl; by intros [= <-]. Qed.

Lemma constructorName_plain raw e :
  constructorName raw = Throw e -> isStatusError e = false.
Proof. destruct raw; simpl; by intros [= <-]. Qed.

Lemma plain_filterItems P f items :
  (forall item, plain P (f item)) -> plain P (filterItems f items).
Proof.
  intros Hf. induction items as [| item rest IH]; simpl; [apply plain_ret |].
  apply plain_bind; [apply Hf |]. intros val.
  apply plain_bind; [apply IH |]. intros; apply plain_ret.
Qed.

Lemma plain_filterProperties raw ctx props :
  Forall (fun p => forall r c, plain walkCall (filterType r (nodeType p) c)) props ->
  forall result, plain walkCall (filterProperties raw ctx props result).
Proof.
  induction 1 as [| [n m o a t] props Hp _ IH]; intros result; simpl;
    [apply plain_ret |].
  apply plain_bind; [apply plain_lift, getProp_plain |]. intros v.
  destruct (isNullish v) eqn:Hv; [apply IH |].
  apply plain_bind.
  { eapply plain_weaken; [|apply plain_getAuthorize].
    intros c Hc. unfold walkCall. rewrite Hc. split; [done |].
    simpl. eauto. }
  intros [|]; [|apply IH].
  apply plain_bind; [apply Hp |]. intros candidate. apply IH.
Qed.

Lemma plain_filterType node :
  forall raw ctx, plain walkCall (filterType raw node ctx).
Proof.
  induction node as [| child IH | props IH] using FilterNode_nested_ind;
    intros raw ctx.
  - apply plain_ret.
  - assert (Hbad : plain walkCall
                     (let* actual := lift (constructorName raw) in
                      throw (A := JsValue)
                        (Error ("Action " +:+ ctl_name (controller (route ctx)) +:+ "."
                                  +:+ method_name (action (route ctx))
                                  +:+ " expecting return value of type Array but got "
                                  +:+ actual)))).
    { apply plain_bind; [apply plain_lift, constructorName_plain |].
      intros actual. by apply plain_throw. }
    destruct raw; try exact Hbad. simpl.
    apply plain_bind; [|intros; apply plain_ret].
    apply plain_filterItems. intros item. apply IH.
  - rewrite filterType_class.
    apply plain_bind; [|intros; apply plain_ret].
    by apply plain_filterProperties.
Qed.

Lemma filterProperties_skip raw ctx pre p post v :
  getProp raw (nodeName p) = Ok v -> isNullish v = true ->
  forall result w,
    filterProperties raw ctx (pre ++ p :: post) result w
    = filterProperties raw ctx (pre ++ post) result w.
Proof.
  intros Hget Hv. induction pre as [| [n m o a t] pre IH]; intros result w; simpl.
  - destruct p as [n m o a t]. simpl in Hget. rewrite Hget. rewrite bind_lift_ok.
    by rewrite Hv.
  - apply bind_ext. intros x w0. destruct (isNullish x); [apply IH |].
    apply bind_ext. intros [|] w1; [|apply IH].
    apply bind_ext. intros cand w2. apply IH.
Qed.

(** C4. In the parameter-write walk a value that is [undefined] or [null]
    yields no path and leaves the log and the policy array untouched, and
    every policy evaluation the walk performs is made on a value that is
    neither.  In the response-read walk a property whose raw value is
    [undefined] or [null] contributes nothing: the walk is the walk of the
    node without that property, output and evaluations alike; and every
    policy evaluation of the walk is made on a value that is neither. *)
Theorem C4_absent_values_never_evaluated :
  (forall v meta ctx w,
      isNullish v = true -> checkParameter v meta ctx w = (Ok [], w))
  /\ (forall meta values ctx w,
        exists new,
          calls (checkParameters meta values ctx w).2 = calls w ++ new
          /\ Forall (fun c => isNullish (value (call_ctx c)) = false) new)
  /\ (forall raw ctx pre p post v w,
        getProp raw (nodeName p) = Ok v -> isNullish v = true ->
        filterType raw (ClassNode (pre ++ p :: post)) ctx w
        = filterType raw (ClassNode (pre ++ post)) ctx w)
  /\ (forall raw node ctx w,
        exists new,
          calls (filterType raw node ctx w).2 = calls w ++ new
          /\ Forall (fun c => isNullish (value (call_ctx c)) = false) new).
Proof.
  split; [apply checkParameter_nullish |].
  split.
  { intros meta values ctx w.
    eapply appendsCalls_weaken; [|apply plain_checkParameters].
    by intros c [Hc _]. }
  split.
  - intros raw ctx pre p post v w Hget Hv. rewrite !filterType_class.
    unfold bind. by rewrite (filterProperties_skip _ _ _ _ _ _ Hget Hv).
  - intros raw node ctx w.
    eapply appendsCalls_weaken; [|apply plain_filterType].
    by intros c [Hc _].
Qed.

(** In both walks every evaluation is anchored: its error location is
    defined. *)
Lemma walkCall_location c :
  walkCall c ->
  exists cur, current (metadata (call_ctx c)) = Some cur
              /\ getErrorLocation (metadata (call_ctx c)) = Ok (locationText cur).
Proof.
  intros [_ [cur [Hcur Hparent]]]. exists cur. split; [done |].
  apply getErrorLocation_anchored; [done | by right].
Qed.

(** *** Denials and their status *)

Lemma safe_ret {A} (Q : A -> Prop) a : Q a -> safe Q (ret a).
Proof. intros Ha w. split; [apply appendsCalls_refl | done]. Qed.

Lemma safe_bind {A B} (P : A -> Prop) (Q : B -> Prop) (m : M A) (k : A -> M B) :
  safe P m -> (forall a, P a -> safe Q (k a)) -> safe Q (bind m k).
Proof.
  intros Hm Hk w. unfold bind. destruct (Hm w) as [Ha Hr].
  destruct (m w) as [[a | e] w'] eqn:Emw; simpl in *; [|done].
  destruct (Hk a Hr w') as [Ha' Hr']. split; [|done].
  by eapply appendsCalls_trans.
Qed.

Lemma safe_weaken {A} (P Q : A -> Prop) (m : M A) :
  (forall a, P a -> Q a) -> safe P m -> safe Q m.
Proof.
  intros HPQ Hm w. destruct (Hm w) as [Ha Hr]. split; [done |].
  destruct (m w).1; [by apply HPQ | done].
Qed.

Lemma plain_safe {A} P (m : M A) : plain P m -> safe (fun _ => True) m.
Proof.
  intros Hm w. destruct (Hm w) as [Ha He]. split.
  - eapply appendsCalls_weaken; [|exact Ha]. done.
  - destruct (m w).1 as [a | e]; [done | by apply He].
Qed.

Lemma safe_plain {A} (Q : A -> Prop) (m : M A) : safe Q m -> plain (fun _ => True) m.
Proof.
  intros Hm w. destruct (Hm w) as [Ha Hr]. split; [done |].
  intros e He. by rewrite He in Hr.
Qed.

Lemma safe_attempt {A} (Q : A -> Prop) (m : M A) :
  safe Q m ->
  safe (fun r => match r with Ok a => Q a | Throw e => isStatusError e = false end)
    (attempt m).
Proof.
  intros Hm w. destruct (Hm w) as [Ha Hr]. unfold attempt.
  destruct (m w) as [r w']. done.
Qed.

Lemma wrapped_plain p e ctx : plainResult (wrapped p e ctx).
Proof.
  unfold wrapped. intros err.
  destruct (getErrorLocation (metadata ctx)) as [location | err'] eqn:E.
  - by intros [= <-].
  - intros [= <-]. by eapply getErrorLocation_plain.
Qed.

Lemma settled_plain p called now : plainResult (settled p called now).
Proof.
  unfold settled. intros err.
  destruct p; try discriminate.
  - destruct (authorizer called); [discriminate | apply wrapped_plain ..].
  - destruct (getEntity called) as [provider | err'] eqn:E.
    + destruct (authorizer called (prov_id provider));
        [discriminate | apply wrapped_plain ..].
    + intros [= <-]. by eapply getEntity_plain.
Qed.

Lemma safe_tryNames index p rest ctx :
  safe (fun found => forall walk, found = Some walk -> plainWalk walk)
    (tryNames index p rest ctx).
Proof.
  induction rest as [| k rest IH]; simpl; [by apply safe_ret |].
  destruct (equals p k ctx) as [[|] | e] eqn:E; [| done |].
  - eapply safe_bind;
      [apply (plain_safe (fun _ => True)), plain_logCall; done |].
    intros _ _. apply safe_ret. by intros walk [= <-].
  - apply safe_ret. intros walk [= <-] e' [= <-]. by eapply equals_plain.
Qed.

Lemma safe_tryPolicies ps keys ctx :
  forall index, safe plainWalk (tryPolicies index ps keys ctx).
Proof.
  induction ps as [| p ps IH]; intros index; simpl.
  - apply safe_ret. by intros e.
  - eapply safe_bind; [apply safe_tryNames |].
    intros [walk |] Hfound; [apply safe_ret; by apply Hfound | apply IH].
Qed.

Lemma safe_reversePolicies : safe (fun _ => True) reversePolicies.
Proof. apply (plain_safe (fun _ => True)), plain_reversePolicies. Qed.

Lemma safe_startWalk keys ctx : safe plainWalk (startWalk keys ctx).
Proof.
  unfold startWalk. eapply safe_bind; [apply safe_reversePolicies |].
  intros ps _. apply safe_tryPolicies.
Qed.

Lemma safe_policiesFrom index : safe (fun _ => True) (policiesFrom index).
Proof. intros w. split; [apply appendsCalls_refl | done]. Qed.

Lemma safe_resumeWalk keys ctx walk :
  plainWalk walk -> safe plainWalk (resumeWalk keys ctx walk).
Proof.
  intros Hwalk. destruct walk as [r | index p rest called]; simpl;
    [by apply safe_ret |].
  pose proof (settled_plain p called ctx) as Hs.
  destruct (settled p called ctx) as [[|] | e].
  - apply safe_ret. by intros e.
  - eapply safe_bind; [apply safe_tryNames |].
    intros [walk |] Hfound; [apply safe_ret; by apply Hfound |].
    eapply safe_bind; [apply safe_policiesFrom |].
    intros ps _. apply safe_tryPolicies.
  - apply safe_ret. exact Hs.
Qed.

Lemma safe_completeWalk keys ctx walk :
  plainWalk walk -> safe plainResult (completeWalk keys ctx walk).
Proof.
  intros Hwalk. destruct walk as [r | index p rest called]; simpl;
    [by apply safe_ret |].
  pose proof (settled_plain p called ctx) as Hs.
  destruct (settled p called ctx) as [[|] | e].
  - apply safe_ret. by intros e.
  - eapply safe_weaken; [|apply safe_attempt with (Q := fun _ => True)].
    + intros [b | e] Hr e'; [done | by intros [= <-]].
    + eapply safe_bind; [eapply plain_safe, plain_authorizeKeys |].
      intros [|] _; [by apply safe_ret |].
      eapply safe_bind; [apply safe_policiesFrom |].
      intros ps _. eapply plain_safe, plain_authorizeLoop.
  - apply safe_ret. exact Hs.
Qed.

Lemma safe_startWalks decorators :
  forall info,
    safe (fun started => Forall (fun kw => plainWalk kw.2) started.1)
      (startWalks decorators info).
Proof.
  induction decorators as [| x rest IH]; intros info; simpl.
  - apply safe_ret. constructor.
  - eapply safe_bind; [apply safe_startWalk |]. intros walk Hwalk.
    eapply safe_bind; [apply IH |]. intros started Hstarted.
    apply safe_ret. by constructor.
Qed.

Lemma safe_resumeAt walks ctx :
  Forall (fun kw => plainWalk kw.2) walks ->
  forall turn,
    safe (Forall (fun kw => plainWalk kw.2)) (resumeAt turn walks ctx).
Proof.
  induction 1 as [| [keys walk] walks Hwalk Hwalks IH]; intros turn; simpl.
  - apply safe_ret. constructor.
  - destruct turn as [| turn].
    + eapply safe_bind; [by apply safe_resumeWalk |].
      intros walk' Hwalk'. apply safe_ret. by constructor.
    + eapply safe_bind; [apply IH |].
      intros rest' Hrest'. apply safe_ret. by constructor.
Qed.

Lemma safe_completeWalks walks ctx :
  Forall (fun kw => plainWalk kw.2) walks ->
  safe (Forall plainResult) (completeWalks walks ctx).
Proof.
  induction 1 as [| [keys walk] walks Hwalk Hwalks IH]; simpl.
  - apply safe_ret. constructor.
  - eapply safe_bind; [by apply safe_completeWalk |]. intros r Hr.
    eapply safe_bind; [apply IH |]. intros others Hothers.
    apply safe_ret. by constructor.
Qed.

Lemma firstRejection_plain results e :
  Forall plainResult results -> firstRejection results = Some e ->
  isStatusError e = false.
Proof.
  induction 1 as [| [b | e'] results Hr _ IH]; simpl; [done | done |].
  intros [= <-]. by apply Hr.
Qed.

Lemma earliest_plain rejected walks e :
  (forall e', rejected = Some e' -> isStatusError e' = false) ->
  Forall (fun kw => plainWalk kw.2) walks ->
  earliest rejected walks = Some e -> isStatusError e = false.
Proof.
  intros Hrej Hwalks. unfold earliest. destruct rejected as [e' |].
  - intros [= <-]. by apply Hrej.
  - apply firstRejection_plain. apply Forall_map.
    eapply Forall_impl; [exact Hwalks |].
    intros [keys [r | index p rest called]] Hw; [exact Hw | by intros e'].
Qed.

Lemma safe_awaitAll ctx turns :
  forall rejected walks,
    (forall e, rejected = Some e -> isStatusError e = false) ->
    Forall (fun kw => plainWalk kw.2) walks ->
    safe (fun _ => True) (awaitAll turns rejected walks ctx).
Proof.
  induction turns as [| turn turns IH]; intros rejected walks Hrej Hwalks; simpl.
  - eapply safe_bind; [by apply safe_completeWalks |]. intros results Hresults.
    destruct rejected as [e |].
    + intros w. split; [apply appendsCalls_refl | by apply Hrej].
    + destruct (firstRejection results) as [e |] eqn:E; [|by apply safe_ret].
      intros w. split; [apply appendsCalls_refl |].
      by eapply firstRejection_plain.
  - eapply safe_bind; [by apply safe_resumeAt |]. intros walks' Hwalks'.
    apply IH; [|done]. intros e. by apply earliest_plain.
Qed.

Lemma plain_routeConditions decorators info :
  plain (fun _ => True) (routeConditions decorators info).
Proof.
  eapply safe_plain with (Q := fun _ => True). unfold routeConditions.
  eapply safe_bind; [apply safe_startWalks |]. intros started Hstarted.
  apply safe_awaitAll; [|done]. intros e. by apply earliest_plain.
Qed.

(** *** One walk on its own *)

Lemma bind_assoc {A B C} (m : M A) (k : A -> M B) (h : B -> M C) w :
  bind (bind m k) h w = bind m (fun a => bind (k a) h) w.
Proof. unfold bind. by destruct (m w) as [[a | e] w']. Qed.

Lemma bind_ext_at {A B} (m : M A) (k k' : A -> M B) w :
  (forall a w', m w = (Ok a, w') -> k a w' = k' a w') -> bind m k w = bind m k' w.
Proof. intros H. unfold bind. destruct (m w) as [[a | e] w']; [by apply H | done]. Qed.

Lemma attempt_ext {A} (m m' : M A) w : m w = m' w -> attempt m w = attempt m' w.
Proof. unfold attempt. by intros ->. Qed.

Lemma attempt_unfold {A} (m : M A) w :
  attempt m w = (let '(r, w') := m w in (Ok r, w')).
Proof. done. Qed.

Lemma drop_tail {A} (l : list A) n x rest :
  drop n l = x :: rest -> drop (S n) l = rest.
Proof.
  revert l. induction n as [| n IH]; intros [| y l]; simpl; try done.
  - by intros [= _ ->].
  - apply IH.
Qed.

Lemma keepsArray_tryNames index p rest ctx : keepsArray (tryNames index p rest ctx).
Proof.
  induction rest as [| k rest IH]; simpl; [apply keepsArray_ret |].
  destruct (equals p k ctx) as [[|] | e]; [| done | apply keepsArray_ret].
  apply keepsArray_bind; [done |]. intros _. apply keepsArray_ret.
Qed.

Lemma keepsArray_tryPolicies ps keys ctx :
  forall index, keepsArray (tryPolicies index ps keys ctx).
Proof.
  induction ps as [| p ps IH]; intros index; simpl; [apply keepsArray_ret |].
  apply keepsArray_bind; [apply keepsArray_tryNames |].
  intros [walk |]; [apply keepsArray_ret | apply IH].
Qed.

(** The inner loop run in turns and then to its end is the inner loop of
    the sequential walk, whatever follows it. *)
Lemma tryNames_complete index p keys ctx (KL : M (Result bool)) (KR : M bool) rest :
  forall w,
    (forall w', authPolicies w' = authPolicies w -> KL w' = attempt KR w') ->
    (forall w', authPolicies w' = authPolicies w ->
       KR w' = (let* policies := policiesFrom (S index) in
                authorizeLoop policies keys ctx) w') ->
    (let* found := tryNames index p rest ctx in
     match found with
     | Some walk => completeWalk keys ctx walk
     | None => KL
     end) w
    = attempt (let* authorized := authorizeKeys p rest ctx in
               if authorized : bool then ret true else KR) w.
Proof.
  induction rest as [| k rest IH]; intros w HL HR.
  - simpl. rewrite bind_ret. rewrite (HL w eq_refl). by apply attempt_ext.
  - cbn [tryNames authorizeKeys].
    destruct (equals p k ctx) as [[|] | e] eqn:E.
    + (* the policy is called and the walk suspended *)
      rewrite bind_assoc, bind_logCall, bind_ret. cbn [completeWalk].
      set (w1 := {| authPolicies := authPolicies w; calls := _ |}).
      rewrite (attempt_unfold _ w).
      rewrite bind_assoc, bind_lift_ok. cbn beta iota.
      rewrite bind_assoc, bind_logCall, bind_assoc. fold w1.
      rewrite bind_policyAuthorize.
      destruct (settled p ctx ctx) as [[|] | e]; [done | | done].
      rewrite <- attempt_unfold.
      apply attempt_ext, bind_ext_at. intros [|] w2 Hrun; [done |].
      symmetry. apply HR.
      pose proof (keepsArray_authorizeKeys p rest ctx w1) as Hk.
      by rewrite Hrun in Hk.
    + unfold attempt. rewrite bind_assoc, bind_lift_ok.
      exact (IH w HL HR).
    + rewrite bind_ret. unfold attempt. by rewrite bind_assoc, bind_lift_throw.
Qed.

(** The outer loop from a position on, run in turns and then to its end,
    is the outer loop over the policies found from that position on. *)
Lemma tryPolicies_complete keys ctx ps :
  forall index w,
    drop index (authPolicies w) = ps ->
    (let* walk := tryPolicies index ps keys ctx in completeWalk keys ctx walk) w
    = attempt (authorizeLoop ps keys ctx) w.
Proof.
  induction ps as [| p ps IH]; intros index w Hdrop; [done |].
  cbn [tryPolicies authorizeLoop]. rewrite bind_assoc.
  rewrite (bind_ext_at _ _
             (fun found =>
                match found with
                | Some walk => completeWalk keys ctx walk
                | None =>
                    let* walk := tryPolicies (S index) ps keys ctx in
                    completeWalk keys ctx walk
                end)); [| by intros [walk |] w' _].
  apply tryNames_complete.
  - intros w' Hw'. apply IH. rewrite Hw'. by eapply drop_tail.
  - intros w' Hw'. unfold bind, policiesFrom. rewrite Hw'.
    by rewrite (drop_tail _ _ _ _ Hdrop).
Qed.

(** One turn more changes nothing to where a walk ends. *)
Lemma resumeWalk_complete keys ctx walk w :
  (let* walk' := resumeWalk keys ctx walk in completeWalk keys ctx walk') w
  = completeWalk keys ctx walk w.
Proof.
  destruct walk as [r | index p rest called]; [done |].
  cbn [resumeWalk completeWalk].
  destruct (settled p called ctx) as [[|] | e]; [done | | done].
  rewrite bind_assoc.
  rewrite (bind_ext_at _ _
             (fun found =>
                match found with
                | Some walk => completeWalk keys ctx walk
                | None =>
                    let* walk :=
                      (let* policies := policiesFrom (S index) in
                       tryPolicies (S index) policies keys ctx) in
                    completeWalk keys ctx walk
                end)); [| by intros [walk |] w' _].
  apply tryNames_complete; [| done].
  intros w' _. rewrite bind_assoc. unfold bind at 1, policiesFrom at 1.
  rewrite tryPolicies_complete; [| done].
  apply attempt_ext. by unfold bind, policiesFrom.
Qed.

(** A walk started and run to its end with nothing in between is
    [PolicyAuthorizer_authorize]. *)
Lemma startWalk_complete keys ctx w :
  (let* walk := startWalk keys ctx in completeWalk keys ctx walk) w
  = attempt (PolicyAuthorizer_authorize keys ctx) w.
Proof.
  unfold startWalk, PolicyAuthorizer_authorize. rewrite bind_assoc.
  unfold bind at 1, reversePolicies at 1.
  rewrite tryPolicies_complete; [| done].
  by unfold attempt, bind, reversePolicies.
Qed.

Lemma earliest_again walks : earliest (earliest None walks) walks = earliest None walks.
Proof. unfold earliest. by destruct (firstRejection _). Qed.

(** With one decorator there is one walk, and no turn of the runtime
    comes between its steps: the check is the sequential one. *)
Lemma awaitAll_single keys ctx turns :
  forall walk w,
    awaitAll turns (earliest None [(keys, walk)]) [(keys, walk)] ctx w
    = (let* r := completeWalk keys ctx walk in
       match r with
       | Ok b => ret [b]
       | Throw e => throw e
       end) w.
Proof.
  induction turns as [| turn turns IH]; intros walk w.
  - cbn [awaitAll completeWalks]. rewrite !bind_assoc.
    apply bind_ext_at. intros r w' Hrun. rewrite bind_assoc, !bind_ret.
    destruct walk as [r0 | index p rest called].
    + injection Hrun as <- _. by destruct r0.
    + by destruct r.
  - cbn [awaitAll resumeAt]. destruct turn as [| turn].
    + rewrite bind_assoc.
      rewrite (bind_ext_at _ _
                 (fun walk' =>
                    let* r := completeWalk keys ctx walk' in
                    match r with
                    | Ok b => ret [b]
                    | Throw e => throw e
                    end)).
      * rewrite <- bind_assoc. unfold bind at 1.
        rewrite resumeWalk_complete. done.
      * intros walk' w' Hrun. rewrite bind_ret. rewrite <- IH.
        destruct walk as [[b | e] | index p rest called]; try done.
        by injection Hrun as <- _.
    + cbn [resumeAt]. rewrite bind_assoc, !bind_ret.
      rewrite earliest_again. apply IH.
Qed.

Lemma awaitAll_none ctx turns w :
  awaitAll turns None [] ctx w = (Ok [], w).
Proof. induction turns as [| turn turns IH]; [done |]. exact IH. Qed.

Lemma routeConditions_single d info w :
  routeConditions [d] info w
  = (let* condition := executeAuthorizer (inl d) (fixContext d info) in
     ret [condition]) w.
Proof.
  unfold routeConditions. cbn [startWalks]. rewrite !bind_assoc.
  rewrite (bind_ext _ _
             (fun walk =>
                let* r := completeWalk (policies d) (fixContext d info) walk in
                match r with
                | Ok b => ret [b]
                | Throw e => throw e
                end)).
  - rewrite <- bind_assoc. unfold bind at 1. rewrite startWalk_complete.
    unfold executeAuthorizer, attempt, bind.
    by destruct (PolicyAuthorizer_authorize (policies d) (fixContext d info) w)
      as [[b | e] w'].
  - intros walk w'. rewrite bind_assoc, !bind_ret. simpl. apply awaitAll_single.
Qed.

Lemma throwAuthError_eq {A} (info : AuthorizationContext) msg w :
  @throwAuthError A info msg w
  = (Throw (HttpStatusError
              (match user info with None => 403 | Some _ => 401 end)
              (match msg with
               | Some m => m
               | None => match user info with
                         | None => "Forbidden"
                         | Some _ => "Unauthorized"
                         end
               end)), w).
Proof. unfold throwAuthError. by destruct (user info), msg. Qed.

Lemma checkUserAccessToRoute_denied decorators info w conditions w' :
  routeConditions decorators info w = (Ok conditions, w') ->
  existsb (fun x => x) conditions = false ->
  checkUserAccessToRoute decorators info w
  = (Throw (HttpStatusError
              (match user info with None => 403 | Some _ => 401 end)
              (match user info with None => "Forbidden" | Some _ => "Unauthorized" end)),
     w').
Proof.
  intros Hc Hnone. unfold checkUserAccessToRoute.
  rewrite (bind_ok _ _ _ _ _ Hc), Hnone. by rewrite throwAuthError_eq.
Qed.

Lemma checkUserAccessToRoute_status decorators info w st msg w' :
  checkUserAccessToRoute decorators info w = (Throw (HttpStatusError st msg), w') ->
  st = match user info with None => 403%Z | Some _ => 401%Z end.
Proof.
  unfold checkUserAccessToRoute, bind.
  destruct (plain_routeConditions decorators info w) as [_ Hplain].
  destruct (routeConditions decorators info w) as [[conditions | e] w1]; simpl in *.
  - destruct (existsb _ _); [done |]. rewrite throwAuthError_eq. by intros [= <- _ _].
  - intros [= -> _]. by specialize (Hplain _ eq_refl).
Qed.

Lemma checkUserAccessToParameters_denied meta values info w paths w' :
  checkParameters meta values (rootContext info) w = (Ok paths, w') ->
  paths <> [] ->
  checkUserAccessToParameters meta values info w
  = (Throw (HttpStatusError
              (match user info with None => 403 | Some _ => 401 end)
              ("Unauthorized to populate parameter paths ("
                 +:+ join ", " paths +:+ ")")), w').
Proof.
  intros Hc Hne. unfold checkUserAccessToParameters.
  change {| path := []; info := info;
            parent := ctl_type (controller (route info));
            pc_parentValue := JUndefined |} with (rootContext info).
  rewrite (bind_ok _ _ _ _ _ Hc).
  destruct paths; [done |]. simpl. by rewrite throwAuthError_eq.
Qed.

Lemma checkUserAccessToParameters_status meta values info w st msg w' :
  checkUserAccessToParameters meta values info w
  = (Throw (HttpStatusError st msg), w') ->
  st = match user info with None => 403%Z | Some _ => 401%Z end.
Proof.
  unfold checkUserAccessToParameters, bind.
  destruct (plain_checkParameters meta values (rootContext info) w) as [_ Hplain].
  change {| path := []; info := info;
            parent := ctl_type (controller (route info));
            pc_parentValue := JUndefined |} with (rootContext info).
  destruct (checkParameters meta values (rootContext info) w)
    as [[paths | e] w1]; simpl in *.
  - destruct (0 <? length paths)%nat; [|done].
    rewrite throwAuthError_eq. by intros [= <- _ _].
  - intros [= -> _]. by specialize (Hplain _ eq_refl).
Qed.

(** C1. A route check in which no decorator grants access throws an
    [HttpStatusError] with status 403 when the context has no user and 401
    when it has one, and so does a parameter check that recorded at least
    one path; no [HttpStatusError] of any other status leaves either
    check.  A denied response property is left out of the output and
    nothing is thrown for it: the response walk never throws an
    [HttpStatusError]. *)
Theorem C1_denial_status (info : AuthorizationContext) :
  let expected := match user info with None => 403%Z | Some _ => 401%Z end in
  (forall decorators w conditions w',
      routeConditions decorators info w = (Ok conditions, w') ->
      existsb (fun x => x) conditions = false ->
      exists msg,
        checkUserAccessToRoute decorators info w
        = (Throw (HttpStatusError expected msg), w'))
  /\ (forall decorators w st msg w',
        checkUserAccessToRoute decorators info w
        = (Throw (HttpStatusError st msg), w') ->
        st = expected)
  /\ (forall meta values w paths w',
        checkParameters meta values (rootContext info) w = (Ok paths, w') ->
        paths <> [] ->
        exists msg,
          checkUserAccessToParameters meta values info w
          = (Throw (HttpStatusError expected msg), w'))
  /\ (forall meta values w st msg w',
        checkUserAccessToParameters meta values info w
        = (Throw (HttpStatusError st msg), w') ->
        st = expected)
  /\ (forall raw node w st msg,
        (filterType raw node info w).1 <> Throw (HttpStatusError st msg)).
Proof.
  intros expected. split.
  { intros decorators w conditions w' Hc Hnone. eexists.
    exact (checkUserAccessToRoute_denied _ _ _ _ _ Hc Hnone). }
  split; [intros; by eapply checkUserAccessToRoute_status |].
  split.
  { intros meta values w paths w' Hc Hne. eexists.
    exact (checkUserAccessToParameters_denied _ _ _ _ _ _ Hc Hne). }
  split; [intros; by eapply checkUserAccessToParameters_status |].
  intros raw node w st msg Hthrow.
  destruct (plain_filterType node raw info w) as [_ Hplain].
  by specialize (Hplain _ Hthrow).
Qed.

(** *** Recorded paths *)

Lemma checkParameter_denied v meta ctx w w' :
  isNullish v = false -> http_method (info ctx) <> "GET" ->
  writeDenied meta v ctx w = (Ok true, w') ->
  checkParameter v meta ctx w = (Ok [join "." (path ctx)], w').
Proof.
  intros Hv Hget Hden. rewrite checkParameter_unfold, Hv.
  destruct (String.eqb_spec (http_method (info ctx)) "GET"); [contradiction |].
  by rewrite (bind_ok _ _ _ _ _ Hden).
Qed.

Lemma checkParameter_allowed v meta ctx w w' :
  isNullish v = false -> http_method (info ctx) <> "GET" ->
  writeDenied meta v ctx w = (Ok false, w') ->
  existsb isRelationDecorator (decorators meta) = false ->
  checkParameter v meta ctx w = checkChildren v meta ctx w'.
Proof.
  intros Hv Hget Hden Hrel. rewrite checkParameter_unfold, Hv.
  destruct (String.eqb_spec (http_method (info ctx)) "GET"); [contradiction |].
  by rewrite (bind_ok _ _ _ _ _ Hden), Hrel.
Qed.

(** C5. A value its write-scoped authorizer denies yields exactly the
    path of the walk at that value, joined by dots, and nothing below it
    is visited: the state is the one the authorizer left.  A value that is
    allowed (and is no relation) is descended into: the item of an array
    with the path extended by its index, as a decimal numeral, and an
    object with itself as parent value, each of its declared properties
    with the path extended by the name of the property; the walk of the
    parameters starts from the empty path and gives each parameter the
    path made of its name.  The paths of siblings are concatenated in
    order, those of an earlier sibling never hiding those of a later one.
    When the walk returns a non-empty list, one error is thrown whose
    message lists the paths in that order, joined by a comma and a
    blank. *)
Theorem C5_unauthorized_paths :
  (forall v meta ctx w w',
      isNullish v = false -> http_method (info ctx) <> "GET" ->
      writeDenied meta v ctx w = (Ok true, w') ->
      checkParameter v meta ctx w = (Ok [join "." (path ctx)], w'))
  /\ (forall items meta elem ctx w w',
        http_method (info ctx) <> "GET" ->
        writeDenied meta (JArr items) ctx w = (Ok false, w') ->
        existsb isRelationDecorator (decorators meta) = false ->
        type meta = TArray elem ->
        checkParameter (JArr items) meta ctx w
        = collectIndexed
            (fun val i =>
               checkParameter val
                 {| kind := kind meta; name := name meta; type := elem;
                    decorators := decorators meta |}
                 {| path := path ctx ++ [nat_toString i];
                    info := info ctx;
                    parent := parent ctx;
                    pc_parentValue := pc_parentValue ctx |})
            items 0%nat w')
  /\ (forall i,
        option_map Nat.of_uint (NilEmpty.uint_of_string (nat_toString i)) = Some i)
  /\ (forall ctor fields meta c ctx w w',
        http_method (info ctx) <> "GET" ->
        writeDenied meta (JObj ctor fields) ctx w = (Ok false, w') ->
        existsb isRelationDecorator (decorators meta) = false ->
        type meta = TClass c ->
        checkParameter (JObj ctor fields) meta ctx w
        = checkParameters (reflect c)
            (map (fun x => lookupField fields (name x)) (reflect c))
            {| path := path ctx;
               info := info ctx;
               parent := c;
               pc_parentValue := JObj ctor fields |} w')
  /\ (forall prop rest values ctx w issues w1 others w2,
        checkParameter (hd JUndefined values) prop
          {| path := path ctx ++ [name prop];
             info := info ctx;
             parent := parent ctx;
             pc_parentValue := pc_parentValue ctx |} w = (Ok issues, w1) ->
        checkParameters rest (tl values) ctx w1 = (Ok others, w2) ->
        checkParameters (prop :: rest) values ctx w = (Ok (issues ++ others), w2))
  /\ (forall f val rest i w issues w1 others w2,
        f val i w = (Ok issues, w1) ->
        collectIndexed f rest (S i) w1 = (Ok others, w2) ->
        collectIndexed f (val :: rest) i w = (Ok (issues ++ others), w2))
  /\ (forall meta values info w paths w',
        checkParameters meta values
          {| path := []; info := info;
             parent := ctl_type (controller (route info));
             pc_parentValue := JUndefined |} w = (Ok paths, w') ->
        paths <> [] ->
        checkUserAccessToParameters meta values info w
        = (Throw (HttpStatusError
                    (match user info with None => 403 | Some _ => 401 end)
                    ("Unauthorized to populate parameter paths ("
                       +:+ join ", " paths +:+ ")")), w')).
Proof.
  split; [apply checkParameter_denied |].
  split.
  { intros items meta elem ctx w w' Hget Hden Hrel Hty.
    rewrite (checkParameter_allowed (JArr items) _ _ _ _ eq_refl Hget Hden Hrel).
    unfold checkChildren. by rewrite Hty. }
  split; [apply nat_toString_decimal |].
  split.
  { intros ctor fields meta c ctx w w' Hget Hden Hrel Hty.
    rewrite (checkParameter_allowed (JObj ctor fields) _ _ _ _ eq_refl Hget Hden Hrel).
    unfold checkChildren. by rewrite Hty. }
  split.
  { intros prop rest values ctx w issues w1 others w2 H1 H2. cbn [checkParameters].
    unfold withPath.
    rewrite (bind_ok _ _ _ _ _ H1), (bind_ok _ _ _ _ _ H2). done. }
  split.
  { intros f val rest i w issues w1 others w2 H1 H2. simpl.
    rewrite (bind_ok _ _ _ _ _ H1), (bind_ok _ _ _ _ _ H2). done. }
  apply checkUserAccessToParameters_denied.
Qed.

(** *** Termination of the type compiler *)

Lemma onChain_spec (parentTypes : list Class) c :
  existsb (fun x => bool_decide (x = c)) parentTypes = true <-> c ∈ parentTypes.
Proof.
  rewrite existsb_exists. split.
  - intros [x [Hin Hx]]. apply bool_decide_eq_true in Hx. subst.
    by apply list_elem_of_In.
  - intros Hin. exists c. split; [by apply list_elem_of_In |].
    by apply bool_decide_eq_true.
Qed.

Lemma offChain_shrinks parentTypes c :
  c ∉ parentTypes -> is_Some (reflectTable !! c) ->
  size (offChain (parentTypes ++ [c])) < size (offChain parentTypes).
Proof.
  intros Hnot Hknown. apply subset_size. unfold offChain.
  apply elem_of_dom in Hknown.
  assert (Hc : c ∉ (list_to_set parentTypes : gset Class))
    by (by rewrite elem_of_list_to_set).
  rewrite list_to_set_app_L. simpl. set_solver.
Qed.

Lemma reflect_unknown c : reflectTable !! c = None -> reflect c = [].
Proof. intros H. unfold reflect. by rewrite H. Qed.

Lemma compileType_class fuel parentTypes c :
  compileType (S fuel) parentTypes (TClass c)
  = if existsb (fun x => bool_decide (x = c)) parentTypes
    then Some (ClassNode [])
    else ClassNode <$> mapM (compileProperty fuel (parentTypes ++ [c]) c) (reflect c).
Proof.
  simpl. destruct (existsb _ _); [done |].
  unfold compileProperty. by destruct (mapM _ _).
Qed.

Lemma compileType_array fuel parentTypes elem :
  compileType (S fuel) parentTypes (TArray elem)
  = ArrayNode <$> compileType (S fuel) parentTypes elem.
Proof. simpl. by destruct ((fix go (t : TypeRef) := _) elem). Qed.

Lemma compileType_enough fuel :
  forall parentTypes t,
    size (offChain parentTypes) < fuel -> is_Some (compileType fuel parentTypes t).
Proof.
  induction fuel as [| fuel IH]; intros parentTypes t Hfuel; [lia |].
  induction t as [| c | elem IHt].
  - by eexists.
  - rewrite compileType_class.
    destruct (existsb _ _) eqn:Hchain; [by eexists |].
    assert (Hnot : c ∉ parentTypes).
    { rewrite <- onChain_spec. by rewrite Hchain. }
    destruct (reflectTable !! c) as [props |] eqn:Hknown.
    + assert (Hlt : size (offChain (parentTypes ++ [c])) < fuel).
      { pose proof (offChain_shrinks parentTypes c Hnot (mk_is_Some _ _ Hknown)). lia. }
      assert (Hall : is_Some (mapM (compileProperty fuel (parentTypes ++ [c]) c)
                                (reflect c))).
      { apply mapM_is_Some, Forall_forall. intros prop _.
        unfold compose, compileProperty.
        destruct (createPropertyNode prop) as [pname authorizer].
        destruct (IH (parentTypes ++ [c]) (type prop) Hlt) as [node Hnode].
        rewrite Hnode. by eexists. }
      destruct Hall as [nodes ->]. by eexists.
    + rewrite (reflect_unknown _ Hknown). by eexists.
  - rewrite compileType_array. destruct IHt as [node ->]. by eexists.
Qed.

Lemma mapM_Some_mono {A B} (f g : A -> option B) l ys :
  (forall x y, f x = Some y -> g x = Some y) ->
  mapM f l = Some ys -> mapM g l = Some ys.
Proof.
  intros Hfg. revert ys. induction l as [| x l IH]; intros ys; simpl; [done |].
  destruct (f x) as [y |] eqn:Hfx; simpl; [|done].
  rewrite (Hfg _ _ Hfx). simpl.
  destruct (mapM f l) as [ys' |]; simpl; [|done].
  intros [= <-]. by rewrite (IH _ eq_refl).
Qed.

(** More fuel does not change a result. *)
Lemma compileType_more_fuel fuel :
  forall parentTypes t node,
    compileType fuel parentTypes t = Some node ->
    compileType (S fuel) parentTypes t = Some node.
Proof.
  induction fuel as [| fuel IH]; intros parentTypes t; [done |].
  induction t as [| c | elem IHt]; intros node.
  - done.
  - rewrite !compileType_class. destruct (existsb _ _); [done |].
    destruct (mapM (compileProperty fuel _ c) (reflect c)) as [nodes |] eqn:Hm;
      [|done].
    intros [= <-].
    assert (Hstep : forall prop pn,
               compileProperty fuel (parentTypes ++ [c]) c prop = Some pn ->
               compileProperty (S fuel) (parentTypes ++ [c]) c prop = Some pn).
    { intros prop pn. unfold compileProperty.
      destruct (createPropertyNode prop) as [pname authorizer].
      destruct (compileType fuel _ (type prop)) as [n |] eqn:Hc; [|done].
      by rewrite (IH _ _ _ Hc). }
    by rewrite (mapM_Some_mono _ _ _ _ Hstep Hm).
  - rewrite (compileType_array (S fuel)), (compileType_array fuel).
    destruct (compileType (S fuel) parentTypes elem) as [n |] eqn:Hc; [|done].
    intros [= <-]. by rewrite (IHt _ eq_refl).
Qed.

Lemma compileType_fuel_irrelevant fuel fuel' parentTypes t node :
  fuel <= fuel' ->
  compileType fuel parentTypes t = Some node ->
  compileType fuel' parentTypes t = Some node.
Proof.
  induction 1 as [| fuel' _ IH]; [done |].
  intros H. by apply compileType_more_fuel, IH.
Qed.

(** C6. [compileType] returns on every reflection table, cyclic or not:
    for every chain and type there is one node that every run with more
    fuel than there are known classes off the chain returns; in
    particular the run [responseAuthorize] starts, from the empty chain,
    returns.  The chain is what stops it: a class already on the chain
    compiles to a class node without properties, and a class off the
    chain has its properties compiled under the chain extended by it. *)
Theorem C6_compileType_terminates :
  (forall parentTypes t,
      exists node,
        forall fuel,
          size (dom reflectTable ∖ list_to_set parentTypes) < fuel ->
          compileType fuel parentTypes t = Some node)
  /\ (forall t, is_Some (compileType compileFuel [] t))
  /\ (forall fuel parentTypes c,
        c ∈ parentTypes ->
        compileType (S fuel) parentTypes (TClass c) = Some (ClassNode []))
  /\ (forall fuel parentTypes c,
        c ∉ parentTypes ->
        compileType (S fuel) parentTypes (TClass c)
        = ClassNode <$> mapM (compileProperty fuel (parentTypes ++ [c]) c) (reflect c)).
Proof.
  split.
  { intros parentTypes t.
    destruct (compileType_enough (S (size (offChain parentTypes))) parentTypes t)
      as [node Hnode]; [lia |].
    exists node. intros fuel Hfuel.
    apply (compileType_fuel_irrelevant (S (size (offChain parentTypes)))); [|done].
    unfold offChain. lia. }
  split.
  { intros t. apply compileType_enough. unfold compileFuel, offChain.
    pose proof (subseteq_size (dom reflectTable ∖ list_to_set [])
                  (dom reflectTable)) as Hle.
    assert (dom reflectTable ∖ list_to_set [] ⊆ dom reflectTable) by set_solver.
    specialize (Hle H). lia. }
  split.
  { intros fuel parentTypes c Hin. rewrite compileType_class.
    apply onChain_spec in Hin. by rewrite Hin. }
  intros fuel parentTypes c Hnot. rewrite compileType_class.
  destruct (existsb _ _) eqn:Hchain; [|done].
  apply onChain_spec in Hchain. contradiction.
Qed.

(** *** The response walk: arrays, empty results and the top level *)

Lemma filterType_array items child ctx w survivors w' :
  filterItems (fun item => filterType item child ctx) items w = (Ok survivors, w') ->
  filterType (JArr items) (ArrayNode child) ctx w
  = (Ok (match survivors with [] => JUndefined | _ => JArr survivors end), w').
Proof.
  intros H. simpl. rewrite (bind_ok _ _ _ _ _ H). by destruct survivors.
Qed.

Lemma filterType_not_array raw child ctx w actual :
  isArray raw = false -> constructorName raw = Ok actual ->
  filterType raw (ArrayNode child) ctx w
  = (Throw (Error ("Action " +:+ ctl_name (controller (route ctx)) +:+ "."
                     +:+ method_name (action (route ctx))
                     +:+ " expecting return value of type Array but got "
                     +:+ actual)), w).
Proof.
  intros Harr Hctor. destruct raw; try done; simpl in *;
    by injection Hctor as <-.
Qed.

Lemma responseAuthorize_empty_array raw ctx t w :
  resolvedType ctx = Some t -> status raw = 200%Z -> body raw = JArr [] ->
  responseAuthorize raw ctx w = (Ok raw, w).
Proof.
  intros Ht Hs Hb.
  destruct (compileType_enough compileFuel [] t) as [node Hnode].
  { unfold compileFuel, offChain.
    assert (dom reflectTable ∖ list_to_set [] ⊆ dom reflectTable) as Hsub
      by set_solver.
    apply subseteq_size in Hsub. lia. }
  unfold responseAuthorize. fold (resolvedType ctx).
  rewrite Ht, Hs, Hb, Hnode.
  destruct raw as [st b]. simpl in *. by subst.
Qed.

Lemma responseAuthorize_walk raw ctx t node w :
  resolvedType ctx = Some t -> status raw = 200%Z ->
  truthy (body raw) = true -> body raw <> JArr [] ->
  compileType compileFuel [] t = Some node ->
  responseAuthorize raw ctx w
  = (let* filtered := filterType (body raw) node (createAuthContext ctx AccessRead) in
     ret {| status := status raw; body := filtered |}) w.
Proof.
  intros Ht Hs Htruthy Hne Hnode. unfold responseAuthorize. fold (resolvedType ctx).
  rewrite Ht, Hs, Htruthy, Hnode. simpl.
  destruct (body raw) as [ | | | | | [| x items] |]; done.
Qed.

(** C7 as the code has it.  Under an array node a value that is not an
    array (and has a constructor) makes the walk throw an [Error] naming
    controller, action and the constructor of the value.  The items of an
    array are walked in order and those that come back [undefined] are
    dropped; an array of which nothing is left, the empty array included,
    comes back as [undefined], and for the empty array nothing is
    evaluated.  An object of which no property is left comes back as
    [undefined].  At the top level only the empty array is exempt: it is
    returned as it is, without any evaluation; any other body is replaced
    by the result of its walk, [undefined] included. *)
Theorem C7_response_walk_collapse :
  (forall raw child ctx w actual,
      isArray raw = false -> constructorName raw = Ok actual ->
      filterType raw (ArrayNode child) ctx w
      = (Throw (Error ("Action " +:+ ctl_name (controller (route ctx)) +:+ "."
                         +:+ method_name (action (route ctx))
                         +:+ " expecting return value of type Array but got "
                         +:+ actual)), w))
  /\ (forall f item rest w w1,
        f item w = (Ok JUndefined, w1) ->
        filterItems f (item :: rest) w = filterItems f rest w1)
  /\ (forall f item rest w val w1 others w2,
        f item w = (Ok val, w1) -> val <> JUndefined ->
        filterItems f rest w1 = (Ok others, w2) ->
        filterItems f (item :: rest) w = (Ok (val :: others), w2))
  /\ (forall items child ctx w survivors w',
        filterItems (fun item => filterType item child ctx) items w
        = (Ok survivors, w') ->
        filterType (JArr items) (ArrayNode child) ctx w
        = (Ok (match survivors with [] => JUndefined | _ => JArr survivors end), w'))
  /\ (forall child ctx w,
        filterType (JArr []) (ArrayNode child) ctx w = (Ok JUndefined, w))
  /\ (forall raw props ctx w result w',
        filterProperties raw ctx props [] w = (Ok result, w') ->
        filterType raw (ClassNode props) ctx w
        = (Ok (match result with [] => JUndefined | _ => JObj "Object" result end), w'))
  /\ (forall raw ctx t w,
        resolvedType ctx = Some t -> status raw = 200%Z -> body raw = JArr [] ->
        responseAuthorize raw ctx w = (Ok raw, w))
  /\ (forall raw ctx t node w,
        resolvedType ctx = Some t -> status raw = 200%Z ->
        truthy (body raw) = true -> body raw <> JArr [] ->
        compileType compileFuel [] t = Some node ->
        responseAuthorize raw ctx w
        = (let* filtered :=
             filterType (body raw) node (createAuthContext ctx AccessRead) in
           ret {| status := status raw; body := filtered |}) w).
Proof.
  split; [apply filterType_not_array |].
  split.
  { intros f item rest w w1 H. simpl. rewrite (bind_ok _ _ _ _ _ H).
    unfold bind. by destruct (filterItems f rest w1) as [[others | e] w2]. }
  split.
  { intros f item rest w val w1 others w2 H Hval Hrest. simpl.
    rewrite (bind_ok _ _ _ _ _ H), (bind_ok _ _ _ _ _ Hrest).
    by destruct val. }
  split; [apply filterType_array |].
  split; [done |].
  split.
  { intros raw props ctx w result w' H. rewrite filterType_class.
    rewrite (bind_ok _ _ _ _ _ H). by destruct result. }
  split; [apply responseAuthorize_empty_array |].
  apply responseAuthorize_walk.
Qed.

End Engine.

(* ===================================================================== *)
(** ** Route decorators *)
(* ===================================================================== *)


Lemma nonempty_length {A} (l : list A) : l <> [] -> (0 <? length l)%nat = true.
Proof. destruct l; [done |]. intros _. done. Qed.

(** A user posting an animal to a public route may not write [id] and
    [deceased]: the paths are reported with the index of the item, with
    401 for a user and 403 for nobody; an admin passes. *)
Example save_by_user :
  (checkAuthorize sampleTable sampleConfig []
     (saveRequest publicRoute (Some userToken)) startWorld).1
  = Throw (HttpStatusError 401
             "Unauthorized to populate parameter paths (data.0.id, data.0.deceased)").
Proof. vm_compute. reflexivity. Qed.

Example save_by_nobody :
  (checkAuthorize sampleTable sampleConfig []
     (saveRequest publicRoute None) startWorld).1
  = Throw (HttpStatusError 403
             "Unauthorized to populate parameter paths (data.0.id, data.0.deceased)").
Proof. vm_compute. reflexivity. Qed.

Example save_by_admin :
  (checkAuthorize sampleTable sampleConfig []
     (saveRequest publicRoute (Some adminToken)) startWorld).1
  = Ok tt.
Proof. vm_compute. reflexivity. Qed.

(** Two stacked decorators share the registry while their checks are
    suspended.  The first check is suspended in [admin] at index 1 of the
    reversed array; the second reverses the array again and is suspended
    in [user] at index 0; resumed, the first goes on at index 2 of the
    array as it is then, never reaching [user], and answers [false], the
    second answers [true].  With [admin] alone as second decorator both
    answer [false] and a user is denied, whom the first decorator alone
    admits. *)
Example stacked_decorators :
  (routeConditions sampleTable [0%nat; 1%nat] (routeScoped stackedRoute)
     (routeContext stackedRoute (Some userToken)) roleWorld).1 = Ok [false; true]
  /\ (routeConditions sampleTable [1%nat; 0%nat] (routeScoped stackedRoute)
        (routeContext stackedRoute (Some userToken)) roleWorld).1 = Ok [false; true]
  /\ (checkUserAccessToRoute sampleTable [0%nat; 1%nat] (routeScoped stackedAdmin)
        (routeContext stackedAdmin (Some userToken)) roleWorld).1
     = Throw (HttpStatusError 401 "Unauthorized")
  /\ (checkUserAccessToRoute sampleTable [0%nat] (routeScoped (take 1 stackedAdmin))
        (routeContext stackedAdmin (Some userToken)) roleWorld).1 = Ok tt.
Proof. vm_compute. repeat split. Qed.

(** The cycle [Animal -> Owner -> [Animal]] is cut at the second
    [Animal]. *)
Example compile_cyclic :
  exists props,
    compileType sampleTable (compileFuel sampleTable) [] (TClass Owner)
    = Some (ClassNode
              [ Build_PropertyNode "name" (property "name" TValue []) Owner
                  (AuthorizerBool true) ValueNode;
                Build_PropertyNode "animals"
                  (property "animals" (TArray (TClass Animal)) []) Owner
                  (AuthorizerBool true) (ArrayNode (ClassNode props)) ])
    /\ In (Build_PropertyNode "owner" (property "owner" (TClass Owner) []) Animal
             (AuthorizerBool true) (ClassNode []))
          props.
Proof. eexists. split; [vm_compute; reflexivity |]. simpl. tauto. Qed.

(* ===================================================================== *)
(** ** The claims at concrete inputs *)
(* ===================================================================== *)

(** *** C1 *)

Lemma C1_witness :
  (exists msg w',
      checkUserAccessToRoute sampleTable [0%nat]
        (getRouteAuthorizeDecorators (sampleRoute adminRoute) None)
        (routeContext adminRoute (Some userToken)) startWorld
      = (Throw (HttpStatusError 401 msg), w'))
  /\ (exists msg w',
        checkUserAccessToParameters sampleTable
          (parameters (saveAction publicRoute)) [JArr [mimi]]
          (withAccess (routeContext publicRoute None) AccessWrite) startWorld
        = (Throw (HttpStatusError 403 msg), w')).
Proof.
  split.
  - destruct (C1_denial_status sampleTable sampleConfig [0%nat]
                (routeContext adminRoute (Some userToken))) as [Hroute _].
    edestruct (Hroute (getRouteAuthorizeDecorators (sampleRoute adminRoute) None)
                 startWorld) as [msg Hmsg];
      [vm_compute; reflexivity | reflexivity |].
    eexists _, _. exact Hmsg.
  - destruct (C1_denial_status sampleTable sampleConfig [0%nat]
                (withAccess (routeContext publicRoute None) AccessWrite))
      as [_ [_ [Hparam _]]].
    edestruct (Hparam (parameters (saveAction publicRoute)) [JArr [mimi]] startWorld)
      as [msg Hmsg];
      [vm_compute; reflexivity | discriminate |].
    eexists _, _. exact Hmsg.
Defined.

(** *** C3 *)

(** A name that is the name of none of the policies walked adds nothing
    to the walk: no evaluation and no error. *)
Lemma authorizeKeys_unmatched reflectTable p k keys ctx w :
  policyName p <> k ->
  authorizeKeys reflectTable p (k :: keys) ctx w
  = authorizeKeys reflectTable p keys ctx w.
Proof.
  intros Hne. simpl.
  assert (Heq : equals reflectTable p k ctx = Ok false).
  { destruct p; simpl in *;
      try (destruct (String.eqb_spec k name0); [congruence | done]);
      by (apply f_equal, not_true_is_false; rewrite String.eqb_eq; congruence). }
  by rewrite Heq.
Qed.

Lemma authorizeLoop_unmatched reflectTable ps k keys ctx w :
  Forall (fun p => policyName p <> k) ps ->
  authorizeLoop reflectTable ps (k :: keys) ctx w
  = authorizeLoop reflectTable ps keys ctx w.
Proof.
  intros H. revert w. induction H as [| p ps Hp _ IH]; intros w; [done |].
  cbn [authorizeLoop]. unfold bind. rewrite (authorizeKeys_unmatched _ _ _ _ _ _ Hp).
  destruct (authorizeKeys reflectTable p keys ctx w) as [[[|] | e] w']; done.
Qed.

(** The evaluator of a policy neither reads nor writes the state. *)
Lemma policyAuthorize_pure reflectTable p ctx w w0 :
  policyAuthorize reflectTable p ctx w
  = ((policyAuthorize reflectTable p ctx w0).1, w).
Proof.
  destruct p; simpl; try done.
  - destruct (authorizer ctx); [done | ..]; unfold bind, lift, throw;
      by destruct (getErrorLocation (metadata ctx)).
  - unfold bind, lift, throw. destruct (getEntity reflectTable ctx); [|done].
    destruct (authorizer ctx (prov_id a)); [done | ..];
      by destruct (getErrorLocation (metadata ctx)).
Qed.

(** A walk that returns [false] has seen [false] from every policy it
    matched. *)
Lemma authorizeKeys_false reflectTable p keys ctx :
  forall w w',
    authorizeKeys reflectTable p keys ctx w = (Ok false, w') ->
    forall k w0,
      k ∈ keys -> equals reflectTable p k ctx = Ok true ->
      (policyAuthorize reflectTable p ctx w0).1 = Ok false.
Proof.
  induction keys as [| a keys IH]; intros w w' H k w0 Hin Heq.
  { by apply elem_of_nil in Hin. }
  cbn [authorizeKeys] in H. unfold bind at 1, lift in H.
  destruct (equals reflectTable p a ctx) as [[|] | e] eqn:Ea; [| |done].
  - unfold bind at 1, logCall in H. unfold bind at 1 in H.
    rewrite (policyAuthorize_pure _ _ _ _ w0) in H.
    by destruct (policyAuthorize reflectTable p ctx w0).1 as [[|] | e].
  - apply elem_of_cons in Hin as [-> | Hin]; [congruence |]. by eapply IH.
Qed.

Lemma authorizeLoop_false reflectTable ps keys ctx :
  forall w w',
    authorizeLoop reflectTable ps keys ctx w = (Ok false, w') ->
    forall p k w0,
      p ∈ ps -> k ∈ keys -> equals reflectTable p k ctx = Ok true ->
      (policyAuthorize reflectTable p ctx w0).1 = Ok false.
Proof.
  induction ps as [| q ps IH]; intros w w' H p k w0 Hp Hk Heq.
  { by apply elem_of_nil in Hp. }
  cbn [authorizeLoop] in H. unfold bind in H.
  destruct (authorizeKeys reflectTable q keys ctx w) as [[[|] | e] w1] eqn:Hq;
    [done | | done].
  apply elem_of_cons in Hp as [-> | Hp].
  - by eapply authorizeKeys_false.
  - by eapply IH.
Qed.

(** The walk stops at the first policy that grants: what comes after it
    in the order walked is not visited. *)
Lemma authorizeLoop_first_true reflectTable pre p post keys ctx w w1 w2 :
  authorizeLoop reflectTable pre keys ctx w = (Ok false, w1) ->
  authorizeKeys reflectTable p keys ctx w1 = (Ok true, w2) ->
  authorizeLoop reflectTable (pre ++ p :: post) keys ctx w = (Ok true, w2).
Proof.
  revert w. induction pre as [| q pre IH]; intros w Hpre Hp.
  - injection Hpre as <-. cbn [app authorizeLoop]. unfold bind. by rewrite Hp.
  - cbn [app authorizeLoop] in *. unfold bind in *.
    destruct (authorizeKeys reflectTable q keys ctx w) as [[[|] | e] w'];
      [done | | done].
    by apply IH.
Qed.

(** C3 at two successive checks.  With the policies registered in the
    order [...; user; admin; superadmin], the first check of a
    super-admin against [user|admin] evaluates [admin] before [user], the
    reverse of the registration order; the second check, of the same
    request, evaluates [user] before [admin], the registration order.
    With [user] registered before a policy [admin] whose evaluator
    throws, the first check of a user throws and the second one
    grants. *)
Theorem C3_second_check_in_registration_order :
  let superToken :=
    JObj "Object" [("email", JStr "ketut@gmail.com"); ("role", JStr "superadmin")] in
  let info :=
    fixContext userOrAdmin (routeContext [DAuthorize userOrAdmin] (Some superToken)) in
  let first := executeAuthorizer sampleTable (inl userOrAdmin) info startWorld in
  let second := executeAuthorizer sampleTable (inl userOrAdmin) info first.2 in
  let info' :=
    fixContext userOrAdmin (routeContext [DAuthorize userOrAdmin] (Some userToken)) in
  let broken := {| authPolicies := [createPolicy "user"; brokenPolicy]; calls := [] |} in
  let first' := executeAuthorizer sampleTable (inl userOrAdmin) info' broken in
  let second' := executeAuthorizer sampleTable (inl userOrAdmin) info' first'.2 in
  map call_policy (calls first.2)
  = [friendlyName (createPolicy "admin"); friendlyName (createPolicy "user")]
  /\ map call_policy (drop 2 (calls second.2))
     = [friendlyName (createPolicy "user"); friendlyName (createPolicy "admin")]
  /\ first'.1
     = Throw (Error ("Error occur inside authorization policy admin on method AnimalController.save "
                       +:+ newline +:+ " Error: broken"))
  /\ second'.1 = Ok true.
Proof. vm_compute. repeat split; reflexivity. Qed.

(** *** C4 *)

Lemma C4_witness :
  checkParameter sampleTable JNull
    (property "id" TValue [authorizeWith AccessWrite LocParameter ["admin"]])
    (rootContext (withAccess (routeContext publicRoute (Some userToken)) AccessWrite))
    startWorld
  = (Ok [], startWorld)
  /\ filterType sampleTable sampleConfig
       (JObj "Animal" [("name", JStr "Mimi"); ("secret", JNull)])
       (ClassNode
          ([Build_PropertyNode "name" (property "name" TValue []) Animal
              (AuthorizerBool true) ValueNode]
           ++ Build_PropertyNode "secret"
                (property "secret" TValue
                   [authorizeWith AccessRead LocParameter ["admin"]])
                Animal (AuthorizerPolicies ["admin"]) ValueNode
           :: []))
       (createAuthContext (saveRequest publicRoute (Some userToken)) AccessRead)
       startWorld
     = filterType sampleTable sampleConfig
         (JObj "Animal" [("name", JStr "Mimi"); ("secret", JNull)])
         (ClassNode
            ([Build_PropertyNode "name" (property "name" TValue []) Animal
                (AuthorizerBool true) ValueNode] ++ []))
         (createAuthContext (saveRequest publicRoute (Some userToken)) AccessRead)
         startWorld.
Proof.
  destruct (C4_absent_values_never_evaluated sampleTable sampleConfig)
    as [Hparam [_ [Hskip _]]].
  split.
  - apply Hparam. reflexivity.
  - apply (Hskip _ _ _ _ _ JNull); reflexivity.
Defined.

(** *** C5 *)

Lemma C5_witness :
  (exists w',
      checkParameter sampleTable (JNum 20)
        (property "id" TValue [authorizeWith AccessWrite LocParameter ["admin"]])
        {| path := ["data"; "0"; "id"];
           info := withAccess (routeContext publicRoute (Some userToken)) AccessWrite;
           parent := Animal;
           pc_parentValue := mimi |}
        startWorld
      = (Ok ["data.0.id"], w')
      /\ map call_policy (calls w') = [friendlyName (createPolicy "admin")])
  /\ (checkParameter sampleTable (JArr [mimi])
        {| kind := "Parameter"; name := "data"; type := TArray (TClass Animal);
           decorators := [] |}
        {| path := ["data"];
           info := withAccess (routeContext publicRoute (Some userToken)) AccessWrite;
           parent := AnimalController;
           pc_parentValue := JUndefined |}
        startWorld).1
     = Ok ["data.0.id"; "data.0.deceased"]
  /\ option_map Nat.of_uint (NilEmpty.uint_of_string (nat_toString 10)) = Some 10%nat
  /\ (checkUserAccessToParameters sampleTable
        (parameters (saveAction publicRoute)) [JArr [mimi]]
        (withAccess (routeContext publicRoute (Some userToken)) AccessWrite)
        startWorld).1
     = Throw (HttpStatusError 401
                "Unauthorized to populate parameter paths (data.0.id, data.0.deceased)").
Proof.
  destruct (C5_unauthorized_paths sampleTable)
    as [Hdenied [Hitems [Hindex [_ [_ [_ Hthrow]]]]]].
  split.
  { eexists. split.
    - apply Hdenied; [reflexivity | discriminate | vm_compute; reflexivity].
    - reflexivity. }
  split.
  { rewrite (Hitems [mimi] _ (TClass Animal) _ startWorld startWorld);
      [vm_compute; reflexivity | discriminate | reflexivity | reflexivity
       | reflexivity]. }
  split; [apply Hindex |].
  rewrite (Hthrow (parameters (saveAction publicRoute)) [JArr [mimi]]
             (withAccess (routeContext publicRoute (Some userToken)) AccessWrite)
             startWorld ["data.0.id"; "data.0.deceased"]
             (checkParameters sampleTable (parameters (saveAction publicRoute))
                [JArr [mimi]]
                (rootContext
                   (withAccess (routeContext publicRoute (Some userToken)) AccessWrite))
                startWorld).2);
    [reflexivity | vm_compute; reflexivity | discriminate].
Defined.

(** *** C6 *)

Lemma C6_witness :
  compileType sampleTable 1 [Owner; Animal] (TClass Animal) = Some (ClassNode []).
Proof.
  destruct (C6_compileType_terminates sampleTable) as [_ [_ [Hchain _]]].
  apply Hchain. apply list_elem_of_In. simpl. tauto.
Defined.

(** *** C7 *)

(** Inside the walk an empty array does not come back as an empty array
    but as [undefined], and its property is dropped; and a top-level
    object of which nothing is left is not returned as it is but replaced
    by [undefined]. *)
Lemma C7_counterexample :
  (filterType sampleTable sampleConfig (JArr []) (ArrayNode ValueNode)
     (createAuthContext (saveRequest publicRoute (Some userToken)) AccessRead)
     startWorld).1
  = Ok JUndefined
  /\ (responseAuthorize sampleTable sampleConfig
        {| status := 200;
           body := JObj "Animal" [("name", JStr "Mimi"); ("tags", JArr [])] |}
        (saveRequest publicRoute (Some userToken)) startWorld).1
     = Ok {| status := 200; body := JObj "Object" [("name", JStr "Mimi")] |}
  /\ (responseAuthorize sampleTable sampleConfig
        {| status := 200; body := JObj "Animal" [("secret", JStr "x")] |}
        (saveRequest publicRoute (Some userToken)) startWorld).1
     = Ok {| status := 200; body := JUndefined |}.
Proof. vm_compute. repeat split; reflexivity. Qed.

Lemma C7_witness :
  filterType sampleTable sampleConfig (JNum 12) (ArrayNode (ClassNode []))
    (createAuthContext (saveRequest publicRoute (Some adminToken)) AccessRead)
    startWorld
  = (Throw (Error "Action AnimalController.save expecting return value of type Array but got Number"),
     startWorld)
  /\ responseAuthorize sampleTable sampleConfig {| status := 200; body := JArr [] |}
       (saveRequest [DResponseType (TArray (TClass Animal))] (Some userToken))
       startWorld
     = (Ok {| status := 200; body := JArr [] |}, startWorld).
Proof.
  destruct (C7_response_walk_collapse sampleTable sampleConfig)
    as [Hbad [_ [_ [_ [_ [_ [Hempty _]]]]]]].
  split.
  - exact (Hbad (JNum 12) (ClassNode [])
             (createAuthContext (saveRequest publicRoute (Some adminToken)) AccessRead)
             startWorld "Number" eq_refl eq_refl).
  - apply (Hempty _ _ (TArray (TClass Animal))); reflexivity.
Defined.

(** *** C8 *)

Lemma C8_witness :
  conflict
    (EntityAuthPolicy "ShopAdmin" Animal (fun _ _ => Returns true))
    (EntityAuthPolicy "ShopAdmin" Owner (fun _ _ => Returns true))
  = false.
Proof.
  destruct C8_conflict_relation as [_ [Hdiff _]].
  apply Hdiff. discriminate.
Defined.

(** *** C9 *)

(** A policy that throws a number, a policy whose promise is rejected
    with an array, and an entity policy that throws the identifier it was
    given, which the provider names [ID] and the action [id]. *)
Lemma C9_witness :
  policyAuthorize sampleTable
    (CustomAuthPolicy "HasUser"
       (fun _ => Throws (ThrownValue (JNum 1000000000000000000000))))
    (fixContext userOrAdmin (routeContext [DAuthorize userOrAdmin] (Some userToken)))
    startWorld
  = (Throw (Error ("Error occur inside authorization policy HasUser on method AnimalController.save "
                     +:+ newline +:+ " 1e+21")), startWorld)
  /\ policyAuthorize sampleTable
       (CustomAuthPolicy "HasUser"
          (fun _ => Rejects (ThrownValue (JArr [JNum (-42); JNull; JBool false; JStr "x"]))))
       (fixContext userOrAdmin (routeContext [DAuthorize userOrAdmin] (Some userToken)))
       startWorld
     = (Throw (Error ("Error occur inside authorization policy HasUser on method AnimalController.save "
                        +:+ newline +:+ " -42,,false,x")), startWorld)
  /\ policyAuthorize sampleTable
       (EntityAuthPolicy "Owner" Animal
          (fun _ id => Throws (ThrownValue (JArr [id; JNum (-15000000000000000000000)]))))
       (fixContext userOrAdmin providerContext) startWorld
     = (Throw (Error ("Error occur inside authorization policy Owner for entity Animal on method AnimalController.get "
                        +:+ newline +:+ " 1,-1.5e+22")), startWorld).
Proof.
  split; [| split].
  - apply (proj1 (C9_policy_error_wrapping sampleTable
                    (fixContext userOrAdmin
                       (routeContext [DAuthorize userOrAdmin] (Some userToken)))
                    {| cur_kind := "Method"; cur_name := "save";
                       cur_parent := Some AnimalController |}
                    (ThrownValue (JNum 1000000000000000000000)) startWorld eq_refl
                    (or_intror (mk_is_Some _ _ eq_refl)) eq_refl)).
    left. reflexivity.
  - apply (proj1 (C9_policy_error_wrapping sampleTable
                    (fixContext userOrAdmin
                       (routeContext [DAuthorize userOrAdmin] (Some userToken)))
                    {| cur_kind := "Method"; cur_name := "save";
                       cur_parent := Some AnimalController |}
                    (ThrownValue (JArr [JNum (-42); JNull; JBool false; JStr "x"]))
                    startWorld eq_refl
                    (or_intror (mk_is_Some _ _ eq_refl)) eq_refl)).
    right. reflexivity.
  - apply (proj1 (proj2 (C9_policy_error_wrapping sampleTable
                           (fixContext userOrAdmin providerContext)
                           {| cur_kind := "Method"; cur_name := "get";
                              cur_parent := Some AnimalController |}
                           (ThrownValue (JArr [JNum 1; JNum (-15000000000000000000000)]))
                           startWorld eq_refl
                           (or_intror (mk_is_Some _ _ eq_refl)) eq_refl))
             "Owner" Animal _ {| prov_entity := Animal; prov_id := JNum 1 |} eq_refl).
    left. reflexivity.
Defined.

(** *** C10 *)

(** The request of a super-admin checked twice against [user] or
    [admin]: both checks deny; the first evaluates [admin] before [user],
    the second [user] before [admin]. *)
Lemma C10_witness :
  let superToken :=
    JObj "Object" [("email", JStr "ketut@gmail.com"); ("role", JStr "superadmin")] in
  let info :=
    fixContext userOrAdmin (routeContext [DAuthorize userOrAdmin] (Some superToken)) in
  let first := executeAuthorizer sampleTable (inl userOrAdmin) info startWorld in
  let second := executeAuthorizer sampleTable (inl userOrAdmin) info first.2 in
  map call_policy (calls first.2)
  = [friendlyName (createPolicy "admin"); friendlyName (createPolicy "user")]
  /\ map call_policy (calls second.2)
     = [friendlyName (createPolicy "admin"); friendlyName (createPolicy "user");
        friendlyName (createPolicy "user"); friendlyName (createPolicy "admin")].
Proof.
  intros superToken info first second.
  destruct (C10_authorize_reverses_shared_array sampleTable
              (inl userOrAdmin) (inl userOrAdmin) info info startWorld)
    as [_ [_ [_ [_ [_ [[made [Hcalls [_ Hmade]]] [made' [Hcalls' [_ Hmade']]]]]]]]].
  fold first in Hcalls, Hmade, Hcalls', Hmade'.
  fold second in Hcalls', Hmade'.
  split.
  - rewrite Hcalls, Hmade; [reflexivity | vm_compute; reflexivity].
  - rewrite Hcalls', Hcalls, Hmade, Hmade';
      [reflexivity | vm_compute; reflexivity | vm_compute; reflexivity].
Defined.

(* ===================================================================== *)
(** ** Further properties of the engine *)
(* ===================================================================== *)

Section Coverage.

Context (T : gmap Class (list MemberReflection)).
Context (cfg : Configuration).
Context (sched : list nat).

Lemma elem_of_rev {A} (x : A) l : x ∈ rev l <-> x ∈ l.
Proof. rewrite !list_elem_of_In. symmetry. apply in_rev. Qed.

(** *** Names, matches and conflicts *)

Lemma equals_true_name p id ctx :
  equals T p id ctx = Ok true -> policyName p = id.
Proof.
  destruct p; simpl;
    try (intros [= H]; apply String.eqb_eq in H; done).
  destruct (String.eqb_spec id name0); [done | discriminate].
Qed.

Lemma equals_other_name p id ctx :
  policyName p <> id -> equals T p id ctx = Ok false.
Proof.
  intros Hne. destruct (equals T p id ctx) as [[|] | e] eqn:E; [| done |].
  - by apply equals_true_name in E.
  - destruct p; simpl in *; try discriminate.
    destruct (String.eqb_spec id name0); [congruence | discriminate].
Qed.

Lemma equals_true_entity name0 entity f id ctx :
  equals T (EntityAuthPolicy name0 entity f) id ctx = Ok true ->
  exists provider, getEntity T ctx = Ok provider /\ entity = prov_entity provider.
Proof.
  simpl. destruct (String.eqb id name0); [|discriminate].
  destruct (getEntity T ctx) as [provider | e]; [|discriminate].
  intros [= H]. apply bool_decide_eq_true in H. eauto.
Qed.

(** X1. The conflict test gives the same answer whichever of the two policies
    is asked, and a policy conflicts with itself. *)
Theorem conflict_symmetric p q :
  conflict p q = conflict q p /\ conflict p p = true.
Proof.
  split.
  - destruct p, q; unfold conflict; cbn [policyName]; try apply String.eqb_sym.
    rewrite String.eqb_sym. f_equal. apply bool_decide_ext. split; congruence.
  - destruct p; unfold conflict; cbn [policyName]; rewrite ?String.eqb_refl;
      try done.
    by rewrite bool_decide_eq_true_2.
Qed.

(** X2. Two policies that both answer to one requested name in one context
    conflict: among policies that do not conflict at most one matches. *)
Theorem matching_policies_conflict p q id ctx :
  equals T p id ctx = Ok true -> equals T q id ctx = Ok true ->
  conflict p q = true.
Proof.
  intros Hp Hq.
  pose proof (equals_true_name _ _ _ Hp) as Np.
  pose proof (equals_true_name _ _ _ Hq) as Nq.
  assert (Hname : String.eqb (policyName p) (policyName q) = true)
    by (apply String.eqb_eq; congruence).
  destruct p as [n f | | | | | n e f]; try exact Hname.
  destruct q as [n' f' | | | | | n' e' f']; try exact Hname.
  apply equals_true_entity in Hp as [prov [Hprov ->]].
  apply equals_true_entity in Hq as [prov' [Hprov' ->]].
  cbn [policyName] in Hname. cbn [conflict]. rewrite Hname. simpl.
  apply bool_decide_eq_true. congruence.
Qed.

(** *** The verdict of a walk *)

Lemma authorizeKeys_true p keys ctx :
  forall w w',
    authorizeKeys T p keys ctx w = (Ok true, w') ->
    exists k, k ∈ keys /\ equals T p k ctx = Ok true
              /\ forall w0, (policyAuthorize T p ctx w0).1 = Ok true.
Proof.
  induction keys as [| a keys IH]; intros w w' H; [done |].
  cbn [authorizeKeys] in H. unfold bind at 1, lift in H.
  destruct (equals T p a ctx) as [[|] | e] eqn:Ea; [| |done].
  - unfold bind at 1, logCall in H. unfold bind at 1 in H.
    rewrite (policyAuthorize_pure _ _ _ _ w) in H.
    destruct (policyAuthorize T p ctx w).1 as [[|] | e] eqn:Hv; simpl in H;
      [| | done].
    + exists a. split; [apply list_elem_of_here |]. split; [done |].
      intros w0. by rewrite (policyAuthorize_pure _ _ _ w0 w).
    + destruct (IH _ _ H) as [k [Hin Hk]]. exists k.
      split; [by apply list_elem_of_further | done].
  - destruct (IH _ _ H) as [k [Hin Hk]]. exists k.
    split; [by apply list_elem_of_further | done].
Qed.

Lemma authorizeLoop_true ps keys ctx :
  forall w w',
    authorizeLoop T ps keys ctx w = (Ok true, w') ->
    exists p k, p ∈ ps /\ k ∈ keys /\ equals T p k ctx = Ok true
                /\ forall w0, (policyAuthorize T p ctx w0).1 = Ok true.
Proof.
  induction ps as [| q ps IH]; intros w w' H; [done |].
  cbn [authorizeLoop] in H. unfold bind in H.
  destruct (authorizeKeys T q keys ctx w) as [[[|] | e] w1] eqn:Hq; [| | done].
  - destruct (authorizeKeys_true _ _ _ _ _ Hq) as [k [Hk Hrest]].
    exists q, k. split; [apply list_elem_of_here | done].
  - destruct (IH _ _ H) as [p [k [Hp Hrest]]]. exists p, k.
    split; [by apply list_elem_of_further | done].
Qed.

(** A walk that grants and a walk over at least the same policies that
    denies cannot both happen. *)
Lemma authorizeLoop_granted_not_denied ps ps' keys ctx w w1 w' w1' :
  (forall p, p ∈ ps -> p ∈ ps') ->
  authorizeLoop T ps keys ctx w = (Ok true, w1) ->
  authorizeLoop T ps' keys ctx w' = (Ok false, w1') ->
  False.
Proof.
  intros Hsub H H'.
  destruct (authorizeLoop_true _ _ _ _ _ H) as [p [k [Hp [Hk [Heq Hv]]]]].
  apply Hsub in Hp.
  pose proof (authorizeLoop_false _ _ _ _ _ _ H' p k w Hp Hk Heq) as Hf.
  rewrite Hv in Hf. done.
Qed.

(** X4. Two successive checks of one request that both return agree. *)
Theorem successive_checks_agree decorator info w b w1 b' w2 :
  executeAuthorizer T decorator info w = (Ok b, w1) ->
  executeAuthorizer T decorator info w1 = (Ok b', w2) ->
  b = b'.
Proof.
  unfold executeAuthorizer. rewrite !PolicyAuthorizer_authorize_unfold.
  intros H H'.
  assert (Hflip : authPolicies w1 = rev (authPolicies w)).
  { pose proof (keepsArray_authorizeLoop T (rev (authPolicies w))
                  (requestedNames decorator) info (reversed w)) as Hk.
    unfold requestedNames in Hk. rewrite H in Hk. exact Hk. }
  rewrite Hflip, rev_involutive in H'.
  destruct b, b'; try done; exfalso.
  - eapply authorizeLoop_granted_not_denied; [| exact H | exact H'].
    intros p. apply elem_of_rev.
  - eapply authorizeLoop_granted_not_denied; [| exact H' | exact H].
    intros p Hp. by apply elem_of_rev.
Qed.

(** *** Checks of a single name *)

Lemma authorizeLoop_no_names ps ctx w :
  authorizeLoop T ps [] ctx w = (Ok false, w).
Proof. induction ps as [| p ps IH]; [done |]. simpl. unfold bind. simpl. exact IH. Qed.

Lemma authorizeKeys_single_match p k ctx w v :
  equals T p k ctx = Ok true ->
  (forall w0, (policyAuthorize T p ctx w0).1 = Ok v) ->
  exists w1, authorizeKeys T p [k] ctx w = (Ok v, w1)
             /\ authPolicies w1 = authPolicies w.
Proof.
  intros Heq Hv. cbn [authorizeKeys]. rewrite Heq, bind_lift_ok.
  unfold bind at 1, logCall. unfold bind.
  rewrite (policyAuthorize_pure _ _ _ _ w), Hv.
  destruct v; eexists; split; done.
Qed.

Lemma authorizeKeys_single_other p k ctx w :
  policyName p <> k -> authorizeKeys T p [k] ctx w = (Ok false, w).
Proof. intros Hne. by rewrite authorizeKeys_unmatched. Qed.

(** When every policy that goes by the one requested name matches and
    gives the verdict [v], the walk returns [v] if there is such a policy
    and [false] if there is none. *)
Lemma authorizeLoop_uniform ps k ctx v :
  Forall (fun p => policyName p = k ->
                   equals T p k ctx = Ok true
                   /\ forall w0, (policyAuthorize T p ctx w0).1 = Ok v) ps ->
  forall w, (authorizeLoop T ps [k] ctx w).1 = Ok (v && existsb (named k) ps).
Proof.
  induction 1 as [| p ps Hp _ IH]; intros w.
  { simpl. by rewrite andb_false_r. }
  cbn [authorizeLoop existsb]. unfold named at 1.
  destruct (String.eqb_spec (policyName p) k) as [Hk | Hk].
  - destruct (Hp Hk) as [Heq Hv].
    destruct (authorizeKeys_single_match p k ctx w v Heq Hv) as [w1 [Hrun _]].
    rewrite (bind_ok _ _ _ _ _ Hrun). destruct v; [done |]. by rewrite IH.
  - rewrite (bind_ok _ _ _ _ _ (authorizeKeys_single_other p k ctx w Hk)).
    by rewrite IH.
Qed.

Lemma named_exists k p (ps : list AuthPolicy) :
  p ∈ ps -> policyName p = k -> existsb (named k) ps = true.
Proof.
  intros Hin Hk. apply existsb_exists. exists p. split; [by apply list_elem_of_In |].
  unfold named. by apply String.eqb_eq.
Qed.

Lemma routeCheck_single d info w :
  checkUserAccessToRoute T sched [d] info w
  = match executeAuthorizer T (inl d) (fixContext d info) w with
    | (Ok true, w1) => (Ok tt, w1)
    | (Ok false, w1) => throwAuthError info None w1
    | (Throw e, w1) => (Throw e, w1)
    end.
Proof.
  unfold checkUserAccessToRoute. unfold bind at 1.
  rewrite routeConditions_single. unfold bind.
  by destruct (executeAuthorizer T (inl d) (fixContext d info) w) as [[[|] | e] w1].
Qed.

Lemma user_fixContext d info : user (fixContext d info) = user info.
Proof. unfold fixContext. by destruct (location d). Qed.

(** X5. A route whose one decorator names [Public] lets every request in,
    with or without a user, when the built-in policy is registered and is
    the only policy of that name. *)
Theorem public_route_open d info w :
  policies d = [Public] ->
  Forall (fun p => policyName p = Public -> p = PublicAuthPolicy) (authPolicies w) ->
  PublicAuthPolicy ∈ authPolicies w ->
  (checkUserAccessToRoute T sched [d] info w).1 = Ok tt.
Proof.
  intros Hd Honly Hin. rewrite routeCheck_single.
  pose proof (authorizeLoop_uniform (rev (authPolicies w)) Public
                (fixContext d info) true) as Hrun.
  unfold executeAuthorizer. rewrite Hd, PolicyAuthorizer_authorize_unfold.
  rewrite (named_exists Public PublicAuthPolicy) in Hrun;
    [| by apply elem_of_rev | done].
  specialize (Hrun ltac:(apply Forall_rev; eapply Forall_impl; [exact Honly |];
                         intros p Hp Hname; rewrite (Hp Hname); done) (reversed w)).
  destruct (authorizeLoop T _ _ _ _) as [[[|] | e] w1]; simpl in Hrun; done.
Qed.

(** Handed no decorator, the route check has nothing that could grant
    and throws for every request.  The facility never hands the engine
    this list for an application without global default. *)
Lemma no_decorator_no_access info w :
  checkUserAccessToRoute T sched [] info w
  = (Throw (HttpStatusError
              (match user info with None => 403 | Some _ => 401 end)
              (match user info with
               | None => "Forbidden"
               | Some _ => "Unauthorized"
               end)), w).
Proof.
  unfold checkUserAccessToRoute, routeConditions, bind. cbn [startWalks].
  unfold ret. cbn [fst snd earliest]. rewrite awaitAll_none.
  apply throwAuthError_eq.
Qed.



(** X6. With the global default [Authenticated] a route without route-scoped
    decorators admits exactly the requests that carry a user, and answers
    the others with 403. *)
Theorem authenticated_default rt info w :
  routeScoped (method_decorators (action rt)) = [] ->
  routeScoped (ctl_decorators (controller rt)) = [] ->
  Forall (fun p => policyName p = Authenticated -> p = AuthenticatedAuthPolicy)
    (authPolicies w) ->
  AuthenticatedAuthPolicy ∈ authPolicies w ->
  (checkUserAccessToRoute T sched
     (getRouteAuthorizeDecorators rt (Some (GlobalName Authenticated))) info w).1
  = match user info with
    | Some _ => Ok tt
    | None => Throw (HttpStatusError 403 "Forbidden")
    end.
Proof.
  intros Ha Hc Honly Hin.
  assert (Hsel : getRouteAuthorizeDecorators rt (Some (GlobalName Authenticated))
                 = [globalDecoratorOf (GlobalName Authenticated)]).
  { unfold getRouteAuthorizeDecorators. fold (routeScoped (method_decorators (action rt))).
    fold (routeScoped (ctl_decorators (controller rt))). by rewrite Ha, Hc. }
  rewrite Hsel, routeCheck_single.
  set (d := globalDecoratorOf (GlobalName Authenticated)).
  pose proof (authorizeLoop_uniform (rev (authPolicies w)) Authenticated
                (fixContext d info) (bool_decide (is_Some (user info)))) as Hrun.
  unfold executeAuthorizer. change (policies d) with [Authenticated].
  rewrite PolicyAuthorizer_authorize_unfold.
  rewrite (named_exists Authenticated AuthenticatedAuthPolicy) in Hrun;
    [| by apply elem_of_rev | done].
  rewrite andb_true_r in Hrun.
  specialize (Hrun ltac:(apply Forall_rev; eapply Forall_impl; [exact Honly |];
                         intros p Hp Hname; rewrite (Hp Hname); split; [done |];
                         intros w0; simpl; by rewrite ?user_fixContext) (reversed w)).
  destruct (authorizeLoop T _ _ _ _) as [[[|] | e] w1]; simpl in Hrun;
    [| | done]; injection Hrun as Hrun; rewrite ?throwAuthError_eq;
    destruct (user info); cbv in Hrun; simpl; congruence.
Qed.

(** X7. An authorize decorator that names no policy: on a route it denies
    every request; on a parameter or property it denies every present
    value of a request that is not a GET; read-scoped, it leaves the
    property unconditionally readable. *)
Theorem authorize_without_names :
  (forall d info w,
      policies d = [] ->
      checkUserAccessToRoute T sched [d] info w
      = (Throw (HttpStatusError
                  (match user info with None => 403 | Some _ => 401 end)
                  (match user info with
                   | None => "Forbidden"
                   | Some _ => "Unauthorized"
                   end)), reversed w))
  /\ (forall v meta ctx w,
        isNullish v = false -> http_method (info ctx) <> "GET" ->
        omap (createDecoratorFilter (hasAccess AccessWrite)) (decorators meta) <> [] ->
        Forall (fun d => policies d = [])
          (omap (createDecoratorFilter (hasAccess AccessWrite)) (decorators meta)) ->
        checkParameter T v meta ctx w = (Ok [join "." (path ctx)], reversed w))
  /\ (forall prop,
        Forall (fun d => policies d = [])
          (omap (createDecoratorFilter (hasAccess AccessRead)) (decorators prop)) ->
        createPropertyNode prop = (name prop, AuthorizerBool true)).
Proof.
  split.
  { intros d info w Hd. rewrite routeCheck_single. unfold executeAuthorizer.
    rewrite Hd, PolicyAuthorizer_authorize_unfold, authorizeLoop_no_names.
    apply throwAuthError_eq. }
  split.
  { intros v meta ctx w Hv Hget Hsome Hall.
    apply checkParameter_denied; [done | done |].
    unfold writeDenied.
    destruct (omap _ (decorators meta)) as [| d ds] eqn:Hdecs; [done |].
    cbn [length Nat.ltb Nat.leb]. unfold executeAuthorizer.
    assert (Hnames : concat (map policies (d :: ds)) = []).
    { clear -Hall. induction Hall as [| x l Hx _ IH]; [done |]. simpl.
      by rewrite Hx, IH. }
    rewrite Hnames. unfold bind.
    by rewrite PolicyAuthorizer_authorize_unfold, authorizeLoop_no_names. }
  intros prop Hall. unfold createPropertyNode.
  assert (Hnames : concat (map policies
            (omap (createDecoratorFilter (hasAccess AccessRead)) (decorators prop))) = []).
  { induction Hall as [| x l Hx _ IH]; [done |]. simpl. by rewrite Hx, IH. }
  by rewrite Hnames.
Qed.

(** *** Readonly members, GET requests, relations *)

(** X8. A member whose only write-scoped decorator is the one of
    [authorize.readonly()] cannot be written by anybody: every present
    value of a request that is not a GET is reported, whoever the user,
    as long as no other policy goes by the reserved name. *)
Theorem readonly_never_writable v meta ctx w nargs target :
  isNullish v = false -> http_method (info ctx) <> "GET" ->
  omap (createDecoratorFilter (hasAccess AccessWrite)) (decorators meta)
  = [authorizeReadonly nargs target] ->
  Forall (fun p => policyName p = AuthorizeReadonly -> p = ReadonlyAuthPolicy)
    (authPolicies w) ->
  (checkParameter T v meta ctx w).1 = Ok [join "." (path ctx)].
Proof.
  intros Hv Hget Hdecs Honly.
  rewrite checkParameter_unfold, Hv.
  destruct (String.eqb_spec (http_method (info ctx)) "GET"); [contradiction |].
  unfold bind, writeDenied. rewrite Hdecs. cbn [length Nat.ltb Nat.leb].
  unfold bind, executeAuthorizer.
  change (concat (map policies [authorizeReadonly nargs target]))
    with [AuthorizeReadonly].
  rewrite PolicyAuthorizer_authorize_unfold.
  pose proof (authorizeLoop_uniform (rev (authPolicies w)) AuthorizeReadonly
                (createContext ctx v meta) false) as Hrun.
  specialize (Hrun ltac:(apply Forall_rev; eapply Forall_impl; [exact Honly |];
                         intros p Hp Hname; rewrite (Hp Hname); done) (reversed w)).
  destruct (authorizeLoop T _ _ _ _) as [[[|] | e] w1]; simpl in Hrun; done.
Qed.

Lemma checkParameter_get v meta ctx w :
  http_method (info ctx) = "GET" -> checkParameter T v meta ctx w = (Ok [], w).
Proof.
  intros Hget. rewrite checkParameter_unfold, Hget. by destruct (isNullish v).
Qed.

Lemma checkParameters_get meta :
  forall values ctx w,
    http_method (info ctx) = "GET" ->
    checkParameters T meta values ctx w = (Ok [], w).
Proof.
  induction meta as [| prop rest IH]; intros values ctx w Hget; [done |].
  cbn [checkParameters].
  rewrite (bind_ok _ _ _ _ _
             (checkParameter_get (hd JUndefined values) prop
                (withPath ctx (path ctx ++ [name prop])) w Hget)).
  rewrite (bind_ok _ _ _ _ _ (IH _ _ w Hget)). done.
Qed.

(** X9. On a GET request the parameter check passes whatever the parameters,
    their values and the user, and evaluates nothing. *)
Theorem get_skips_parameter_check meta values info w :
  http_method info = "GET" ->
  checkUserAccessToParameters T meta values info w = (Ok tt, w).
Proof.
  intros Hget. unfold checkUserAccessToParameters.
  by rewrite (bind_ok _ _ _ _ _
                (checkParameters_get meta values (rootContext info) w Hget)).
Qed.

(** X10. A relation is checked as a whole and never looked into: whatever its
    value holds, the walk reports its own path or nothing. *)
Theorem relation_not_descended v meta ctx w paths w' :
  existsb isRelationDecorator (decorators meta) = true ->
  checkParameter T v meta ctx w = (Ok paths, w') ->
  paths = [] \/ paths = [join "." (path ctx)].
Proof.
  intros Hrel. rewrite checkParameter_unfold.
  destruct (isNullish v); [intros [= <- _]; by left |].
  destruct (String.eqb _ _); [intros [= <- _]; by left |].
  unfold bind. destruct (writeDenied T meta v ctx w) as [[[|] | e] w1]; [| |done].
  - intros [= <- _]. by right.
  - rewrite Hrel. intros [= <- _]. by left.
Qed.

(** *** Entity policies *)

Lemma authorizeKeys_equals_throws p k keys ctx w e :
  k ∈ keys -> equals T p k ctx = Throw e ->
  authorizeKeys T p keys ctx w = (Throw e, w).
Proof.
  intros Hin Hthrow. induction keys as [| a keys IH]; [by apply elem_of_nil in Hin |].
  cbn [authorizeKeys].
  destruct (decide (a = k)) as [-> | Hne].
  - by rewrite Hthrow.
  - apply elem_of_cons in Hin as [-> | Hin]; [done |].
    assert (Ha : equals T p a ctx = Ok false).
    { apply equals_other_name. intros Hname.
      destruct p; simpl in Hthrow; try discriminate.
      simpl in Hname. subst a.
      destruct (String.eqb_spec k name0); [congruence | discriminate]. }
    rewrite Ha, bind_lift_ok. by apply IH.
Qed.

(** X11. An entity policy that is asked for cannot be resolved without its
    configuration: on a route or a write check the action must declare an
    entity provider, on a read check the parent entity must have a
    primary identifier.  Without it the walk throws an [Error] that names
    the action, respectively the entity, before any evaluation. *)
Theorem entity_policy_needs_configuration n entity f keys ctx w :
  n ∈ keys ->
  (ctx_access ctx <> AccessRead ->
   findEntityPolicyProvider (method_decorators (meta_action (metadata ctx))) = None ->
   authorizeKeys T (EntityAuthPolicy n entity f) keys ctx w
   = (Throw (Error ("Action " +:+ ctl_name (meta_controller (metadata ctx)) +:+ "."
                      +:+ method_name (meta_action (metadata ctx))
                      +:+ " doesn't have Entity Policy Provider information")), w))
  /\ (forall cur parent,
        ctx_access ctx = AccessRead ->
        current (metadata ctx) = Some cur -> cur_parent cur = Some parent ->
        getIdProp T parent = None ->
        authorizeKeys T (EntityAuthPolicy n entity f) keys ctx w
        = (Throw (Error ("Entity " +:+ class_name parent
                           +:+ " doesn't have primary ID information required for entity policy")),
           w)).
Proof.
  intros Hin. split.
  - intros Hacc Hnone. apply (authorizeKeys_equals_throws _ n); [done |].
    simpl. rewrite String.eqb_refl. unfold getEntity. rewrite Hnone.
    by destruct (ctx_access ctx).
  - intros cur parent Hacc Hcur Hparent Hid.
    apply (authorizeKeys_equals_throws _ n); [done |].
    simpl. rewrite String.eqb_refl. unfold getEntity.
    by rewrite Hacc, Hcur, Hparent, Hid.
Qed.






(** *** What the engine does to the shared array *)

Section Frame.

Context (R : World -> World -> Prop).
Hypothesis R_refl : forall w, R w w.
Hypothesis R_trans : forall w1 w2 w3, R w1 w2 -> R w2 w3 -> R w1 w3.
Hypothesis R_authorize :
  forall keys ctx w, R w (PolicyAuthorizer_authorize T keys ctx w).2.
Hypothesis R_reverse : forall w, R w (reversePolicies w).2.
Hypothesis R_log : forall c w, R w (logCall c w).2.

Lemma framed_ret {A} (a : A) : framed R (ret a).
Proof. intros w. apply R_refl. Qed.

Lemma framed_lift {A} (r : Result A) : framed R (lift r).
Proof. intros w. apply R_refl. Qed.

Lemma framed_throw {A} e : framed R (@throw A e).
Proof. intros w. apply R_refl. Qed.

Lemma framed_bind {A B} (m : M A) (k : A -> M B) :
  framed R m -> (forall a, framed R (k a)) -> framed R (bind m k).
Proof.
  intros Hm Hk w. unfold bind. specialize (Hm w).
  destruct (m w) as [[a | e] w1]; simpl in *; [|done].
  eapply R_trans; [exact Hm | apply Hk].
Qed.

Lemma framed_ext {A} (m m' : M A) :
  (forall w, m w = m' w) -> framed R m' -> framed R m.
Proof. intros E H w. rewrite E. apply H. Qed.

Lemma framed_throwAuthError {A} info msg : framed R (@throwAuthError A info msg).
Proof. intros w. rewrite throwAuthError_eq. apply R_refl. Qed.

Lemma framed_writeDenied meta v ctx : framed R (writeDenied T meta v ctx).
Proof.
  unfold writeDenied. case_match; [|apply framed_ret].
  apply framed_bind; [intros w; apply R_authorize | intros; apply framed_ret].
Qed.

Lemma framed_collectIndexed f items i :
  Forall (fun val => forall j, framed R (f val j)) items ->
  framed R (collectIndexed f items i).
Proof.
  intros H. revert i. induction H as [| val items Hval _ IH]; intros i; simpl;
    [apply framed_ret |].
  apply framed_bind; [apply Hval |]. intros issues.
  apply framed_bind; [apply IH |]. intros; apply framed_ret.
Qed.

Lemma framed_checkParameters_from meta values ctx :
  Forall (fun v => forall m c, framed R (checkParameter T v m c)) values ->
  framed R (checkParameters T meta values ctx).
Proof.
  revert values. induction meta as [| prop rest IH]; intros values H; simpl;
    [apply framed_ret |].
  assert (Hhd : forall m c, framed R (checkParameter T (hd JUndefined values) m c))
    by (destruct H; [intros; apply framed_ret | done]).
  assert (Htl : Forall (fun v => forall m c, framed R (checkParameter T v m c))
                  (tl values))
    by (destruct H; [constructor | done]).
  apply framed_bind; [apply Hhd |].
  intros issues. apply framed_bind; [|intros; apply framed_ret].
  by apply IH.
Qed.

Lemma framed_checkParameter v :
  forall meta ctx, framed R (checkParameter T v meta ctx).
Proof.
  induction v as [ | | b | n | s | items IH | ctor fields IH] using JsValue_nested_ind;
    intros meta ctx;
    try (apply framed_ret);
    (eapply framed_ext; [intros w; apply checkParameter_unfold |]); simpl;
    (case_match; [apply framed_ret |]);
    (apply framed_bind; [apply framed_writeDenied |]);
    (intros [|]; [apply framed_ret |]);
    (case_match; [apply framed_ret |]);
    unfold checkChildren;
    (destruct (type meta) as [| c | elem]; [apply framed_ret | |]);
    try apply framed_ret;
    try (apply framed_checkParameters_from;
         apply Forall_map, Forall_forall; intros; apply framed_ret).
  - apply framed_collectIndexed. eapply Forall_impl; [exact IH |].
    intros val Hval j. apply Hval.
  - apply framed_checkParameters_from.
    apply Forall_map, Forall_forall. intros prop _ m c0. simpl.
    induction IH as [| [k x] fields Hx _ IHfields]; simpl; [apply framed_ret |].
    destruct (String.eqb k (name prop)); [apply Hx | apply IHfields].
Qed.

Lemma framed_checkParameters meta values ctx :
  framed R (checkParameters T meta values ctx).
Proof.
  apply framed_checkParameters_from, Forall_forall.
  intros v _. apply framed_checkParameter.
Qed.

Lemma framed_getAuthorize authorizer ctx : framed R (getAuthorize T authorizer ctx).
Proof.
  destruct authorizer; simpl; [apply framed_ret | intros w; apply R_authorize].
Qed.

Lemma framed_filterItems f items :
  (forall item, framed R (f item)) -> framed R (filterItems f items).
Proof.
  intros Hf. induction items as [| item rest IH]; simpl; [apply framed_ret |].
  apply framed_bind; [apply Hf |]. intros val.
  apply framed_bind; [apply IH |]. intros; apply framed_ret.
Qed.

Lemma framed_filterProperties raw ctx props :
  Forall (fun p => forall r c, framed R (filterType T cfg r (nodeType p) c)) props ->
  forall result, framed R (filterProperties T cfg raw ctx props result).
Proof.
  induction 1 as [| [n m o a t] props Hp _ IH]; intros result; simpl;
    [apply framed_ret |].
  apply framed_bind; [apply framed_lift |]. intros v.
  destruct (isNullish v); [apply IH |].
  apply framed_bind; [apply framed_getAuthorize |].
  intros [|]; [|apply IH].
  apply framed_bind; [apply Hp |]. intros candidate. apply IH.
Qed.

Lemma framed_filterType node :
  forall raw ctx, framed R (filterType T cfg raw node ctx).
Proof.
  induction node as [| child IH | props IH] using FilterNode_nested_ind;
    intros raw ctx.
  - apply framed_ret.
  - destruct raw; simpl;
      try (apply framed_bind; [apply framed_lift | intros; apply framed_throw]).
    apply framed_bind; [|intros; apply framed_ret].
    apply framed_filterItems. intros item. apply IH.
  - rewrite filterType_class.
    apply framed_bind; [|intros; apply framed_ret].
    by apply framed_filterProperties.
Qed.

Lemma framed_attempt {A} (m : M A) : framed R m -> framed R (attempt m).
Proof. intros Hm w. specialize (Hm w). unfold attempt. by destruct (m w). Qed.

Lemma framed_policyAuthorize p ctx : framed R (policyAuthorize T p ctx).
Proof. intros w. rewrite policyAuthorize_settled. apply R_refl. Qed.

Lemma framed_authorizeKeys p keys ctx : framed R (authorizeKeys T p keys ctx).
Proof.
  induction keys as [| k keys IH]; simpl; [apply framed_ret |].
  apply framed_bind; [apply framed_lift |]. intros [|]; [|done].
  apply framed_bind; [intros w; apply R_log |]. intros _.
  apply framed_bind; [apply framed_policyAuthorize |].
  intros [|]; [apply framed_ret | done].
Qed.

Lemma framed_authorizeLoop ps keys ctx : framed R (authorizeLoop T ps keys ctx).
Proof.
  induction ps as [| p ps IH]; simpl; [apply framed_ret |].
  apply framed_bind; [apply framed_authorizeKeys |].
  intros [|]; [apply framed_ret | done].
Qed.

Lemma framed_tryNames index p rest ctx : framed R (tryNames T index p rest ctx).
Proof.
  induction rest as [| k rest IH]; simpl; [apply framed_ret |].
  destruct (equals T p k ctx) as [[|] | e]; [| done | apply framed_ret].
  apply framed_bind; [intros w; apply R_log | intros; apply framed_ret].
Qed.

Lemma framed_tryPolicies ps keys ctx :
  forall index, framed R (tryPolicies T index ps keys ctx).
Proof.
  induction ps as [| p ps IH]; intros index; simpl; [apply framed_ret |].
  apply framed_bind; [apply framed_tryNames |].
  intros [walk |]; [apply framed_ret | apply IH].
Qed.

Lemma framed_policiesFrom index : framed R (policiesFrom index).
Proof. intros w. apply R_refl. Qed.

Lemma framed_startWalk keys ctx : framed R (startWalk T keys ctx).
Proof.
  unfold startWalk. apply framed_bind; [exact R_reverse |].
  intros ps. apply framed_tryPolicies.
Qed.

Lemma framed_resumeWalk keys ctx walk : framed R (resumeWalk T keys ctx walk).
Proof.
  destruct walk as [r | index p rest called]; simpl; [apply framed_ret |].
  destruct (settled T p called ctx) as [[|] | e]; try apply framed_ret.
  apply framed_bind; [apply framed_tryNames |].
  intros [walk |]; [apply framed_ret |].
  apply framed_bind; [apply framed_policiesFrom |].
  intros ps. apply framed_tryPolicies.
Qed.

Lemma framed_completeWalk keys ctx walk : framed R (completeWalk T keys ctx walk).
Proof.
  destruct walk as [r | index p rest called]; simpl; [apply framed_ret |].
  destruct (settled T p called ctx) as [[|] | e]; try apply framed_ret.
  apply framed_attempt, framed_bind; [apply framed_authorizeKeys |].
  intros [|]; [apply framed_ret |].
  apply framed_bind; [apply framed_policiesFrom |].
  intros ps. apply framed_authorizeLoop.
Qed.

Lemma framed_startWalks decorators :
  forall info, framed R (startWalks T decorators info).
Proof.
  induction decorators as [| x rest IH]; intros info; simpl; [apply framed_ret |].
  apply framed_bind; [apply framed_startWalk |]. intros walk.
  apply framed_bind; [apply IH |]. intros; apply framed_ret.
Qed.

Lemma framed_resumeAt walks ctx :
  forall turn, framed R (resumeAt T turn walks ctx).
Proof.
  induction walks as [| [keys walk] walks IH]; intros turn; simpl;
    [apply framed_ret |].
  destruct turn as [| turn].
  - apply framed_bind; [apply framed_resumeWalk | intros; apply framed_ret].
  - apply framed_bind; [apply IH | intros; apply framed_ret].
Qed.

Lemma framed_completeWalks walks ctx : framed R (completeWalks T walks ctx).
Proof.
  induction walks as [| [keys walk] walks IH]; simpl; [apply framed_ret |].
  apply framed_bind; [apply framed_completeWalk |]. intros r.
  apply framed_bind; [apply IH | intros; apply framed_ret].
Qed.

Lemma framed_awaitAll ctx turns :
  forall rejected walks, framed R (awaitAll T turns rejected walks ctx).
Proof.
  induction turns as [| turn turns IH]; intros rejected walks; simpl.
  - apply framed_bind; [apply framed_completeWalks |]. intros results.
    destruct rejected; [apply framed_throw |].
    destruct (firstRejection results); [apply framed_throw | apply framed_ret].
  - apply framed_bind; [apply framed_resumeAt |]. intros walks'. apply IH.
Qed.

Lemma framed_routeConditions decorators info :
  framed R (routeConditions T sched decorators info).
Proof.
  unfold routeConditions. apply framed_bind; [apply framed_startWalks |].
  intros started. apply framed_awaitAll.
Qed.

Lemma framed_checkAuthorize ctx : framed R (checkAuthorize T cfg sched ctx).
Proof.
  unfold checkAuthorize. case_match; [|apply framed_ret].
  apply framed_bind.
  - unfold checkUserAccessToRoute.
    apply framed_bind; [apply framed_routeConditions |].
    intros conditions. case_match; [apply framed_ret | apply framed_throwAuthError].
  - intros _. unfold checkUserAccessToParameters.
    apply framed_bind; [apply framed_checkParameters |].
    intros paths. case_match; [apply framed_throwAuthError | apply framed_ret].
Qed.

Lemma framed_responseAuthorize raw ctx : framed R (responseAuthorize T cfg raw ctx).
Proof.
  unfold responseAuthorize. repeat case_match; try apply framed_ret;
    (apply framed_bind; [| intros; apply framed_ret]);
    try apply framed_ret; apply framed_filterType.
Qed.

End Frame.

Lemma sameOrReversed_refl w : sameOrReversed w w.
Proof. by left. Qed.

Lemma sameOrReversed_trans w1 w2 w3 :
  sameOrReversed w1 w2 -> sameOrReversed w2 w3 -> sameOrReversed w1 w3.
Proof.
  unfold sameOrReversed. intros [-> | ->] [-> | ->]; rewrite ?rev_involutive; auto.
Qed.

Lemma sameOrReversed_authorize keys ctx w :
  sameOrReversed w (PolicyAuthorizer_authorize T keys ctx w).2.
Proof. right. apply PolicyAuthorizer_authorize_flips. Qed.

Lemma sameOrReversed_Forall (P : AuthPolicy -> Prop) w w' :
  sameOrReversed w w' -> Forall P (authPolicies w) -> Forall P (authPolicies w').
Proof. intros [-> | ->]; [done | apply Forall_rev]. Qed.

(** X13. The request guard, the response filter and the middleware around any
    action that leaves the policy array alone never add, drop or replace
    a registered policy: they leave the array as it was or reversed. *)
Theorem registry_same_or_reversed ctx w :
  sameOrReversed w (checkAuthorize T cfg sched ctx w).2
  /\ (forall raw, sameOrReversed w (responseAuthorize T cfg raw ctx w).2)
  /\ (forall proceed,
        (forall w0, sameOrReversed w0 (proceed w0).2) ->
        sameOrReversed w (execute T cfg sched proceed ctx w).2).
Proof.
  pose proof sameOrReversed_refl as Hr.
  pose proof sameOrReversed_trans as Ht.
  pose proof sameOrReversed_authorize as Ha.
  assert (Hv : forall w0, sameOrReversed w0 (reversePolicies w0).2) by (by right).
  assert (Hl : forall c w0, sameOrReversed w0 (logCall c w0).2) by (by left).
  split; [by apply framed_checkAuthorize |].
  split; [intros raw; by apply framed_responseAuthorize |].
  intros proceed Hproceed. unfold execute.
  apply (framed_bind sameOrReversed Ht); [by apply framed_checkAuthorize |].
  intros _. apply (framed_bind sameOrReversed Ht); [exact Hproceed |].
  intros result. by apply framed_responseAuthorize.
Qed.

(** *** The filtered object *)

Lemma elem_of_assignField_keys fields k v x :
  x ∈ (assignField fields k v).*1 <-> x ∈ fields.*1 \/ x = k.
Proof.
  induction fields as [| [k' v'] fields IH]; simpl.
  - rewrite list_elem_of_singleton. split; [by right | intros [H | H]; [|done]].
    by apply elem_of_nil in H.
  - destruct (String.eqb_spec k' k) as [-> | Hne]; simpl.
    + rewrite !elem_of_cons. tauto.
    + rewrite !elem_of_cons, IH. tauto.
Qed.

Lemma NoDup_assignField fields k v :
  NoDup fields.*1 -> NoDup (assignField fields k v).*1.
Proof.
  induction fields as [| [k' v'] fields IH]; simpl.
  - intros _. apply NoDup_singleton.
  - rewrite NoDup_cons. intros [Hnot Hnd].
    destruct (String.eqb_spec k' k) as [-> | Hne]; simpl.
    + by apply NoDup_cons.
    + apply NoDup_cons. split; [|by apply IH].
      rewrite elem_of_assignField_keys. intros [H | H]; [done | congruence].
Qed.

Lemma Forall_assignField (P : string * JsValue -> Prop) fields k v :
  Forall P fields -> P (k, v) -> Forall P (assignField fields k v).
Proof.
  intros H Hkv. induction H as [| [k' v'] fields Hx Hrest IH]; simpl.
  - by constructor.
  - destruct (String.eqb_spec k' k) as [-> | Hne]; by constructor.
Qed.

(** What the loop over the properties keeps true of the object it
    builds. *)
Lemma filterProperties_keys raw ctx (allowed : list string) props :
  Forall (fun p => nodeName p ∈ allowed) props ->
  forall result w fields w',
    NoDup result.*1 ->
    Forall (fun kv => kv.1 ∈ allowed /\ kv.2 <> JUndefined) result ->
    filterProperties T cfg raw ctx props result w = (Ok fields, w') ->
    NoDup fields.*1
    /\ Forall (fun kv => kv.1 ∈ allowed /\ kv.2 <> JUndefined) fields.
Proof.
  induction 1 as [| [n m o a t] props Hn _ IH]; intros result w fields w' Hnd Hall;
    simpl.
  { by intros [= <- _]. }
  simpl in Hn. unfold bind at 1, lift.
  destruct (getProp raw n) as [v | e]; [|done].
  destruct (isNullish v); [by apply IH |].
  unfold bind at 1.
  destruct (getAuthorize T a _ w) as [[[|] | e] w1]; [| by apply IH | done].
  unfold bind at 1.
  destruct (filterType T cfg v t ctx w1) as [[candidate | e] w2]; [|done].
  destruct (isUndefined (transform cfg m o candidate)) eqn:Hu; [by apply IH |].
  apply IH; [by apply NoDup_assignField |].
  apply Forall_assignField; [done |].
  split; [done |]. simpl. intros Heq. by rewrite Heq in Hu.
Qed.

(** X14. The object the walk of a class node returns is a plain [Object] with
    at least one property; its keys are names of properties declared on
    the node, each once, and none of its values is [undefined]: what the
    raw value carries beyond the declared properties never gets out. *)
Theorem filtered_object_keys raw props ctx w c fields w' :
  filterType T cfg raw (ClassNode props) ctx w = (Ok (JObj c fields), w') ->
  c = "Object" /\ fields <> []
  /\ NoDup fields.*1
  /\ Forall (fun kv => kv.1 ∈ map nodeName props /\ kv.2 <> JUndefined) fields.
Proof.
  rewrite filterType_class. unfold bind.
  destruct (filterProperties T cfg raw ctx props [] w) as [[result | e] w1] eqn:Hrun;
    [|done].
  destruct result as [| kv result]; [done |]. simpl. intros [= <- <- <-].
  split; [done |]. split; [done |].
  assert (Hall : Forall (fun p => nodeName p ∈ map nodeName props) props).
  { apply Forall_forall. intros p Hp.
    by apply list_elem_of_In, in_map, list_elem_of_In. }
  exact (filterProperties_keys raw ctx _ props Hall [] w _ _
           (NoDup_nil_2 (A := string)) (Forall_nil_2 _) Hrun).
Qed.

Lemma writeonly_denied ctx w :
  Forall (fun p => policyName p = AuthorizeWriteonly -> p = WriteonlyAuthPolicy)
    (authPolicies w) ->
  (getAuthorize T (AuthorizerPolicies [AuthorizeWriteonly]) ctx w).1 = Ok false.
Proof.
  intros Honly. simpl. rewrite PolicyAuthorizer_authorize_unfold.
  pose proof (authorizeLoop_uniform (rev (authPolicies w)) AuthorizeWriteonly
                ctx false) as Hrun.
  apply Hrun. apply Forall_rev. eapply Forall_impl; [exact Honly |].
  intros p Hp Hname. by rewrite (Hp Hname).
Qed.

Lemma filterProperties_without raw ctx k props :
  Forall (fun p => nodeName p = k ->
                   nodeAuthorizer p = AuthorizerPolicies [AuthorizeWriteonly]) props ->
  forall result w fields w',
    Forall (fun p => policyName p = AuthorizeWriteonly -> p = WriteonlyAuthPolicy)
      (authPolicies w) ->
    k ∉ result.*1 ->
    filterProperties T cfg raw ctx props result w = (Ok fields, w') ->
    k ∉ fields.*1.
Proof.
  induction 1 as [| [n m o a t] props Hn _ IH]; intros result w fields w' Hreg Hk;
    simpl.
  { by intros [= <- _]. }
  simpl in Hn. unfold bind at 1, lift.
  destruct (getProp raw n) as [v | e]; [|done].
  destruct (isNullish v); [by apply IH |].
  unfold bind at 1.
  pose proof (framed_getAuthorize sameOrReversed sameOrReversed_refl
                sameOrReversed_authorize a
                (propertyContext ctx v raw m o) w) as Hframe.
  destruct (getAuthorize T a _ w) as [[[|] | e] w1] eqn:Hrun; simpl in Hframe;
    [| apply IH; [by eapply sameOrReversed_Forall | done] | done].
  assert (Hnk : n <> k).
  { intros Heq. specialize (Hn Heq). subst a.
    pose proof (writeonly_denied (propertyContext ctx v raw m o) w Hreg) as Hden.
    rewrite Hrun in Hden. done. }
  unfold bind at 1.
  pose proof (framed_filterType sameOrReversed sameOrReversed_refl
                sameOrReversed_trans sameOrReversed_authorize t v ctx w1) as Hframe2.
  destruct (filterType T cfg v t ctx w1) as [[candidate | e] w2]; simpl in Hframe2;
    [|done].
  apply IH.
  - eapply sameOrReversed_Forall; [exact Hframe2 |].
    by eapply sameOrReversed_Forall.
  - destruct (isUndefined _); [done |].
    rewrite elem_of_assignField_keys. intros [H | H]; [done | congruence].
Qed.

(** X15. A property whose read authorizer is the one [authorize.writeonly()]
    compiles to is never part of a response, whoever the user and
    whatever the raw object holds, as long as no other policy goes by the
    reserved name. *)
Theorem writeonly_never_readable raw props ctx k w c fields w' :
  Forall (fun p => nodeName p = k ->
                   nodeAuthorizer p = AuthorizerPolicies [AuthorizeWriteonly]) props ->
  Forall (fun p => policyName p = AuthorizeWriteonly -> p = WriteonlyAuthPolicy)
    (authPolicies w) ->
  filterType T cfg raw (ClassNode props) ctx w = (Ok (JObj c fields), w') ->
  k ∉ fields.*1.
Proof.
  intros Hprops Hreg. rewrite filterType_class. unfold bind.
  destruct (filterProperties T cfg raw ctx props [] w) as [[result | e] w1] eqn:Hrun;
    [|done].
  destruct result as [| kv result]; [done |]. simpl. intros [= <- <- <-].
  eapply (filterProperties_without raw ctx k props Hprops [] w); [done | | exact Hrun].
  apply not_elem_of_nil.
Qed.

(** The authorizer [createPropertyNode] gives a property whose only
    read-scoped decorator is the one of [authorize.writeonly()]. *)
Lemma createPropertyNode_writeonly prop nargs target :
  omap (createDecoratorFilter (hasAccess AccessRead)) (decorators prop)
  = [authorizeWriteonly nargs target] ->
  createPropertyNode prop = (name prop, AuthorizerPolicies [AuthorizeWriteonly]).
Proof. intros H. unfold createPropertyNode. by rewrite H. Qed.

(** *** Reported paths *)

Lemma yields_ret {A} (Q : A -> Prop) a : Q a -> yields Q (ret a).
Proof. intros H w a' w' [= <- _]. exact H. Qed.

Lemma yields_bind {A B} (P : A -> Prop) (Q : B -> Prop) (m : M A) (k : A -> M B) :
  yields P m -> (forall a, P a -> yields Q (k a)) -> yields Q (bind m k).
Proof.
  intros Hm Hk w b w'. unfold bind.
  destruct (m w) as [[a | e] w1] eqn:Hrun; [|done].
  intros H. eapply Hk; [by eapply Hm | exact H].
Qed.

Lemma yields_any {A} (m : M A) : yields (fun _ => True) m.
Proof. done. Qed.

Lemma yields_ext {A} (Q : A -> Prop) (m m' : M A) :
  (forall w, m w = m' w) -> yields Q m' -> yields Q m.
Proof. intros E H w a w'. rewrite E. apply H. Qed.

Lemma extendsPath_self prefix : extendsPath prefix (join "." prefix).
Proof. exists []. by rewrite app_nil_r. Qed.

Lemma extendsPath_below prefix seg s :
  extendsPath (prefix ++ [seg]) s -> extendsPath prefix s.
Proof. intros [suffix ->]. exists (seg :: suffix). by rewrite <- app_assoc. Qed.

Lemma yields_collectIndexed (X : string -> Prop) f items i :
  Forall (fun val => forall j, yields (Forall X) (f val j)) items ->
  yields (Forall X) (collectIndexed f items i).
Proof.
  intros H. revert i. induction H as [| val items Hval _ IH]; intros i; simpl;
    [by apply yields_ret |].
  eapply yields_bind; [apply Hval |]. intros issues Hissues.
  eapply yields_bind; [apply IH |]. intros others Hothers.
  apply yields_ret. by apply Forall_app.
Qed.

Lemma yields_checkParameters_from (X : list string -> string -> Prop) meta :
  forall values ctx,
    Forall (fun v => forall m c, yields (Forall (X (path c))) (checkParameter T v m c))
      values ->
    (forall p seg s, X (p ++ [seg]) s -> X p s) ->
    yields (Forall (X (path ctx))) (checkParameters T meta values ctx).
Proof.
  induction meta as [| prop rest IH]; intros values ctx H Hbelow; simpl;
    [by apply yields_ret |].
  assert (Hhd : forall m c, yields (Forall (X (path c)))
                              (checkParameter T (hd JUndefined values) m c)).
  { destruct H; [|done]. intros m c. by apply yields_ret. }
  assert (Htl : Forall (fun v => forall m c,
                          yields (Forall (X (path c))) (checkParameter T v m c))
                  (tl values))
    by (destruct H; [constructor | done]).
  eapply yields_bind; [apply Hhd |]. intros issues Hissues. simpl in Hissues.
  eapply yields_bind; [by apply IH |]. intros others Hothers.
  apply yields_ret. apply Forall_app. split; [|done].
  eapply Forall_impl; [exact Hissues |]. intros s. apply Hbelow.
Qed.

Lemma yields_checkParameter v :
  forall meta ctx, yields (Forall (extendsPath (path ctx))) (checkParameter T v meta ctx).
Proof.
  induction v as [ | | b | n | s | items IH | ctor fields IH] using JsValue_nested_ind;
    intros meta ctx;
    try (by apply yields_ret);
    (eapply yields_ext; [intros w; apply checkParameter_unfold |]); simpl;
    (case_match; [by apply yields_ret |]);
    (eapply yields_bind; [apply yields_any |]);
    (intros [|] _;
     [apply yields_ret, Forall_singleton, extendsPath_self |]);
    (case_match; [by apply yields_ret |]);
    unfold checkChildren;
    (destruct (type meta) as [| c | elem]; [by apply yields_ret | |]);
    try (by apply yields_ret);
    try (match goal with
         | |- yields _ (checkParameters _ _ _ ?c0) => change (path ctx) with (path c0)
         end;
         apply (yields_checkParameters_from extendsPath);
         [apply Forall_map, Forall_forall; intros; by apply yields_ret
         | apply extendsPath_below]).
  - apply yields_collectIndexed. eapply Forall_impl; [exact IH |].
    intros val Hval j w paths w' Hrun.
    eapply Forall_impl; [eapply Hval; exact Hrun |].
    intros s0. simpl. apply extendsPath_below.
  - match goal with
    | |- yields _ (checkParameters _ _ _ ?c0) => change (path ctx) with (path c0)
    end.
    apply (yields_checkParameters_from extendsPath); [| apply extendsPath_below].
    apply Forall_map, Forall_forall. intros prop _ m c0. simpl.
    induction IH as [| [k x] fields Hx _ IHfields]; simpl; [by apply yields_ret |].
    destruct (String.eqb k (name prop)); [apply Hx | apply IHfields].
Qed.

Lemma checkParameters_paths meta :
  forall values ctx w paths w',
    checkParameters T meta values ctx w = (Ok paths, w') ->
    Forall (fun s => exists prop suffix,
                       prop ∈ meta /\ s = join "." (path ctx ++ name prop :: suffix))
      paths.
Proof.
  induction meta as [| prop rest IH]; intros values ctx w paths w'; simpl.
  { intros [= <- _]. constructor. }
  unfold bind.
  destruct (checkParameter T _ prop _ w) as [[issues | e] w1] eqn:H1; [|done].
  destruct (checkParameters T rest _ ctx w1) as [[others | e] w2] eqn:H2; [|done].
  intros [= <- _]. apply Forall_app. split.
  - pose proof (yields_checkParameter _ _ _ _ _ _ H1) as Hp. simpl in Hp.
    eapply Forall_impl; [exact Hp |].
    intros s [suffix ->]. exists prop, suffix.
    split; [apply list_elem_of_here |]. by rewrite <- app_assoc.
  - eapply Forall_impl; [exact (IH _ _ _ _ _ H2) |].
    intros s [p [suffix [Hin ->]]]. exists p, suffix.
    split; [by apply list_elem_of_further | done].
Qed.

(** X16. Every path the walk of one value reports lies at or below the path
    the walk is at; every path the walk of a parameter list reports
    starts with the name of one of the declared parameters. *)
Theorem reported_paths_start_at_parameter :
  (forall v meta ctx w paths w',
      checkParameter T v meta ctx w = (Ok paths, w') ->
      Forall (fun s => exists suffix, s = join "." (path ctx ++ suffix)) paths)
  /\ (forall meta values info w paths w',
        checkParameters T meta values (rootContext info) w = (Ok paths, w') ->
        Forall (fun s => exists prop suffix,
                           prop ∈ meta /\ s = join "." (name prop :: suffix)) paths).
Proof.
  split.
  { intros v meta ctx w paths w' H. exact (yields_checkParameter v meta ctx _ _ _ H). }
  intros meta values info w paths w' H.
  exact (checkParameters_paths meta _ _ _ _ _ H).
Qed.

(** *** The compiled node of a class *)

Lemma compileProperty_node fuel chain c prop pn :
  compileProperty T fuel chain c prop = Some pn ->
  nodeName pn = name prop
  /\ nodeAuthorizer pn = (createPropertyNode prop).2
  /\ compileType T fuel chain (type prop) = Some (nodeType pn).
Proof.
  unfold compileProperty, createPropertyNode.
  destruct (compileType T fuel chain (type prop)) as [node |]; [|done].
  by intros [= <-].
Qed.

(** X17. The node of a class that is not on the chain lists the declared
    properties of the class, one node each and in declaration order; the
    node of a property carries the authorizer [createPropertyNode] gives
    it and the node of its type compiled under the chain extended by the
    class. *)
Theorem compiled_class_lists_properties fuel chain c props :
  c ∉ chain ->
  compileType T (S fuel) chain (TClass c) = Some (ClassNode props) ->
  map nodeName props = map name (reflect T c)
  /\ Forall2 (fun prop pn =>
                nodeAuthorizer pn = (createPropertyNode prop).2
                /\ compileType T fuel (chain ++ [c]) (type prop) = Some (nodeType pn))
       (reflect T c) props.
Proof.
  intros Hnot. rewrite compileType_class.
  destruct (existsb _ chain) eqn:Hchain.
  { apply onChain_spec in Hchain. contradiction. }
  destruct (mapM _ (reflect T c)) as [nodes |] eqn:Hm; [|done].
  simpl. intros [= <-]. apply mapM_Some in Hm.
  induction Hm as [| prop pn l k Hp _ IH]; [done |].
  apply compileProperty_node in Hp as [Hn [Ha Ht]]. destruct IH as [IHn IHf].
  split; [simpl; by rewrite Hn, IHn |]. by constructor.
Qed.

(** *** The middleware and the responses it leaves alone *)

(** X18. A response is walked only when its status is 200, its body is truthy
    and a type is known for it; any other response comes back as it is,
    with nothing evaluated. *)
Theorem response_left_alone raw ctx w :
  status raw <> 200%Z \/ truthy (body raw) = false \/ resolvedType ctx = None ->
  responseAuthorize T cfg raw ctx w = (Ok raw, w).
Proof.
  unfold responseAuthorize. fold (resolvedType ctx).
  intros [Hs | [Hb | Ht]].
  - destruct (resolvedType ctx); [|done].
    destruct (Z.eqb_spec (status raw) 200); [contradiction | done].
  - destruct (resolvedType ctx); [|done]. by rewrite Hb, andb_false_r.
  - by rewrite Ht.
Qed.

(** X19. The middleware runs the action only after the guard has passed: a
    request the guard rejects gets the guard's error whatever the action
    would have done; an error of the action is passed on as it is; and
    with authorization disabled the action always runs, its response
    still going through the response filter. *)
Theorem middleware_pipeline proceed ctx w :
  (forall e w1,
      checkAuthorize T cfg sched ctx w = (Throw e, w1) ->
      execute T cfg sched proceed ctx w = (Throw e, w1))
  /\ (forall w1 e w2,
        checkAuthorize T cfg sched ctx w = (Ok tt, w1) ->
        proceed w1 = (Throw e, w2) ->
        execute T cfg sched proceed ctx w = (Throw e, w2))
  /\ (forall w1 result w2,
        checkAuthorize T cfg sched ctx w = (Ok tt, w1) ->
        proceed w1 = (Ok result, w2) ->
        execute T cfg sched proceed ctx w = responseAuthorize T cfg result ctx w2)
  /\ (enableAuthorization cfg = false ->
      execute T cfg sched proceed ctx w
      = (let* result := proceed in responseAuthorize T cfg result ctx) w).
Proof.
  unfold execute. split.
  { intros e w1 H. by rewrite (bind_throw _ _ _ _ _ H). }
  split.
  { intros w1 e w2 H Hp. rewrite (bind_ok _ _ _ _ _ H).
    by rewrite (bind_throw _ _ _ _ _ Hp). }
  split.
  { intros w1 result w2 H Hp. rewrite (bind_ok _ _ _ _ _ H).
    by rewrite (bind_ok _ _ _ _ _ Hp). }
  intros Hoff. unfold checkAuthorize. by rewrite Hoff.
Qed.

(** *** The route summary *)

(** X20. The summary of a route follows the route decision: it is absent
    exactly when the decorators of the decision name no policy, and for
    an action with route-scoped decorators it lists their names, joined
    by a comma and a blank, whatever the controller carries and whatever
    the global default is. *)
Theorem summary_follows_route_decision rt globalDecorator :
  (getSummary rt globalDecorator = None
   <-> concat (map policies (getRouteAuthorizeDecorators rt globalDecorator)) = [])
  /\ (forall names,
        names = concat (map policies (routeScoped (method_decorators (action rt)))) ->
        names <> [] ->
        getSummary rt globalDecorator = Some (join ", " names)).
Proof.
  unfold getSummary. split.
  - destruct (concat _) as [| x l]; simpl; split; done.
  - intros names -> Hne.
    assert (Hdecs : routeScoped (method_decorators (action rt)) <> []).
    { intros Hnil. by rewrite Hnil in Hne. }
    unfold getRouteAuthorizeDecorators.
    fold (routeScoped (method_decorators (action rt))).
    rewrite (nonempty_length _ Hdecs).
    destruct (concat _) as [| x l]; [done | done].
Qed.

(** *** The arguments of the authorize decorators *)

Lemma omap_argName names : omap argName (map ArgName names) = names.
Proof. induction names as [| x l IH]; [done |]. simpl. f_equal. exact IH. Qed.

Lemma last_map_ArgName names :
  match last (map ArgName names) with
  | Some (ArgOption _) => False
  | _ => True
  end.
Proof.
  induction names as [| x [| y l] IH]; [done | done |]. exact IH.
Qed.

(** X21. Policy names followed or not by the selector option give a decorator
    with exactly these names, in order, tagged with the names joined by
    a bar and evaluated dynamically: the option is never taken for a
    name and no name is lost, also when there is no name at all. *)
Theorem byPolicies_names names option acc nargs target :
  let args :=
    map ArgName names
    ++ match option with
       | Some applyTo => [ArgOption applyTo]
       | None => []
       end in
  byPolicies args acc nargs target
  = {| policies := names;
       access := acc;
       tag := join "|" names;
       location := locationOf nargs;
       evaluation := Dynamic;
       appliedClass := Some target |}.
Proof.
  intros args. unfold byPolicies, custom.
  assert (Hnames : omap argName
                     match last args with
                     | Some (ArgName _) => args
                     | _ => take (length args - 1) args
                     end = names).
  { unfold args. destruct option as [applyTo |].
    - rewrite last_snoc, length_app. simpl.
      replace (length (map ArgName names) + 1 - 1) with (length (map ArgName names))
        by lia.
      by rewrite take_app_length, omap_argName.
    - rewrite app_nil_r. pose proof (last_map_ArgName names) as Hlast.
      destruct (last (map ArgName names)) as [[s | o] |] eqn:El.
      + apply omap_argName.
      + done.
      + destruct names; [done |]. by apply last_None in El. }
  by rewrite Hnames.
Qed.

End Coverage.

(* ===================================================================== *)
(** ** The further properties on the sample application *)
(* ===================================================================== *)


(** Settles a side condition of the form: of the registered policies
    only the built-in one goes by its reserved name. *)
Ltac only_builtin :=
  repeat (constructor;
          [ let H := fresh in
            intros H; first [reflexivity | vm_compute in H; discriminate H] | ]);
  constructor.


Lemma matching_policies_conflict_witness :
  conflict (shopAdmin Animal) (createPolicy "ShopAdmin") = true.
Proof.
  apply (matching_policies_conflict sampleTable _ _ "ShopAdmin" providerContext);
    vm_compute; reflexivity.
Defined.

Lemma successive_checks_agree_witness :
  let first :=
    executeAuthorizer sampleTable (inl userOrAdmin)
      (routeContext adminRoute (Some adminToken)) startWorld in
  first.1
  = (executeAuthorizer sampleTable (inl userOrAdmin)
       (routeContext adminRoute (Some adminToken)) first.2).1.
Proof.
  intros first. subst first.
  destruct (executeAuthorizer sampleTable _ _ startWorld) as [[b | e] w1] eqn:H1;
    [| vm_compute in H1; discriminate H1].
  simpl.
  destruct (executeAuthorizer sampleTable _ _ w1) as [[b' | e] w2] eqn:H2.
  - simpl. f_equal. exact (successive_checks_agree sampleTable _ _ _ _ _ _ _ H1 H2).
  - injection H1 as _ Hw. subst w1. vm_compute in H2. discriminate H2.
Defined.

Lemma public_route_open_witness :
  (checkUserAccessToRoute sampleTable [0%nat]
     [byPolicies [ArgName Public] AccessRoute 3 AnimalController]
     (routeContext publicRoute None) startWorld).1 = Ok tt.
Proof.
  apply (public_route_open sampleTable [0%nat]); [reflexivity | only_builtin |].
  vm_compute. apply list_elem_of_here.
Defined.

Lemma authenticated_default_witness :
  (checkUserAccessToRoute sampleTable [0%nat]
     (getRouteAuthorizeDecorators (sampleRoute []) (Some (GlobalName Authenticated)))
     (routeContext [] (Some userToken)) startWorld).1 = Ok tt
  /\ (checkUserAccessToRoute sampleTable [0%nat]
        (getRouteAuthorizeDecorators (sampleRoute []) (Some (GlobalName Authenticated)))
        (routeContext [] None) startWorld).1
     = Throw (HttpStatusError 403 "Forbidden").
Proof.
  split.
  - refine (authenticated_default sampleTable [0%nat] (sampleRoute [])
              (routeContext [] (Some userToken)) startWorld _ _ _ _);
      [reflexivity | reflexivity | only_builtin |].
    vm_compute. apply list_elem_of_further, list_elem_of_here.
  - refine (authenticated_default sampleTable [0%nat] (sampleRoute [])
              (routeContext [] None) startWorld _ _ _ _);
      [reflexivity | reflexivity | only_builtin |].
    vm_compute. apply list_elem_of_further, list_elem_of_here.
Defined.

Lemma authorize_without_names_witness :
  checkUserAccessToRoute sampleTable [0%nat] [byPolicies [] AccessRoute 3 AnimalController]
    (routeContext [] (Some adminToken)) startWorld
  = (Throw (HttpStatusError 401 "Unauthorized"), reversed startWorld)
  /\ checkParameter sampleTable (JNum 1)
       (property "id" TValue [DAuthorize (authorizeWrite [] 2 Animal)])
       (writeContext (Some adminToken)) startWorld
     = (Ok ["data"], reversed startWorld)
  /\ createPropertyNode (property "id" TValue [DAuthorize (authorizeRead [] 2 Animal)])
     = ("id", AuthorizerBool true).
Proof.
  destruct (authorize_without_names sampleTable [0%nat]) as [Hroute [Hwrite Hread]].
  split; [| split].
  - exact (Hroute (byPolicies [] AccessRoute 3 AnimalController)
             (routeContext [] (Some adminToken)) startWorld eq_refl).
  - refine (Hwrite (JNum 1)
              (property "id" TValue [DAuthorize (authorizeWrite [] 2 Animal)])
              (writeContext (Some adminToken)) startWorld eq_refl _ _ _).
    + vm_compute. discriminate.
    + vm_compute. discriminate.
    + vm_compute. repeat constructor.
  - refine (Hread (property "id" TValue [DAuthorize (authorizeRead [] 2 Animal)]) _).
    vm_compute. repeat constructor.
Defined.

Lemma readonly_never_writable_witness :
  (checkParameter sampleTable (JNum 1) readonlyId (writeContext (Some adminToken))
     startWorld).1 = Ok ["data"].
Proof.
  refine (readonly_never_writable sampleTable (JNum 1) readonlyId
            (writeContext (Some adminToken)) startWorld 2 Animal eq_refl _ eq_refl _).
  - vm_compute. discriminate.
  - only_builtin.
Defined.

Lemma get_skips_parameter_check_witness :
  checkUserAccessToParameters sampleTable (parameters (saveAction [])) [JArr [mimi]]
    getContext startWorld = (Ok tt, startWorld).
Proof. apply get_skips_parameter_check. reflexivity. Defined.

Lemma relation_not_descended_witness :
  exists paths,
    (checkParameter sampleTable (JObj "Owner" [("name", JStr "Ketut")]) ownerRelation
       (writeContext (Some userToken)) startWorld).1 = Ok paths
    /\ (paths = [] \/ paths = ["data"]).
Proof.
  destruct (checkParameter sampleTable _ ownerRelation _ startWorld)
    as [[paths | e] w'] eqn:Hrun; [| vm_compute in Hrun; discriminate Hrun].
  exists paths. split; [reflexivity |].
  exact (relation_not_descended sampleTable _ ownerRelation
           (writeContext (Some userToken)) startWorld paths w' eq_refl Hrun).
Defined.

Lemma entity_policy_needs_configuration_witness :
  authorizeKeys sampleTable (shopAdmin Animal) ["ShopAdmin"]
    (createAuthContext (entityAction []) AccessRoute) startWorld
  = (Throw (Error "Action AnimalController.get doesn't have Entity Policy Provider information"),
     startWorld)
  /\ authorizeKeys sampleTable (shopAdmin Owner) ["ShopAdmin"] ownerReadContext startWorld
     = (Throw (Error "Entity Owner doesn't have primary ID information required for entity policy"),
        startWorld).
Proof.
  split.
  - refine (proj1 (entity_policy_needs_configuration sampleTable "ShopAdmin" Animal _
                     ["ShopAdmin"] (createAuthContext (entityAction []) AccessRoute)
                     startWorld _) _ eq_refl).
    + apply list_elem_of_here.
    + vm_compute. discriminate.
  - refine (proj2 (entity_policy_needs_configuration sampleTable "ShopAdmin" Owner _
                     ["ShopAdmin"] ownerReadContext startWorld _)
              _ Owner eq_refl eq_refl eq_refl _).
    + apply list_elem_of_here.
    + vm_compute. reflexivity.
Defined.


Lemma registry_same_or_reversed_witness :
  sameOrReversed startWorld
    (execute sampleTable sampleConfig [0%nat] (ret savedResponse)
       (saveRequest adminRoute (Some adminToken)) startWorld).2.
Proof.
  apply (registry_same_or_reversed sampleTable sampleConfig [0%nat]). intros w0. left. reflexivity.
Defined.

Lemma filtered_object_keys_witness :
  let fields := [("name", JStr "Mimi")] in
  "Object" = "Object" /\ fields <> []
  /\ NoDup fields.*1
  /\ Forall (fun kv => kv.1 ∈ map nodeName [nameNode; secretNode] /\ kv.2 <> JUndefined)
       fields.
Proof.
  refine (filtered_object_keys sampleTable sampleConfig
            (JObj "Animal" [("name", JStr "Mimi"); ("secret", JStr "s"); ("extra", JNum 1)])
            [nameNode; secretNode]
            (withAccess (routeContext publicRoute (Some adminToken)) AccessRead)
            startWorld "Object" [("name", JStr "Mimi")]
            (filterType sampleTable sampleConfig
               (JObj "Animal" [("name", JStr "Mimi"); ("secret", JStr "s"); ("extra", JNum 1)])
               (ClassNode [nameNode; secretNode])
               (withAccess (routeContext publicRoute (Some adminToken)) AccessRead)
               startWorld).2 _).
  vm_compute. reflexivity.
Defined.

Lemma writeonly_never_readable_witness :
  exists c fields,
    (filterType sampleTable sampleConfig
       (JObj "Animal" [("name", JStr "Mimi"); ("secret", JStr "s")])
       (ClassNode [nameNode; secretNode])
       (withAccess (routeContext publicRoute (Some adminToken)) AccessRead)
       startWorld).1 = Ok (JObj c fields)
    /\ "secret" ∉ fields.*1.
Proof.
  exists "Object", [("name", JStr "Mimi")]. split; [vm_compute; reflexivity |].
  refine (writeonly_never_readable sampleTable sampleConfig
            (JObj "Animal" [("name", JStr "Mimi"); ("secret", JStr "s")])
            [nameNode; secretNode]
            (withAccess (routeContext publicRoute (Some adminToken)) AccessRead)
            "secret" startWorld "Object" [("name", JStr "Mimi")]
            (filterType sampleTable sampleConfig
               (JObj "Animal" [("name", JStr "Mimi"); ("secret", JStr "s")])
               (ClassNode [nameNode; secretNode])
               (withAccess (routeContext publicRoute (Some adminToken)) AccessRead)
               startWorld).2 _ _ _).
  - repeat constructor; intros H; first [reflexivity | vm_compute in H; discriminate H].
  - only_builtin.
  - vm_compute. reflexivity.
Defined.

Lemma reported_paths_start_at_parameter_witness :
  Forall (fun s => exists suffix, s = join "." (["data"] ++ suffix)) ["data"]
  /\ Forall (fun s => exists prop suffix,
                        prop ∈ parameters (saveAction [])
                        /\ s = join "." (name prop :: suffix))
       ["data.0.id"; "data.0.deceased"].
Proof.
  destruct (reported_paths_start_at_parameter sampleTable) as [Hvalue Hlist].
  split.
  - refine (Hvalue (JNum 1) readonlyId (writeContext (Some adminToken)) startWorld
              ["data"]
              (checkParameter sampleTable (JNum 1) readonlyId
                 (writeContext (Some adminToken)) startWorld).2 _).
    vm_compute. reflexivity.
  - refine (Hlist (parameters (saveAction [])) [JArr [mimi]] (writeInfo (Some userToken))
              startWorld ["data.0.id"; "data.0.deceased"]
              (checkParameters sampleTable (parameters (saveAction [])) [JArr [mimi]]
                 (rootContext (writeInfo (Some userToken))) startWorld).2 _).
    vm_compute. reflexivity.
Defined.

Lemma compiled_class_lists_properties_witness :
  exists props,
    compileType sampleTable 3 [] (TClass Owner) = Some (ClassNode props)
    /\ map nodeName props = ["name"; "animals"].
Proof.
  destruct (compileType sampleTable 3 [] (TClass Owner)) as [node |] eqn:Hrun;
    [| vm_compute in Hrun; discriminate Hrun].
  destruct node as [| | props]; try (vm_compute in Hrun; discriminate Hrun).
  exists props. split; [reflexivity |].
  assert (Hoff : Owner ∉ @nil Class) by (intros Hin; inversion Hin).
  destruct (compiled_class_lists_properties sampleTable 2 [] Owner props Hoff Hrun)
    as [Hnames _].
  etrans; [exact Hnames |]. vm_compute. reflexivity.
Defined.

Lemma response_left_alone_witness :
  responseAuthorize sampleTable sampleConfig createdResponse
    (saveRequest publicRoute None) startWorld
  = (Ok createdResponse, startWorld).
Proof. apply response_left_alone. left. vm_compute. discriminate. Defined.

Lemma middleware_pipeline_witness :
  (execute sampleTable sampleConfig [0%nat] (ret savedResponse)
     (saveRequest adminRoute None) startWorld).1
  = Throw (HttpStatusError 403 "Forbidden")
  /\ (execute sampleTable sampleConfig [0%nat] failingAction
        (saveRequest publicRoute (Some adminToken)) startWorld).1
     = Throw (Error "Error: no connection")
  /\ execute sampleTable sampleConfig [0%nat] (ret createdResponse)
       (saveRequest publicRoute (Some adminToken)) startWorld
     = responseAuthorize sampleTable sampleConfig createdResponse
         (saveRequest publicRoute (Some adminToken))
         (checkAuthorize sampleTable sampleConfig [0%nat] (saveRequest publicRoute (Some adminToken))
            startWorld).2
  /\ execute sampleTable disabledConfig [0%nat] (ret savedResponse)
       (saveRequest adminRoute None) startWorld
     = (let* result := ret savedResponse in
        responseAuthorize sampleTable disabledConfig result (saveRequest adminRoute None))
         startWorld.
Proof.
  split; [| split; [| split]].
  - destruct (middleware_pipeline sampleTable sampleConfig [0%nat] (ret savedResponse)
                (saveRequest adminRoute None) startWorld) as [Hguard _].
    rewrite (Hguard (HttpStatusError 403 "Forbidden")
               (checkAuthorize sampleTable sampleConfig [0%nat] (saveRequest adminRoute None)
                  startWorld).2); [reflexivity |].
    vm_compute. reflexivity.
  - destruct (middleware_pipeline sampleTable sampleConfig [0%nat] failingAction
                (saveRequest publicRoute (Some adminToken)) startWorld) as [_ [Hfail _]].
    rewrite (Hfail (checkAuthorize sampleTable sampleConfig [0%nat] (saveRequest publicRoute (Some adminToken))
                      startWorld).2
               (Error "Error: no connection")
               (checkAuthorize sampleTable sampleConfig [0%nat] (saveRequest publicRoute (Some adminToken))
                  startWorld).2); [reflexivity | |].
    + vm_compute. reflexivity.
    + reflexivity.
  - destruct (middleware_pipeline sampleTable sampleConfig [0%nat] (ret createdResponse)
                (saveRequest publicRoute (Some adminToken)) startWorld) as [_ [_ [Hrun _]]].
    apply (Hrun (checkAuthorize sampleTable sampleConfig [0%nat] (saveRequest publicRoute (Some adminToken))
                   startWorld).2 createdResponse).
    + vm_compute. reflexivity.
    + reflexivity.
  - destruct (middleware_pipeline sampleTable disabledConfig [0%nat] (ret savedResponse)
                (saveRequest adminRoute None) startWorld) as [_ [_ [_ Hoff]]].
    exact (Hoff eq_refl).
Defined.

Lemma summary_follows_route_decision_witness :
  getSummary (sampleRoute [DAuthorize userOrAdmin]) None = Some "user, admin"
  /\ getSummary (sampleRoute []) None = None.
Proof.
  split.
  - destruct (summary_follows_route_decision (sampleRoute [DAuthorize userOrAdmin]) None)
      as [_ Hnames].
    exact (Hnames ["user"; "admin"] eq_refl ltac:(discriminate)).
  - apply (summary_follows_route_decision (sampleRoute []) None). reflexivity.
Defined.
